(** * dnsperf: the load-generation engine of [src/dnsperf.c]

    A shallow embedding of the query slot table, the sender and receiver
    loop bodies, the timeout sweep, cancellation, the per-thread quota
    distribution and the statistics aggregation, followed by the
    properties established about them.

    Conventions.
    - [uint64_t] and [uint32_t] values are integers in [Z]; every C
      operation on them that can wrap is written with [wrap64] or
      [wrap32].  The two [uint16_t] fields of a receipt hold values that
      are below 2^16 by construction.
    - The BIND list macros ([ISC_LIST_HEAD], [ISC_LIST_TAIL],
      [ISC_LIST_PREPEND], [ISC_LIST_APPEND], [ISC_LIST_UNLINK]) act on the
      sequence of slots of a list, written head first; a slot is named by
      its index in [queries], which is also its DNS message id.
    - An [int] is an integer in [Z] between [INT_MIN] and [INT_MAX]; an
      increment of it is written with [wrap_int], the two's-complement
      wrap-around of the compilers dnsperf is built with (the C standard
      leaves the overflow undefined).
    - A C pointer that may be [NULL] is an [option]; dereferencing [NULL],
      indexing [queries] out of range and dividing by zero make the
      function return [None].  So does [perf_log_fatal] in
      [threadinfo_init] and in the start-up of [main], which ends the
      program; in the loop bodies it is an outcome of the turn.
    - Results of calls that leave the program (the clock, the sockets, the
      data file, the DNS encoder) are arguments of the loop bodies.
    - Each function is followed on its own, from entry to return: the
      mutex, the condition variable and the interleaving of the sender
      with the receiver are not part of the model, nor is what the
      program prints. *)

From Stdlib Require Import ZArith List Lia String.
From stdpp Require Import base option list list_numbers numbers strings gmap sorting.

Local Open Scope Z_scope.

(** ** Machine integers *)

Definition wrap64 (x : Z) : Z := x mod 2 ^ 64.
Definition wrap32 (x : Z) : Z := x mod 2 ^ 32.

Definition INT_MIN : Z := - 2 ^ 31.
Definition INT_MAX : Z := 2 ^ 31 - 1.
Definition wrap_int (x : Z) : Z := (x + 2 ^ 31) mod 2 ^ 32 - 2 ^ 31.

Definition ISC_UINT64_MAX : Z := 2 ^ 64 - 1.

(** Modelled from the spec: [MILLION] is a macro of [util.h], which is not
    among the sources; the spec gives the factor of the rate limiter as
    10^6 and all times as microseconds. *)
Definition MILLION : Z := 1000000.

Definition DEFAULT_MAX_OUTSTANDING : Z := 100.
Definition DEFAULT_TIMEOUT : Z := 5.
Definition MAX_SOCKETS : Z := 256.
Definition RECV_BATCH_SIZE : nat := 16.
Definition MAX_DETAIL_NUM : Z := 100000000.
Definition NQIDS : Z := 65536.

(** ** Data model *)

Record config_t := mk_config {
  clients : Z;
  threads : Z;
  maxruns : Z;
  timelimit : Z;
  timeout : Z;
  bufsize : Z;
  edns : bool;
  dnssec : bool;
  cfg_max_outstanding : Z;
  cfg_max_qps : Z;
  stats_interval : Z;
  updates : bool;
  verbose : bool
}.

Record times_t := mk_times {
  start_time : Z;
  end_time : Z;
  stop_time : Z
}.

Record stats_t := mk_stats {
  rcodecounts : list Z;
  num_sent : Z;
  num_interrupted : Z;
  num_timedout : Z;
  num_completed : Z;
  total_request_size : Z;
  total_response_size : Z;
  latency_sum : Z;
  latency_sum_squares : Z;
  latency_min : Z;
  latency_max : Z
}.

(** What [q->list] points to: one of the two lists of the thread. *)
Inductive query_list := outstanding_list | unused_list.

Global Instance query_list_eq_dec : EqDecision query_list.
Proof. solve_decision. Defined.

(** [sock] is the index in [tinfo->socks] of the socket pointed to. *)
Record query_info := mk_query {
  timestamp : Z;
  qlist : option query_list;
  desc : option string;
  sock : option Z
}.

Record threadinfo_t := mk_threadinfo {
  queries : list query_info;
  outstanding_queries : list Z;
  unused_queries : list Z;
  nsocks : Z;
  current_sock : Z;
  done_sending : bool;
  done_send_time : Z;
  stats : stats_t;
  max_outstanding : Z;
  max_qps : Z;
  last_recv : Z;
  latency_detail : gmap Z Z;
  latency_num : Z
}.

(** Field updates, one per assignment form used by the code. *)

Definition with_queries (f : list query_info → list query_info) (t : threadinfo_t) :=
  mk_threadinfo (f (queries t)) (outstanding_queries t) (unused_queries t)
    (nsocks t) (current_sock t) (done_sending t) (done_send_time t) (stats t)
    (max_outstanding t) (max_qps t) (last_recv t) (latency_detail t) (latency_num t).

Definition with_outstanding (f : list Z → list Z) (t : threadinfo_t) :=
  mk_threadinfo (queries t) (f (outstanding_queries t)) (unused_queries t)
    (nsocks t) (current_sock t) (done_sending t) (done_send_time t) (stats t)
    (max_outstanding t) (max_qps t) (last_recv t) (latency_detail t) (latency_num t).

Definition with_unused (f : list Z → list Z) (t : threadinfo_t) :=
  mk_threadinfo (queries t) (outstanding_queries t) (f (unused_queries t))
    (nsocks t) (current_sock t) (done_sending t) (done_send_time t) (stats t)
    (max_outstanding t) (max_qps t) (last_recv t) (latency_detail t) (latency_num t).

Definition with_stats (f : stats_t → stats_t) (t : threadinfo_t) :=
  mk_threadinfo (queries t) (outstanding_queries t) (unused_queries t)
    (nsocks t) (current_sock t) (done_sending t) (done_send_time t) (f (stats t))
    (max_outstanding t) (max_qps t) (last_recv t) (latency_detail t) (latency_num t).

Definition with_current_sock (c : Z) (t : threadinfo_t) :=
  mk_threadinfo (queries t) (outstanding_queries t) (unused_queries t)
    (nsocks t) c (done_sending t) (done_send_time t) (stats t)
    (max_outstanding t) (max_qps t) (last_recv t) (latency_detail t) (latency_num t).

Definition with_last_recv (w : Z) (t : threadinfo_t) :=
  mk_threadinfo (queries t) (outstanding_queries t) (unused_queries t)
    (nsocks t) (current_sock t) (done_sending t) (done_send_time t) (stats t)
    (max_outstanding t) (max_qps t) w (latency_detail t) (latency_num t).

Definition with_latency (d : gmap Z Z) (n : Z) (t : threadinfo_t) :=
  mk_threadinfo (queries t) (outstanding_queries t) (unused_queries t)
    (nsocks t) (current_sock t) (done_sending t) (done_send_time t) (stats t)
    (max_outstanding t) (max_qps t) (last_recv t) d n.

Definition with_timestamp (ts : Z) (q : query_info) :=
  mk_query ts (qlist q) (desc q) (sock q).
Definition with_qlist (l : option query_list) (q : query_info) :=
  mk_query (timestamp q) l (desc q) (sock q).
Definition with_desc (d : option string) (q : query_info) :=
  mk_query (timestamp q) (qlist q) d (sock q).
Definition with_sock (s : option Z) (q : query_info) :=
  mk_query (timestamp q) (qlist q) (desc q) s.

(** [tinfo->queries[q]], [None] outside the array. *)
Definition get_query (t : threadinfo_t) (q : Z) : option query_info :=
  if decide (0 ≤ q) then queries t !! Z.to_nat q else None.

(** An assignment through the pointer [q] to a field of the slot. *)
Definition upd_query (q : Z) (f : query_info → query_info) (t : threadinfo_t) :=
  with_queries (λ qs, match qs !! Z.to_nat q with
                      | Some qi => <[Z.to_nat q := f qi]> qs
                      | None => qs
                      end) t.

(** ** The two intrusive lists *)

Definition ISC_LIST_HEAD (l : list Z) : option Z := head l.
Definition ISC_LIST_TAIL (l : list Z) : option Z := last l.
Definition ISC_LIST_PREPEND (q : Z) (l : list Z) : list Z := q :: l.
Definition ISC_LIST_APPEND (q : Z) (l : list Z) : list Z := l ++ [q].
Definition ISC_LIST_UNLINK (q : Z) (l : list Z) : list Z := filter (λ x, x ≠ q) l.

Inductive query_move_op := prepend_unused | append_unused | prepend_outstanding.

(** [query_move]: unlink [q] from the list [q->list] names, then link it
    into the list chosen by [op] and record that list in [q->list]. *)
Definition query_move (tinfo : threadinfo_t) (q : Z) (op : query_move_op)
  : option threadinfo_t :=
  qi ← get_query tinfo q;
  from ← qlist qi;
  let t1 := match from with
            | outstanding_list => with_outstanding (ISC_LIST_UNLINK q) tinfo
            | unused_list => with_unused (ISC_LIST_UNLINK q) tinfo
            end in
  Some match op with
       | prepend_unused =>
           with_unused (ISC_LIST_PREPEND q) (upd_query q (with_qlist (Some unused_list)) t1)
       | append_unused =>
           with_unused (ISC_LIST_APPEND q) (upd_query q (with_qlist (Some unused_list)) t1)
       | prepend_outstanding =>
           with_outstanding (ISC_LIST_PREPEND q)
             (upd_query q (with_qlist (Some outstanding_list)) t1)
       end.

(** What [query_move] returns on a table that satisfies invariant I1
    (see [query_move_moved]): [q] leaves whichever list holds it and is
    linked where [op] says. *)
Definition target_list (op : query_move_op) : query_list :=
  match op with
  | prepend_outstanding => outstanding_list
  | prepend_unused | append_unused => unused_list
  end.

Definition link (op : query_move_op) (q : Z) (t : threadinfo_t) : threadinfo_t :=
  match op with
  | prepend_unused => with_unused (ISC_LIST_PREPEND q) t
  | append_unused => with_unused (ISC_LIST_APPEND q) t
  | prepend_outstanding => with_outstanding (ISC_LIST_PREPEND q) t
  end.

Definition moved (t : threadinfo_t) (q : Z) (op : query_move_op) : threadinfo_t :=
  link op q
    (upd_query q (with_qlist (Some (target_list op)))
       (with_unused (ISC_LIST_UNLINK q) (with_outstanding (ISC_LIST_UNLINK q) t))).

Definition num_outstanding (s : stats_t) : Z :=
  wrap64 (wrap64 (num_sent s - num_completed s) - num_timedout s).

(** ** Slot table initialisation ([threadinfo_init], the list part) *)

Definition zero_stats : stats_t :=
  mk_stats (replicate 16 0) 0 0 0 0 0 0 0 0 0 0.

Definition zero_query : query_info := mk_query 0 None None None.

(** The thread after the [memset] of [threadinfo_init] and
    [ISC_LIST_INIT] of both lists. *)
Definition zero_threadinfo : threadinfo_t :=
  mk_threadinfo (replicate (Z.to_nat NQIDS) zero_query) [] [] 0 0 false 0
    zero_stats 0 0 0 ∅ 0.

(** One turn of [for (i = 0; i < NQIDS; i++)]. *)
Definition init_slot (t : threadinfo_t) (i : Z) : threadinfo_t :=
  upd_query i (with_qlist (Some unused_list)) (with_unused (ISC_LIST_APPEND i) t).

Definition init_slots (t : threadinfo_t) : threadinfo_t :=
  foldl init_slot t (seqZ 0 NQIDS).

(** The slot table [init_slots] builds, in closed form (see
    [init_slots_fresh]); [ids_from n i] lists [i], [i+1], ... ([n] of them). *)
Fixpoint ids_from (n : nat) (i : Z) : list Z :=
  match n with
  | O => []
  | S n' => i :: ids_from n' (Z.succ i)
  end.

Definition unused_query : query_info := mk_query 0 (Some unused_list) None None.

Definition fresh_threadinfo : threadinfo_t :=
  mk_threadinfo (replicate (Z.to_nat NQIDS) unused_query) []
    (ids_from (Z.to_nat NQIDS) 0) 0 0 false 0 zero_stats 0 0 0 ∅ 0.

(** ** Invariant I1 of the slot table

    Every index of [queries] is on exactly one of the two lists, and
    [q->list] names the list the slot is on. *)
Record slot_table_ok (t : threadinfo_t) : Prop := mk_slot_table_ok {
  ok_size : length (queries t) = Z.to_nat NQIDS;
  ok_perm : outstanding_queries t ++ unused_queries t ≡ₚ seqZ 0 NQIDS;
  ok_outstanding : ∀ q, q ∈ outstanding_queries t →
      qlist <$> get_query t q = Some (Some outstanding_list);
  ok_unused : ∀ q, q ∈ unused_queries t →
      qlist <$> get_query t q = Some (Some unused_list)
}.

(** ** Timeout sweep *)

Definition inc_timedout (s : stats_t) : stats_t :=
  mk_stats (rcodecounts s) (num_sent s) (num_interrupted s)
    (wrap64 (num_timedout s + 1)) (num_completed s) (total_request_size s)
    (total_response_size s) (latency_sum s) (latency_sum_squares s)
    (latency_min s) (latency_max s).

Definition inc_interrupted (s : stats_t) : stats_t :=
  mk_stats (rcodecounts s) (num_sent s) (wrap64 (num_interrupted s + 1))
    (num_timedout s) (num_completed s) (total_request_size s)
    (total_response_size s) (latency_sum s) (latency_sum_squares s)
    (latency_min s) (latency_max s).

(** The test before the lock is taken, negated:
    [!(q->timestamp > now || now - q->timestamp < config->timeout)]. *)
Definition timeout_first (config : config_t) (now : Z) (qi : query_info) : bool :=
  negb (bool_decide (timestamp qi > now)
        || bool_decide (wrap64 (now - timestamp qi) < timeout config)).

(** The [while] condition of the sweep:
    [q->timestamp < now && now - q->timestamp >= config->timeout]. *)
Definition timeout_next (config : config_t) (now : Z) (qi : query_info) : bool :=
  bool_decide (timestamp qi < now)
  && bool_decide (wrap64 (now - timestamp qi) >= timeout config).

(** The [do ... while] of [process_timeouts], entered with the tail [q] of
    the outstanding list.  [fuel] bounds the number of turns; [None] is a
    [NULL] list pointer, a slot outside the table, or no fuel left. *)
Fixpoint process_timeouts_loop (fuel : nat) (config : config_t)
    (tinfo : threadinfo_t) (q : Z) (now : Z) : option threadinfo_t :=
  match fuel with
  | O => None
  | S fuel' =>
      t1 ← query_move tinfo q append_unused;
      let t2 := with_stats inc_timedout t1 in
      match ISC_LIST_TAIL (outstanding_queries t2) with
      | None => Some t2
      | Some q' =>
          qi' ← get_query t2 q';
          if timeout_next config now qi'
          then process_timeouts_loop fuel' config t2 q' now
          else Some t2
      end
  end.

Definition process_timeouts (config : config_t) (tinfo : threadinfo_t) (now : Z)
  : option threadinfo_t :=
  match ISC_LIST_TAIL (outstanding_queries tinfo) with
  | None => Some tinfo
  | Some q =>
      qi ← get_query tinfo q;
      if timeout_first config now qi
      then process_timeouts_loop (S (length (outstanding_queries tinfo)))
             config tinfo q now
      else Some tinfo
  end.

(** ** Cancellation *)

(** The [while (true)] of [cancel_queries]; [fuel] bounds the turns. *)
Fixpoint cancel_queries_loop (fuel : nat) (tinfo : threadinfo_t)
  : option threadinfo_t :=
  match fuel with
  | O => None
  | S fuel' =>
      match ISC_LIST_TAIL (outstanding_queries tinfo) with
      | None => Some tinfo
      | Some q =>
          t1 ← query_move tinfo q append_unused;
          qi ← get_query t1 q;
          if decide (timestamp qi = ISC_UINT64_MAX)
          then cancel_queries_loop fuel' t1
          else
            let t2 := with_stats inc_interrupted t1 in
            let t3 := match desc qi with
                      | Some _ => upd_query q (with_desc None) t2
                      | None => t2
                      end in
            cancel_queries_loop fuel' t3
      end
  end.

Definition cancel_queries (tinfo : threadinfo_t) : option threadinfo_t :=
  cancel_queries_loop (S (length (outstanding_queries tinfo))) tinfo.

(** [threadinfo_cleanup]: the sockets, the DNS context and the latency
    array are released; what remains is the cancellation and [end_time]. *)
Definition threadinfo_cleanup (interrupted : bool) (tinfo : threadinfo_t)
    (times : times_t) : option (threadinfo_t * times_t) :=
  t1 ← (if interrupted then cancel_queries tinfo else Some tinfo);
  Some (t1, if bool_decide (last_recv t1 > end_time times)
            then mk_times (start_time times) (last_recv t1) (stop_time times)
            else times).

(** ** Per-thread quotas *)

Definition per_thread (total nthreads offset : Z) : option Z :=
  if decide (nthreads = 0) then None
  else
    let value := total / nthreads in
    let temp_total := wrap32 (value * nthreads) in
    Some (if bool_decide (temp_total < total)
             && bool_decide (offset < wrap32 (total - temp_total))
          then wrap32 (value + 1)
          else value).

(** What the allocator answers to one call of [threadinfo_init]: whether
    [isc_mem_get] returns memory for [socks], and [malloc] for
    [latency_detail]. *)
Record alloc_t := mk_alloc {
  socks_alloc : bool;
  latency_alloc : bool
}.

(** Every allocation of [threadinfo_init] returns memory. *)
Definition allocated (a : alloc_t) : Prop :=
  socks_alloc a = true ∧ latency_alloc a = true.

Definition alloc_ok : alloc_t := mk_alloc true true.

(** [threadinfo_init] for the thread at index [offset] of [threads]; the
    opening of the sockets, the DNS context and the two pthreads are left
    out.  When [socks] is [NULL] the function ends the program with
    [perf_log_fatal ("out of memory")]; the result of [malloc] is not
    checked, and the loop that follows it stores through it at once. *)
Definition threadinfo_init (mem : alloc_t) (config : config_t) (offset : Z)
  : option threadinfo_t :=
  let t0 := init_slots zero_threadinfo in
  mo ← per_thread (cfg_max_outstanding config) (threads config) offset;
  mq ← per_thread (cfg_max_qps config) (threads config) offset;
  ns ← per_thread (clients config) (threads config) offset;
  let mo' := if bool_decide (mo > NQIDS) then NQIDS else mo in
  let ns' := if bool_decide (ns > MAX_SOCKETS) then MAX_SOCKETS else ns in
  if negb (socks_alloc mem) then None
  else if negb (latency_alloc mem) then None
  else
    Some (mk_threadinfo (queries t0) (outstanding_queries t0) (unused_queries t0)
            ns' 0 false 0 (stats t0) mo' mq 0 ∅ 0).

(** ** Configuration *)

(** The values [setup] stores before the options are parsed. *)
Definition default_config : config_t :=
  mk_config 1 1 0 0 (DEFAULT_TIMEOUT * MILLION) 0 false false
    DEFAULT_MAX_OUTSTANDING 0 0 false false.

(** [setup] from the return of [perf_opt_parse] on: [config] holds the
    parsed options, [edns_option] tells whether [-E] was given. *)
Definition setup (config : config_t) (edns_option : bool) : config_t :=
  let c1 :=
    if bool_decide (maxruns config = 0) && bool_decide (timelimit config = 0)
    then mk_config (clients config) (threads config) 1 (timelimit config)
           (timeout config) (bufsize config) (edns config) (dnssec config)
           (cfg_max_outstanding config) (cfg_max_qps config)
           (stats_interval config) (updates config) (verbose config)
    else config in
  let c2 :=
    if dnssec c1 || edns_option
    then mk_config (clients c1) (threads c1) (maxruns c1) (timelimit c1)
           (timeout c1) (bufsize c1) true (dnssec c1)
           (cfg_max_outstanding c1) (cfg_max_qps c1)
           (stats_interval c1) (updates c1) (verbose c1)
    else c1 in
  let c3 :=
    if bool_decide (cfg_max_qps c2 > 0) && bool_decide (threads c2 > cfg_max_qps c2)
    then mk_config (clients c2) (cfg_max_qps c2) (maxruns c2) (timelimit c2)
           (timeout c2) (bufsize c2) (edns c2) (dnssec c2)
           (cfg_max_outstanding c2) (cfg_max_qps c2)
           (stats_interval c2) (updates c2) (verbose c2)
    else c2 in
  if bool_decide (threads c3 > clients c3)
  then mk_config (clients c3) (clients c3) (maxruns c3) (timelimit c3)
         (timeout c3) (bufsize c3) (edns c3) (dnssec c3)
         (cfg_max_outstanding c3) (cfg_max_qps c3)
         (stats_interval c3) (updates c3) (verbose c3)
  else c3.

(** ** Aggregation *)

(** [for (j = 0; j < 16; j++) total->rcodecounts[j] += stats->rcodecounts[j]] *)
Definition add_rcodecounts (total st : list Z) : list Z :=
  foldl (λ tot j, <[j := wrap64 (tot !!! j + st !!! j)]> tot) total (seq 0 16).

(** One turn of the loop of [sum_stats], for thread [i]. *)
Definition sum_stats_step (i : Z) (total st : stats_t) : stats_t :=
  mk_stats
    (add_rcodecounts (rcodecounts total) (rcodecounts st))
    (wrap64 (num_sent total + num_sent st))
    (wrap64 (num_interrupted total + num_interrupted st))
    (wrap64 (num_timedout total + num_timedout st))
    (wrap64 (num_completed total + num_completed st))
    (wrap64 (total_request_size total + total_request_size st))
    (wrap64 (total_response_size total + total_response_size st))
    (wrap64 (latency_sum total + latency_sum st))
    (wrap64 (latency_sum_squares total + latency_sum_squares st))
    (if bool_decide (latency_min st < latency_min total) || bool_decide (i = 0)
     then latency_min st else latency_min total)
    (if bool_decide (latency_max st > latency_max total)
     then latency_max st else latency_max total).

Fixpoint sum_stats_loop (i : Z) (thr : list threadinfo_t) (total : stats_t) : stats_t :=
  match thr with
  | [] => total
  | t :: thr' => sum_stats_loop (i + 1) thr' (sum_stats_step i total (stats t))
  end.

(** [sum_stats] over the array [threads], which has [config->threads]
    entries. *)
Definition sum_stats (thr : list threadinfo_t) : stats_t :=
  sum_stats_loop 0 thr zero_stats.

(** ** Receiver *)

Inductive errno_t := EAGAIN | EINTR | EINPROGRESS | EOTHER (code : Z).

Global Instance errno_eq_dec : EqDecision errno_t.
Proof. solve_decision. Defined.

Record received_query_t := mk_received {
  r_sock : option Z;
  qid : Z;
  rcode : Z;
  r_size : Z;
  when : Z;
  sent : Z;
  unexpected : bool;
  short_response : bool;
  r_desc : option string
}.

(** The initialiser of [recvd] in [do_recv]. *)
Definition zero_received : received_query_t :=
  mk_received None 0 0 0 0 0 false false None.

(** What one call of [perf_net_recv] followed by [get_time] yields: the
    return value [n], [errno], the bytes of [packet_buffer] after the call
    and the clock. *)
Record net_recv_t := mk_net_recv {
  nr_n : Z;
  nr_errno : errno_t;
  nr_packet : list Byte.byte;
  nr_time : Z
}.

Definition packet_byte (buf : list Byte.byte) (k : nat) : Z :=
  Z.of_N (Byte.to_N (default Byte.x00 (buf !! k))).

(** [ntohs(packet_header[k])]: the 16-bit word at bytes [2k], [2k+1],
    most significant byte first. *)
Definition ntohs_header (buf : list Byte.byte) (k : nat) : Z :=
  256 * packet_byte buf (2 * k) + packet_byte buf (2 * k + 1).

(** [recv_one]: [inl] is [true] with the filled entry, [inr] is [false]
    with the value stored in [*saved_errnop]. *)
Definition recv_one (which_sock : Z) (res : net_recv_t)
  : received_query_t + errno_t :=
  if bool_decide (nr_n res < 0) then inr (nr_errno res)
  else inl (mk_received (Some which_sock)
              (ntohs_header (nr_packet res) 0)
              (Z.land (ntohs_header (nr_packet res) 1) 0xF)
              (nr_n res) (nr_time res) 0 false
              (bool_decide (nr_n res < 4)) None).

Definition bit_set (bits : list Z) (bit : Z) : list Z :=
  let shift := 7 - bit mod 8 in
  let mask := Z.shiftl 1 shift in
  let k := Z.to_nat (bit / 8) in
  <[k := Z.lor (bits !!! k) mask mod 256]> bits.

Definition bit_check (bits : list Z) (bit : Z) : bool :=
  let shift := 7 - bit mod 8 in
  bool_decide (Z.land (Z.shiftr (bits !!! Z.to_nat (bit / 8)) shift) 0x01 ≠ 0).

(** The locals of [do_recv] the receive loops work on; [g_calls] counts
    the calls of [perf_net_recv] of this batch. *)
Record gather_t := mk_gather {
  g_recvd : list received_query_t;
  g_errno : option errno_t;
  g_bits : list Z;
  g_last : Z;
  g_calls : nat
}.

(** [for (j = 0; j < tinfo->nsocks; j++)]: returns the final [j]. *)
Fixpoint recv_scan (net : nat → net_recv_t) (nsocks : Z) (i : nat)
    (n : nat) (j : Z) (g : gather_t) : Z * gather_t :=
  match n with
  | O => (j, g)
  | S n' =>
      let current_socket := wrap32 (j + g_last g) mod nsocks in
      if bit_check (g_bits g) current_socket
      then recv_scan net nsocks i n' (j + 1) g
      else
        match recv_one current_socket (net (g_calls g)) with
        | inl r =>
            (j, mk_gather (<[i := r]> (g_recvd g)) (g_errno g) (g_bits g)
                  (current_socket + 1) (S (g_calls g)))
        | inr e =>
            let g' := mk_gather (g_recvd g) (Some e)
                        (bit_set (g_bits g) current_socket) (g_last g)
                        (S (g_calls g)) in
            if decide (e = EAGAIN)
            then recv_scan net nsocks i n' (j + 1) g'
            else (j, g')
        end
  end.

(** [for (i = 0; i < RECV_BATCH_SIZE; i++)]: returns [nrecvd]. *)
Fixpoint recv_batch (net : nat → net_recv_t) (nsocks : Z) (n : nat) (i : nat)
    (g : gather_t) : nat * gather_t :=
  match n with
  | O => (i, g)
  | S n' =>
      let '(j, g') := recv_scan net nsocks i (Z.to_nat nsocks) 0 g in
      if decide (j = nsocks) then (i, g')
      else recv_batch net nsocks n' (S i) g'
  end.

(** The body of the first [for (i = 0; i < nrecvd; i++)], under the lock.
    [perf_net_sockeq] compares the two sockets; both point into
    [tinfo->socks]. *)
Definition correlate_one (tinfo : threadinfo_t) (r : received_query_t)
  : option (threadinfo_t * received_query_t) :=
  if short_response r then Some (tinfo, r)
  else
    qi ← get_query tinfo (qid r);
    let mismatch :=
      if bool_decide (qlist qi ≠ Some outstanding_list) then Some true
      else if bool_decide (timestamp qi = ISC_UINT64_MAX) then Some true
      else match sock qi, r_sock r with
           | Some a, Some b => Some (bool_decide (a ≠ b))
           | _, _ => None
           end in
    m ← mismatch;
    if m : bool
    then Some (tinfo, mk_received (r_sock r) (qid r) (rcode r) (r_size r)
                        (when r) (sent r) true (short_response r) (r_desc r))
    else
      t1 ← query_move tinfo (qid r) append_unused;
      Some (upd_query (qid r) (with_desc None) t1,
            mk_received (r_sock r) (qid r) (rcode r) (r_size r) (when r)
              (timestamp qi) (unexpected r) (short_response r) (desc qi)).

Fixpoint correlate (tinfo : threadinfo_t) (rs : list received_query_t)
  : option (threadinfo_t * list received_query_t) :=
  match rs with
  | [] => Some (tinfo, [])
  | r :: rs' =>
      '(t1, r') ← correlate_one tinfo r;
      '(t2, rs'') ← correlate t1 rs';
      Some (t2, r' :: rs'')
  end.

(** The store into [latency_detail]. *)
Definition record_latency (latency : Z) (tinfo : threadinfo_t) : threadinfo_t :=
  if bool_decide (latency_num tinfo < MAX_DETAIL_NUM - 1)
  then with_latency (<[latency_num tinfo := latency]> (latency_detail tinfo))
         (wrap64 (latency_num tinfo + 1)) tinfo
  else tinfo.

(** [stats->rcodecounts[rcode]++]; [None] outside the array. *)
Definition inc_rcode (rc : list Z) (code : Z) : option (list Z) :=
  if decide (0 ≤ code)
  then c ← rc !! Z.to_nat code; Some (<[Z.to_nat code := wrap64 (c + 1)]> rc)
  else None.

(** The statistics of one completed query. *)
Definition complete_stats (r : received_query_t) (latency : Z) (s : stats_t)
  : option stats_t :=
  let completed := wrap64 (num_completed s + 1) in
  rc ← inc_rcode (rcodecounts s) (rcode r);
  Some (mk_stats rc (num_sent s) (num_interrupted s) (num_timedout s)
          completed (total_request_size s)
          (wrap64 (total_response_size s + r_size r))
          (wrap64 (latency_sum s + latency))
          (wrap64 (latency_sum_squares s + wrap64 (latency * latency)))
          (if bool_decide (latency < latency_min s) || bool_decide (completed = 1)
           then latency else latency_min s)
          (if bool_decide (latency > latency_max s)
           then latency else latency_max s)).

(** The body of the second [for (i = 0; i < nrecvd; i++)], unlocked. *)
Definition account_one (tinfo : threadinfo_t) (r : received_query_t)
  : option threadinfo_t :=
  if short_response r then Some tinfo
  else if unexpected r then Some tinfo
  else
    let latency := wrap64 (when r - sent r) in
    let t1 := record_latency latency tinfo in
    s ← complete_stats r latency (stats t1);
    Some (with_stats (λ _, s) t1).

Fixpoint account (tinfo : threadinfo_t) (rs : list received_query_t)
  : option threadinfo_t :=
  match rs with
  | [] => Some tinfo
  | r :: rs' => t1 ← account_one tinfo r; account t1 rs'
  end.

Record recv_state := mk_recv_state {
  rs_tinfo : threadinfo_t;
  rs_recvd : list received_query_t;
  rs_now : Z;
  rs_last_socket : Z
}.

Inductive recv_outcome := recv_again | recv_done | recv_fatal.

(** The receive loops of one turn, started on cleared [socketbits] and
    [saved_errno]. *)
Definition do_recv_gather (net : nat → net_recv_t) (tinfo : threadinfo_t)
    (st : recv_state) : nat * gather_t :=
  recv_batch net (nsocks tinfo) RECV_BATCH_SIZE 0
    (mk_gather (rs_recvd st) None (replicate 32 0) (rs_last_socket st) 0).

(** One turn of [while (!interrupted)] in [do_recv].  [net] answers the
    calls of [perf_net_recv], [clock] is [get_time()] after
    [perf_os_waituntilanyreadable]. *)
Definition do_recv_body (config : config_t) (net : nat → net_recv_t)
    (clock : Z) (st : recv_state) : option (recv_state * recv_outcome) :=
  t1 ← process_timeouts config (rs_tinfo st) (rs_now st);
  if done_sending t1 && bool_decide (num_outstanding (stats t1) = 0)
  then Some (mk_recv_state t1 (rs_recvd st) (rs_now st) (rs_last_socket st),
             recv_done)
  else
    let '(nrecvd, g) := do_recv_gather net t1 st in
    '(t2, batch) ← correlate t1 (take nrecvd (g_recvd g));
    let recvd := batch ++ drop nrecvd (g_recvd g) in
    t3 ← account t2 batch;
    let t4 := match last batch with
              | Some r => with_last_recv (when r) t3
              | None => t3
              end in
    if bool_decide (nrecvd < RECV_BATCH_SIZE)%nat
    then match g_errno g with
         | Some EINTR =>
             Some (mk_recv_state t4 recvd (rs_now st) (g_last g), recv_again)
         | Some EAGAIN =>
             Some (mk_recv_state t4 recvd clock (g_last g), recv_again)
         | _ => Some (mk_recv_state t4 recvd (rs_now st) (g_last g), recv_fatal)
         end
    else Some (mk_recv_state t4 recvd (rs_now st) (g_last g), recv_again).

(** ** Sender *)

(** The answers of [perf_net_sockready]: a positive value, [0], [-1] with
    [errno == EINPROGRESS], [-1] with another [errno]. *)
Inductive sockready_t := sock_ready | sock_not_ready | sock_in_progress | sock_failed.

(** The answers of [perf_datafile_next]: [ISC_R_SUCCESS] with the text
    read, [ISC_R_INVALIDFILE], any other result. *)
Inductive datafile_t := datafile_ok (line : string) | datafile_invalid | datafile_end.

(** The answers of [perf_dns_buildrequest]: [ISC_R_SUCCESS] with the used
    length of [msg], or a failure. *)
Inductive build_t := build_ok (length : Z) | build_failed.

(** What the world answers during one turn of the loop of [do_send]. *)
Record send_env := mk_send_env {
  clock_pace : Z;
  clock_next : Z;
  sockready : nat → sockready_t;
  datafile_next : datafile_t;
  buildrequest : build_t;
  sendto_n : Z;
  sendto_errno : errno_t
}.

(** Calls by which the sender waits or emits; [ev_usleep] carries the
    value the call receives.  Modelled from the C library: the parameter
    of [usleep] is a [useconds_t], which is not declared in the sources;
    it is an [unsigned int], 32 bits wide, so a [uint64_t] argument
    arrives modulo 2^32. *)
Inductive send_event :=
  | ev_usleep (usec : Z)
  | ev_sleep (sec : Z)
  | ev_timedwait
  | ev_sendto (s : Z) (len : Z).

Record send_state := mk_send_state {
  ss_tinfo : threadinfo_t;
  ss_now : Z;
  ss_any_inprogress : bool
}.

Inductive send_outcome := send_again | send_break | send_fatal.

Definition send_result : Type := send_state * send_outcome * list send_event.

(** [while (i--)] of the socket selection: [k] counts the calls of
    [perf_net_sockready], [cur] is [tinfo->current_sock], [s] is
    [q->sock].  In [tinfo->current_sock++ % tinfo->nsocks] the [int] is
    converted to [unsigned int] for the remainder, and the increment is
    the one of an [int]. *)
Fixpoint select_socket (ready : nat → sockready_t) (nsocks : Z) (i : nat)
    (k : nat) (cur : Z) (any : bool) (s : option Z) : option Z * Z * bool :=
  match i with
  | O => (s, cur, any)
  | S i' =>
      let chosen := wrap32 cur mod nsocks in
      let cur' := wrap_int (cur + 1) in
      match ready k with
      | sock_not_ready => select_socket ready nsocks i' (S k) cur' any None
      | sock_in_progress => select_socket ready nsocks i' (S k) cur' true None
      | sock_failed | sock_ready => (Some chosen, cur', any)
      end
  end.

Definition count_sent (len : Z) (s : stats_t) : stats_t :=
  mk_stats (rcodecounts s) (wrap64 (num_sent s + 1)) (num_interrupted s)
    (num_timedout s) (num_completed s) (wrap64 (total_request_size s + len))
    (total_response_size s) (latency_sum s) (latency_sum_squares s)
    (latency_min s) (latency_max s).

(** From [perf_net_sendto] to the end of the loop body. *)
Definition do_send_packet (env : send_env) (tinfo : threadinfo_t) (q s : Z)
    (len now : Z) (any : bool) : option send_result :=
  let released :=
    t1 ← query_move tinfo q prepend_unused;
    Some (mk_send_state t1 now any, send_again, [ev_sendto s len]) in
  if bool_decide (sendto_n env < 0)
  then
    if decide (sendto_errno env = EINPROGRESS)
    then Some (mk_send_state (with_stats (count_sent len) tinfo) now true,
               send_again, [ev_sendto s len])
    else released
  else if bool_decide (wrap32 (sendto_n env) ≠ len)
  then released
  else Some (mk_send_state (with_stats (count_sent len) tinfo) now any,
             send_again, [ev_sendto s len]).

(** From [LOCK(&tinfo->lock)] to the end of the loop body. *)
Definition do_send_query (config : config_t) (env : send_env)
    (tinfo : threadinfo_t) (now : Z) (any : bool) : option send_result :=
  if bool_decide (num_outstanding (stats tinfo) >= max_outstanding tinfo)
  then Some (mk_send_state tinfo (clock_next env) any, send_again, [ev_timedwait])
  else
    q ← ISC_LIST_HEAD (unused_queries tinfo);
    t1 ← query_move tinfo q prepend_outstanding;
    let t2 := upd_query q (with_timestamp ISC_UINT64_MAX) t1 in
    qi ← get_query t2 q;
    let '(s, cur, any') :=
      select_socket (sockready env) (nsocks t2) (Z.to_nat (nsocks t2 * 2)) 0
        (current_sock t2) any (sock qi) in
    let t3 := with_current_sock cur (upd_query q (with_sock s) t2) in
    match s with
    | None =>
        t4 ← query_move t3 q prepend_unused;
        Some (mk_send_state t4 (clock_next env) any', send_again, [])
    | Some sk =>
        match datafile_next env with
        | datafile_invalid => Some (mk_send_state t3 now any', send_fatal, [])
        | datafile_end => Some (mk_send_state t3 now any', send_break, [])
        | datafile_ok line =>
            match buildrequest env with
            | build_failed =>
                t4 ← query_move t3 q prepend_unused;
                Some (mk_send_state t4 (clock_next env) any', send_again, [])
            | build_ok len =>
                let t4 := if verbose config
                          then upd_query q (with_desc (Some line)) t3
                          else t3 in
                let t5 := upd_query q (with_timestamp (clock_next env)) t4 in
                do_send_packet env t5 q sk len (clock_next env) any'
            end
        end
    end.

(** The rate limiter and what follows it. *)
Definition do_send_rate_limit (config : config_t) (times : times_t)
    (env : send_env) (tinfo : threadinfo_t) (now : Z) (any : bool)
  : option send_result :=
  if bool_decide (max_qps tinfo > 0)
  then
    let run_time := wrap64 (now - start_time times) in
    let req_time := wrap64 (MILLION * num_sent (stats tinfo)) / max_qps tinfo in
    if bool_decide (req_time > run_time)
    then Some (mk_send_state tinfo (clock_next env) any, send_again,
               [ev_usleep (wrap32 (wrap64 (req_time - run_time)))])
    else do_send_query config env tinfo now any
  else do_send_query config env tinfo now any.

(** The test of "avoid flooding the network too quickly" and the call it
    leads to. *)
Definition pacing_due (tinfo : threadinfo_t) : bool :=
  bool_decide (num_sent (stats tinfo) < max_outstanding tinfo)
  && bool_decide (num_sent (stats tinfo) mod 2 = 1).

Definition pacing_pause (tinfo : threadinfo_t) : list send_event :=
  if pacing_due tinfo
  then [if bool_decide (num_completed (stats tinfo) = 0)
        then ev_usleep 1000 else ev_sleep 0]
  else [].

(** One turn of [while (!interrupted && now < times->stop_time)] in
    [do_send]. *)
Definition do_send_body (config : config_t) (times : times_t) (env : send_env)
    (st : send_state) : option send_result :=
  let tinfo := ss_tinfo st in
  let now := if pacing_due tinfo then clock_pace env else ss_now st in
  '(st', out, evs) ←
    do_send_rate_limit config times env tinfo now (ss_any_inprogress st);
  Some (st', out, pacing_pause tinfo ++ evs).

(** ** Vocabulary of the statements *)

(** The slot was stamped by the sender: its timestamp is not the
    acquired-but-unsent sentinel. *)
Definition is_sent (t : threadinfo_t) (q : Z) : bool :=
  bool_decide (timestamp <$> get_query t q ≠ Some ISC_UINT64_MAX).

(** The two tests of [process_timeouts] at slot [q] of the table. *)
Definition expired_first (config : config_t) (now : Z) (t : threadinfo_t) (q : Z)
  : bool :=
  match get_query t q with
  | Some qi => timeout_first config now qi
  | None => false
  end.

Definition expired_next (config : config_t) (now : Z) (t : threadinfo_t) (q : Z)
  : bool :=
  match get_query t q with
  | Some qi => timeout_next config now qi
  | None => false
  end.

(** The longest run of slots passing [p] at the front of [l]. *)
Fixpoint run_while (p : Z → bool) (l : list Z) : list Z :=
  match l with
  | [] => []
  | q :: l' => if p q then q :: run_while p l' else []
  end.

(** The slots one sweep reclaims, in the order it reclaims them: the
    outstanding list is walked from its tail; the tail must pass the first
    test and each further slot the loop test; the walk stops at the first
    slot that fails. *)
Definition swept (config : config_t) (now : Z) (t : threadinfo_t) : list Z :=
  match reverse (outstanding_queries t) with
  | [] => []
  | q :: l =>
      if expired_first config now t q
      then q :: run_while (expired_next config now t) l
      else []
  end.

(** Timestamp, description and socket of every slot are the same in [t]
    and [t']. *)
Definition same_payload (t t' : threadinfo_t) : Prop :=
  ∀ x, (λ qi, (timestamp qi, desc qi, sock qi)) <$> get_query t' x
       = (λ qi, (timestamp qi, desc qi, sock qi)) <$> get_query t x.

(** [q->timestamp] for slot [q] of the table. *)
Definition slot_time (t : threadinfo_t) (q : Z) : Z :=
  default 0 (timestamp <$> get_query t q).

(** The outstanding list is in send order: from its tail (the oldest
    query) to its head (the newest) the timestamps do not decrease. *)
Definition in_send_order (t : threadinfo_t) : Prop :=
  StronglySorted (λ a b, slot_time t a ≤ slot_time t b)
    (reverse (outstanding_queries t)).

(** The condition of the spec for a query to be timed out at [now]: its
    timestamp is not the acquired-but-unsent sentinel and
    [now - timestamp >= config.timeout]. *)
Definition timed_out (config : config_t) (now : Z) (t : threadinfo_t) (q : Z)
  : bool :=
  bool_decide (slot_time t q ≠ ISC_UINT64_MAX)
  && bool_decide (now - slot_time t q >= timeout config).

(** The thread after the sender took slot [q] from the unused list
    ([query_move] to the outstanding list, sentinel timestamp), and after
    it stamped the slot with the send time. *)
Definition acquire (t : threadinfo_t) (q : Z) : threadinfo_t :=
  upd_query q (with_timestamp ISC_UINT64_MAX) (moved t q prepend_outstanding).

Definition stamp (t : threadinfo_t) (q now : Z) : threadinfo_t :=
  upd_query q (with_timestamp now) t.

(** The response code of a receipt indexes the 16 entries of
    [rcodecounts]. *)
Definition rcode_ok (r : received_query_t) : Prop := 0 ≤ rcode r < 16.

(** The spec's aggregate minimum: the least [latency_min] among the
    threads that completed at least one query ([None] when there is no
    such thread). *)
Definition spec_latency_min (thr : list threadinfo_t) : option Z :=
  foldr (λ t acc,
           if bool_decide (num_completed (stats t) > 0)
           then Some (match acc with
                      | Some m => Z.min (latency_min (stats t)) m
                      | None => latency_min (stats t)
                      end)
           else acc) None thr.

(** ** Sample inputs *)

(** [-T 4 -c 4] and no [-Q]: four threads, four clients, no rate limit. *)
Definition config_four_threads : config_t :=
  mk_config 4 4 0 0 (DEFAULT_TIMEOUT * MILLION) 0 false false
    DEFAULT_MAX_OUTSTANDING 0 0 false false.

(** [-T 8 -c 6 -Q 3]. *)
Definition config_rate_limited : config_t :=
  mk_config 6 8 0 0 (DEFAULT_TIMEOUT * MILLION) 0 false false
    DEFAULT_MAX_OUTSTANDING 3 0 false false.

(** A thread that sent three queries and got three answers, after 500,
    600 and 700 microseconds. *)
Definition thread_busy : threadinfo_t :=
  with_stats (λ _, mk_stats (<[0%nat := 3]> (replicate 16 0)) 3 0 0 3 90 150
                     1800 1100000 500 700) fresh_threadinfo.

(** A thread that sent two queries and lost both to the timeout. *)
Definition thread_idle : threadinfo_t :=
  with_stats (λ _, mk_stats (replicate 16 0) 2 0 2 0 60 0 0 0 0 0)
    fresh_threadinfo.

(** A thread that has stored 99,999,999 latencies, each of 600
    microseconds ([d] is the content of the array). *)
Definition thread_near_cap (d : gmap Z Z) : threadinfo_t :=
  with_latency d 99999999
    (with_stats (λ _, mk_stats (<[0%nat := 99999999]> (replicate 16 0))
                        99999999 0 0 99999999 2999999970 4599999954
                        59999999400 35999999640000 600 600)
       fresh_threadinfo).

(** A NOERROR answer to query 0 on socket 0, 600 microseconds after the
    query was sent. *)
Definition answer_600us : received_query_t :=
  mk_received (Some 0) 0 0 46 1000600 1000000 false false None.

(** Slot 0 was acquired and the data file then gave nothing more: the
    slot stays outstanding with the sentinel timestamp. *)
Definition thread_unsent : threadinfo_t := acquire fresh_threadinfo 0.


(** Slot 0 was sent at time [ts0], then slot 1 at time [ts1]. *)
Definition thread_two_sent (ts0 ts1 : Z) : threadinfo_t :=
  stamp (acquire (stamp (acquire fresh_threadinfo 0) 0 ts0) 1) 1 ts1.

(** [-t 0]: a query timeout of zero. *)
Definition config_zero_timeout : config_t :=
  mk_config 1 1 1 0 0 0 false false DEFAULT_MAX_OUTSTANDING 0 0 false false.

(** Slot 0 was sent at time 1,000,000; slot 1 was then acquired and not
    sent. *)
Definition thread_sent_and_unsent : threadinfo_t :=
  acquire (stamp (acquire fresh_threadinfo 0) 0 1000000) 1.

(** The thread [threadinfo_init alloc_ok default_config 0] returns: one socket, at
    most 100 queries outstanding, no rate limit. *)
Definition thread_started : threadinfo_t :=
  mk_threadinfo (queries fresh_threadinfo) [] (unused_queries fresh_threadinfo)
    1 0 false 0 zero_stats 100 0 0 ∅ 0.


(** A thread limited to 1,000,000 queries per second that has sent, and
    seen answered, 18,446,744,073,710 queries. *)
Definition thread_long_run : threadinfo_t :=
  mk_threadinfo (queries fresh_threadinfo) [] (unused_queries fresh_threadinfo)
    1 0 false 0
    (mk_stats (<[0%nat := 18446744073710]> (replicate 16 0))
       18446744073710 0 0 18446744073710 534955578137590 848550227390660
       11068046444226000 6640827866535600000 600 600)
    100 1000000 0 ∅ 99999999.

(** A thread limited to 1,000 queries per second that has sent 5,000
    queries. *)
Definition thread_rate_limited : threadinfo_t :=
  mk_threadinfo (queries fresh_threadinfo) [] (unused_queries fresh_threadinfo)
    1 0 false 0
    (mk_stats (<[0%nat := 5000]> (replicate 16 0))
       5000 0 0 5000 145000 230000 3000000 1800000000 600 600)
    100 1000 0 ∅ 5000.

(** A thread limited to one query per second that has sent 5,000
    queries. *)
Definition thread_one_qps : threadinfo_t :=
  mk_threadinfo (queries fresh_threadinfo) [] (unused_queries fresh_threadinfo)
    1 0 false 0
    (mk_stats (<[0%nat := 5000]> (replicate 16 0))
       5000 0 0 5000 145000 230000 3000000 1800000000 600 600)
    100 1 0 ∅ 5000.

(** A turn of the sender in which the socket is ready, the data file gives
    a line, the request is 29 bytes long and is sent whole. *)
Definition env_sent : send_env :=
  mk_send_env 1000 18446744000000 (λ _, sock_ready) (datafile_ok "example.com A")
    (build_ok 29) 29 EAGAIN.

(** No socket has anything to read: every [perf_net_recv] fails with
    [EAGAIN]. *)
Definition net_idle : nat → net_recv_t :=
  λ _, mk_net_recv (-1) EAGAIN [] 1000.

(** The receiver of [thread_started] before its first turn. *)
Definition recv_started : recv_state :=
  mk_recv_state thread_started (replicate RECV_BATCH_SIZE zero_received) 1000 0.

(** ** The threads of a run, as [main] drives them *)

(** The start-up of [main]: [threads = isc_mem_get (...)], which ends the
    program with [perf_log_fatal ("out of memory")] when it returns
    [NULL], and then
    [for (i = 0; i < config.threads; i++) threadinfo_init(&threads[i], ...)],
    the threads in the order of their index.  [threads_alloc] tells
    whether the array was allocated, [mem k] what the allocator answers to
    the thread of index [k]. *)
Definition start_threads (threads_alloc : bool) (mem : Z → alloc_t)
    (config : config_t) : option (list threadinfo_t) :=
  if threads_alloc
  then mapM (λ k, threadinfo_init (mem k) config k) (seqZ 0 (threads config))
  else None.

(** The sum of a per-thread quantity over the threads. *)
Definition total_of (f : threadinfo_t → Z) (thr : list threadinfo_t) : Z :=
  foldr (λ t acc, f t + acc) 0 thr.

(** The least element of a list of values, [None] for the empty list. *)
Definition least (l : list Z) : option Z :=
  foldr (λ x acc, Some (match acc with
                        | Some m => Z.min x m
                        | None => x
                        end)) None l.

(** What [saved_errno] and [socketbits] of [do_recv] hold together during
    a batch: while no receive has failed the bitmap is still cleared, and a
    stored [errno] is the one of a failed call of [perf_net_recv]. *)
Definition errno_inv (net : nat → net_recv_t) (g : gather_t) : Prop :=
  (g_errno g = None → g_bits g = replicate 32 0)
  ∧ (∀ e, g_errno g = Some e → ∃ k, nr_n (net k) < 0 ∧ nr_errno (net k) = e).

(** A 46-byte answer with id [0x1234] and flags [0x8183] (a response,
    recursion desired and available, NXDOMAIN), received at time
    1,000,600. *)
Definition answer_packet : net_recv_t :=
  mk_net_recv 46 EAGAIN [Byte.x12; Byte.x34; Byte.x81; Byte.x83] 1000600.

(** Every [perf_net_recv] fails with [ECONNREFUSED]. *)
Definition net_refused : nat → net_recv_t :=
  λ _, mk_net_recv (-1) (EOTHER 111) [] 1000.

(** The first [perf_net_recv] is interrupted by a signal; after that no
    socket has anything to read. *)
Definition net_interrupted : nat → net_recv_t :=
  λ k, match k with
       | O => mk_net_recv (-1) EINTR [] 1000
       | S _ => mk_net_recv (-1) EAGAIN [] 1000
       end.

(** The entry was filled by [recv_one] from a receive of this turn ([net]
    answers the calls of [perf_net_recv] of the turn). *)
Definition filled (net : nat → net_recv_t) (r : received_query_t) : Prop :=
  ∃ which_sock k, recv_one which_sock (net k) = inl r.

(** What neither [query_move] nor a counter update changes in a thread. *)
Definition same_settings (t t' : threadinfo_t) : Prop :=
  nsocks t' = nsocks t ∧ max_outstanding t' = max_outstanding t
  ∧ max_qps t' = max_qps t ∧ done_sending t' = done_sending t
  ∧ done_send_time t' = done_send_time t.

(** [recvd[i].unexpected = true]. *)
Definition flagged (r : received_query_t) : received_query_t :=
  mk_received (r_sock r) (qid r) (rcode r) (r_size r) (when r) (sent r) true
    (short_response r) (r_desc r).

(** The receipts the second loop of [do_recv] counts as completed. *)
Definition counted (r : received_query_t) : bool :=
  negb (short_response r) && negb (unexpected r).


(** The response-code counters add up to [num_completed]. *)
Definition rcodes_ok (s : stats_t) : Prop :=
  Forall (λ c, 0 ≤ c) (rcodecounts s)
  ∧ foldr Z.add 0 (rcodecounts s) = num_completed s.

(** Slot 0 was sent on socket 0 at time 1,000,000 and counted. *)
Definition thread_on_wire : threadinfo_t :=
  with_stats (count_sent 29)
    (upd_query 0 (with_sock (Some 0))
       (stamp (acquire thread_started 0) 0 1000000)).

(** Two NOERROR answers to query 0, on socket 0, 600 and 650 microseconds
    after time 1,000,000. *)
Definition answer_first : received_query_t :=
  mk_received (Some 0) 0 0 46 1000600 0 false false None.
Definition answer_second : received_query_t :=
  mk_received (Some 0) 0 0 46 1000650 0 false false None.

(** The queries in flight: the slots on the outstanding list that were
    stamped by the sender. *)
Definition in_flight (t : threadinfo_t) : Z :=
  Z.of_nat (length (filter (λ q, is_sent t q) (outstanding_queries t))).

(** Invariant I2: [num_outstanding] counts the queries in flight. *)
Definition in_flight_ok (t : threadinfo_t) : Prop :=
  num_outstanding (stats t) = in_flight t.

(** One answer to query 0 (id [0x0000], flags [0x8180], NOERROR) is
    waiting on the socket, received at time 1,000,600; after it nothing
    more is to be read. *)
Definition net_one_answer : nat → net_recv_t :=
  λ k, match k with
       | O => mk_net_recv 46 EAGAIN [Byte.x00; Byte.x00; Byte.x81; Byte.x80] 1000600
       | S _ => mk_net_recv (-1) EAGAIN [] 1000700
       end.

(** The receiver of [thread_on_wire] before the turn that reads the
    answer. *)
Definition recv_on_wire : recv_state :=
  mk_recv_state thread_on_wire (replicate RECV_BATCH_SIZE zero_received) 1000500 0.

(** The sender holds slot [q] at the head of the outstanding list of [T];
    apart from that [T] is the thread [t] of the start of the turn. *)
Record holds (t T : threadinfo_t) (q : Z) : Prop := mk_holds {
  holds_ok : slot_table_ok T;
  holds_out : outstanding_queries T = q :: outstanding_queries t;
  holds_stats : stats T = stats t;
  holds_settings : same_settings t T;
  holds_others : ∀ x, x ≠ q → get_query T x = get_query t x
}.

(** [for (i = 0; i < config.threads; i++) threadinfo_cleanup(&threads[i],
    &times)] of [main]. *)
Fixpoint cleanup_threads (interrupted : bool) (thr : list threadinfo_t)
    (times : times_t) : option (list threadinfo_t * times_t) :=
  match thr with
  | [] => Some ([], times)
  | t :: thr' =>
      '(t', times1) ← threadinfo_cleanup interrupted t times;
      '(thr'', times2) ← cleanup_threads interrupted thr' times1;
      Some (t' :: thr'', times2)
  end.

(** The end of [main], after the threads were joined: [sum_stats] fills
    the totals, [print_statistics] is given the totals and [times], and
    only then the threads are cleaned up.  The result holds what
    [print_statistics] was given, and the threads and [times] at the end. *)
Definition main_report (interrupted : bool) (thr : list threadinfo_t)
    (times : times_t) : option (stats_t * times_t * list threadinfo_t * times_t) :=
  let total_stats := sum_stats thr in
  let printed := (total_stats, times) in
  '(thr', times') ← cleanup_threads interrupted thr times;
  Some (printed, thr', times').

(** What a turn of the sender does to the thread [t], for the answers
    [env] of the world: it waits (rate limit or in-flight cap) and leaves
    [t] as it is; or it takes a slot [q] and puts it back; or it takes [q]
    and leaves the loop with [q] still holding the sentinel; or it takes
    [q], stamps it with the clock, sends and counts the query. *)
Inductive send_turn (t : threadinfo_t) (env : send_env)
  : threadinfo_t → send_outcome → list send_event → Prop :=
  | turn_waits evs :
      send_turn t env t send_again evs
  | turn_releases T q evs :
      holds t T q → num_outstanding (stats t) < max_outstanding t →
      send_turn t env (moved T q prepend_unused) send_again evs
  | turn_stops T q out :
      holds t T q → num_outstanding (stats t) < max_outstanding t →
      timestamp <$> get_query T q = Some ISC_UINT64_MAX →
      out ≠ send_again →
      send_turn t env T out []
  | turn_sends T q s len qi :
      holds t T q → num_outstanding (stats t) < max_outstanding t →
      get_query T q = Some qi → timestamp qi = clock_next env →
      sock qi = Some s →
      send_turn t env (with_stats (count_sent len) T) send_again
        [ev_sendto s len].

(** The first readiness check finds its socket in progress, the later
    ones find theirs ready. *)
Definition ready_second : nat → sockready_t :=
  λ j, match j with
       | O => sock_in_progress
       | S _ => sock_ready
       end.

(** Every slot on the outstanding list was stamped by the sender. *)
Definition all_sent (t : threadinfo_t) : Prop :=
  ∀ q, q ∈ outstanding_queries t → is_sent t q = true.

(** Invariant I3: an outstanding slot that was stamped has a socket. *)
Definition sockets_ok (t : threadinfo_t) : Prop :=
  ∀ q qi, q ∈ outstanding_queries t → get_query t q = Some qi →
          timestamp qi ≠ ISC_UINT64_MAX → is_Some (sock qi).

(** The end of [do_send], after its loops:
    [tinfo->done_send_time = get_time(); tinfo->done_sending = true]. *)
Definition do_send_done (clock : Z) (t : threadinfo_t) : threadinfo_t :=
  mk_threadinfo (queries t) (outstanding_queries t) (unused_queries t)
    (nsocks t) (current_sock t) true clock (stats t)
    (max_outstanding t) (max_qps t) (last_recv t) (latency_detail t)
    (latency_num t).

(** The receiver of a thread whose sender took slot 0, found the data
    file at its end and returned at time 2,000. *)
Definition recv_after_sender : recv_state :=
  mk_recv_state (do_send_done 2000 (acquire thread_started 0))
    (replicate RECV_BATCH_SIZE zero_received) 3000 0.

(** The first receive of the turn returns an answer to query 0 with
    response code 3 (id [0x0000], flags [0x8183], NXDOMAIN), received at
    time 1,000,600; after it nothing more is to be read. *)
Definition net_nxdomain : nat → net_recv_t :=
  λ k, match k with
       | O => mk_net_recv 46 EAGAIN [Byte.x00; Byte.x00; Byte.x81; Byte.x83] 1000600
       | S _ => mk_net_recv (-1) EAGAIN [] 1000700
       end.

(** Slot 0 is in flight again: its id was taken anew and the query was
    sent on socket 0 at time 8,000,000. *)
Definition thread_reused : threadinfo_t := stamp thread_on_wire 0 8000000.

(** Slots 0, 1 and 2 were sent on socket 0 at times 1,000,000, 1,000,100
    and 1,000,200 and counted. *)
Definition thread_three_on_wire : threadinfo_t :=
  with_stats (count_sent 29)
    (upd_query 2 (with_sock (Some 0))
       (stamp
          (acquire
             (with_stats (count_sent 29)
                (upd_query 1 (with_sock (Some 0))
                   (stamp (acquire thread_on_wire 1) 1 1000100))) 2)
          2 1000200)).

(** An answer to query 1 (id [0x0001], flags [0x8180], NOERROR) is
    waiting on the socket, received at time 1,000,700; after it nothing
    more is to be read. *)
Definition net_answer_to_second : nat → net_recv_t :=
  λ k, match k with
       | O => mk_net_recv 46 EAGAIN [Byte.x00; Byte.x01; Byte.x81; Byte.x80] 1000700
       | S _ => mk_net_recv (-1) EAGAIN [] 1000800
       end.

(** The receiver of [thread_three_on_wire] before the turn that reads the
    answer. *)
Definition recv_three_on_wire : recv_state :=
  mk_recv_state thread_three_on_wire (replicate RECV_BATCH_SIZE zero_received)
    1000500 0.

(** * Proofs *)

(** ** Lists of slot ids *)

Lemma ids_from_seqZ n i : ids_from n i = seqZ i (Z.of_nat n).
Proof.
  revert i. induction n as [|n IH]; intros i.
  - reflexivity.
  - rewrite seqZ_cons by lia. cbn [ids_from]. rewrite IH. do 2 f_equal. lia.
Qed.

Lemma elem_of_unlink x q l : x ∈ ISC_LIST_UNLINK q l ↔ x ∈ l ∧ x ≠ q.
Proof. unfold ISC_LIST_UNLINK. rewrite list_elem_of_filter. tauto. Qed.

Lemma unlink_absent q l : q ∉ l → ISC_LIST_UNLINK q l = l.
Proof.
  unfold ISC_LIST_UNLINK. induction l as [|x l IH]; intros Hq; [done|].
  rewrite not_elem_of_cons in Hq. destruct Hq as [Hne Hq].
  rewrite filter_cons_True by congruence. by rewrite IH.
Qed.

Lemma unlink_present q l : NoDup l → q ∈ l → l ≡ₚ q :: ISC_LIST_UNLINK q l.
Proof.
  unfold ISC_LIST_UNLINK. induction l as [|x l IH]; intros Hnd Hq.
  - by apply elem_of_nil in Hq.
  - apply NoDup_cons in Hnd as [Hx Hnd]. destruct (decide (x = q)) as [->|Hne].
    + rewrite filter_cons_False by tauto.
      fold (ISC_LIST_UNLINK q l). by rewrite unlink_absent.
    + rewrite filter_cons_True by done.
      apply elem_of_cons in Hq as [?|Hq]; [congruence|].
      rewrite (IH Hnd Hq) at 1. apply Permutation_swap.
Qed.

Lemma unlink_app q l1 l2 :
  ISC_LIST_UNLINK q (l1 ++ l2) = ISC_LIST_UNLINK q l1 ++ ISC_LIST_UNLINK q l2.
Proof. apply filter_app. Qed.

Lemma unlink_last q l : q ∉ l → ISC_LIST_UNLINK q (l ++ [q]) = l.
Proof.
  intros Hq. rewrite unlink_app, (unlink_absent q l Hq).
  unfold ISC_LIST_UNLINK. rewrite filter_cons_False by tauto.
  by rewrite filter_nil, app_nil_r.
Qed.

Lemma unlink_head q l : q ∉ l → ISC_LIST_UNLINK q (q :: l) = l.
Proof.
  intros Hq. unfold ISC_LIST_UNLINK. rewrite filter_cons_False by tauto.
  by apply unlink_absent.
Qed.

(** ** Reading and writing slots *)

Lemma get_query_Some t q qi :
  get_query t q = Some qi → 0 ≤ q ∧ queries t !! Z.to_nat q = Some qi.
Proof. unfold get_query. case_decide; [done|discriminate]. Qed.

Lemma get_query_in_range t q :
  length (queries t) = Z.to_nat NQIDS → 0 ≤ q < NQIDS → is_Some (get_query t q).
Proof.
  intros Hlen Hq. unfold get_query. rewrite decide_True by lia.
  apply lookup_lt_is_Some. lia.
Qed.

Lemma get_query_upd_eq t q f qi :
  get_query t q = Some qi → get_query (upd_query q f t) q = Some (f qi).
Proof.
  intros [Hq Hl]%get_query_Some. unfold get_query, upd_query. cbn.
  rewrite decide_True, Hl by done.
  apply list_lookup_insert_eq. by eapply lookup_lt_Some.
Qed.

Lemma get_query_upd_None t q f :
  get_query t q = None → get_query (upd_query q f t) q = None.
Proof.
  unfold get_query, upd_query. cbn. case_decide; [|done].
  intros Hl. by rewrite !Hl.
Qed.

Lemma get_query_upd_ne t q f x :
  0 ≤ q → x ≠ q → get_query (upd_query q f t) x = get_query t x.
Proof.
  intros Hq Hne. unfold get_query, upd_query. cbn.
  case_decide; [|done].
  destruct (queries t !! Z.to_nat q); [|done].
  apply list_lookup_insert_ne. lia.
Qed.

Lemma length_upd_query t q f :
  length (queries (upd_query q f t)) = length (queries t).
Proof.
  unfold upd_query. cbn. destruct (queries t !! Z.to_nat q); [|done].
  apply length_insert.
Qed.

Lemma length_moved t q op :
  length (queries (moved t q op)) = length (queries t).
Proof.
  destruct op;
    apply (length_upd_query
             (with_unused (ISC_LIST_UNLINK q) (with_outstanding (ISC_LIST_UNLINK q) t))).
Qed.

(** ** The freshly initialised table *)

Lemma insert_replicate_boundary {A} (a b x : A) (k m : nat) :
  <[k := x]> (replicate k a ++ replicate (S m) b)
  = replicate k a ++ x :: replicate m b.
Proof.
  rewrite insert_app_r_alt by (rewrite length_replicate; lia).
  rewrite length_replicate, Nat.sub_diag. reflexivity.
Qed.

Lemma replicate_cons_comm {A} (a : A) (k : nat) (l : list A) :
  replicate k a ++ a :: l = a :: replicate k a ++ l.
Proof. induction k as [|k IH]; [done|]. cbn. by rewrite IH. Qed.

Lemma init_slots_prefix (N k : nat) :
  (k ≤ N)%nat →
  foldl init_slot
    (mk_threadinfo (replicate N zero_query) [] [] 0 0 false 0 zero_stats 0 0 0 ∅ 0)
    (seqZ 0 (Z.of_nat k))
  = mk_threadinfo (replicate k unused_query ++ replicate (N - k) zero_query) []
      (seqZ 0 (Z.of_nat k)) 0 0 false 0 zero_stats 0 0 0 ∅ 0.
Proof.
  induction k as [|k IH]; intros Hk.
  - cbn. by rewrite Nat.sub_0_r.
  - rewrite seqZ_S, foldl_app, IH by lia. cbn [foldl].
    unfold init_slot, upd_query, with_unused, with_queries, ISC_LIST_APPEND. cbn.
    rewrite Z.add_0_l, Nat2Z.id.
    replace (N - k)%nat with (S (N - S k)) by lia.
    rewrite lookup_app_r by (rewrite length_replicate; lia).
    rewrite length_replicate, Nat.sub_diag. cbn [lookup list_lookup replicate].
    change (zero_query :: replicate (N - S k) zero_query)
      with (replicate (S (N - S k)) zero_query).
    rewrite insert_replicate_boundary.
    f_equal. change (with_qlist (Some unused_list) zero_query) with unused_query.
    apply replicate_cons_comm.
Qed.

Lemma init_slots_fresh : init_slots zero_threadinfo = fresh_threadinfo.
Proof.
  unfold init_slots, zero_threadinfo, fresh_threadinfo.
  rewrite <- (Z2Nat.id NQIDS) at 2 by done.
  rewrite init_slots_prefix by done.
  rewrite Nat.sub_diag, app_nil_r, ids_from_seqZ. reflexivity.
Qed.


Lemma fresh_threadinfo_ok : slot_table_ok fresh_threadinfo.
Proof.
  split; cbn.
  - apply length_replicate.
  - rewrite ids_from_seqZ, Z2Nat.id by done. reflexivity.
  - intros q Hq. by apply elem_of_nil in Hq.
  - intros q. rewrite ids_from_seqZ, Z2Nat.id by done.
    intros Hq%elem_of_seqZ. unfold get_query. cbn.
    rewrite decide_True by lia.
    rewrite lookup_replicate_2 by lia. reflexivity.
Qed.

(** ** [query_move] on a table that satisfies I1 *)

Lemma slot_table_NoDup t :
  slot_table_ok t → NoDup (outstanding_queries t ++ unused_queries t).
Proof. intros Hok. rewrite (ok_perm t Hok). apply NoDup_seqZ. Qed.

Lemma slot_table_elem t q :
  slot_table_ok t →
  (q ∈ outstanding_queries t ∨ q ∈ unused_queries t) ↔ 0 ≤ q < NQIDS.
Proof.
  intros Hok. rewrite <- elem_of_app, (ok_perm t Hok), elem_of_seqZ. lia.
Qed.

Lemma slot_table_length t :
  slot_table_ok t →
  Z.of_nat (length (outstanding_queries t)) + Z.of_nat (length (unused_queries t))
  = NQIDS.
Proof.
  intros Hok. rewrite <- Nat2Z.inj_add, <- length_app, (ok_perm t Hok), length_seqZ.
  by rewrite Z2Nat.id.
Qed.

Lemma get_query_moved t q op x :
  0 ≤ q →
  get_query (moved t q op) x
  = if decide (x = q) then with_qlist (Some (target_list op)) <$> get_query t q
    else get_query t x.
Proof.
  intros Hq.
  assert (get_query (moved t q op) x
          = get_query (upd_query q (with_qlist (Some (target_list op))) t) x) as ->.
  { by destruct op. }
  case_decide as Hx.
  - subst x. destruct (get_query t q) as [qi|] eqn:Hqi.
    + by apply get_query_upd_eq.
    + by rewrite get_query_upd_None.
  - by apply get_query_upd_ne.
Qed.

Lemma outstanding_moved t q op :
  outstanding_queries (moved t q op)
  = match op with
    | prepend_outstanding => q :: ISC_LIST_UNLINK q (outstanding_queries t)
    | _ => ISC_LIST_UNLINK q (outstanding_queries t)
    end.
Proof. by destruct op. Qed.

Lemma unused_moved t q op :
  unused_queries (moved t q op)
  = match op with
    | prepend_unused => q :: ISC_LIST_UNLINK q (unused_queries t)
    | append_unused => ISC_LIST_UNLINK q (unused_queries t) ++ [q]
    | prepend_outstanding => ISC_LIST_UNLINK q (unused_queries t)
    end.
Proof. by destruct op. Qed.

Lemma stats_moved t q op : stats (moved t q op) = stats t.
Proof. by destruct op. Qed.

Lemma with_unused_unlink_absent t q :
  q ∉ unused_queries t → with_unused (ISC_LIST_UNLINK q) t = t.
Proof.
  intros Hq. destruct t. unfold with_unused. cbn in *. f_equal. by apply unlink_absent.
Qed.

Lemma with_outstanding_unlink_absent t q :
  q ∉ outstanding_queries t → with_outstanding (ISC_LIST_UNLINK q) t = t.
Proof.
  intros Hq. destruct t. unfold with_outstanding. cbn in *. f_equal. by apply unlink_absent.
Qed.

Lemma query_move_moved t q op :
  slot_table_ok t → 0 ≤ q < NQIDS → query_move t q op = Some (moved t q op).
Proof.
  intros Hok Hq.
  destruct (get_query_in_range t q (ok_size t Hok) Hq) as [qi Hqi].
  pose proof (slot_table_NoDup t Hok) as Hnd.
  apply NoDup_app in Hnd as (_ & Hdisj & _).
  unfold query_move. rewrite Hqi. cbn.
  apply (slot_table_elem t q Hok) in Hq as [Hin|Hin].
  - pose proof (ok_outstanding t Hok q Hin) as Htag. rewrite Hqi in Htag.
    injection Htag as ->. cbn. unfold moved.
    rewrite with_unused_unlink_absent by (cbn; auto).
    by destruct op.
  - pose proof (ok_unused t Hok q Hin) as Htag. rewrite Hqi in Htag.
    injection Htag as ->. cbn. unfold moved.
    assert (q ∉ outstanding_queries t) as Hout by (intros ?; naive_solver).
    rewrite (with_outstanding_unlink_absent t q) by done.
    by destruct op.
Qed.

Lemma moved_ok t q op :
  slot_table_ok t → 0 ≤ q < NQIDS → slot_table_ok (moved t q op).
Proof.
  intros Hok Hq.
  pose proof (slot_table_NoDup t Hok) as Hnd.
  assert (q ∈ outstanding_queries t ++ unused_queries t) as Hin.
  { apply elem_of_app. by apply slot_table_elem. }
  pose proof (unlink_present q _ Hnd Hin) as Hperm. rewrite unlink_app in Hperm.
  destruct (get_query_in_range t q (ok_size t Hok) Hq) as [qi Hqi].
  split.
  - rewrite <- (ok_size t Hok). apply length_moved.
  - rewrite outstanding_moved, unused_moved, <- (ok_perm t Hok), Hperm.
    destruct op; cbn.
    + by rewrite <- Permutation_middle.
    + by rewrite app_assoc, <- Permutation_cons_append.
    + done.
  - intros x. rewrite outstanding_moved, get_query_moved, Hqi by lia.
    intros Hx. case_decide as Hxq.
    + subst x. destruct op; [by apply elem_of_unlink in Hx as [_ ?]..|done].
    + apply (ok_outstanding t Hok).
      destruct op; [apply elem_of_unlink in Hx; tauto..|].
      apply elem_of_cons in Hx as [?|Hx]; [done|]. apply elem_of_unlink in Hx. tauto.
  - intros x. rewrite unused_moved, get_query_moved, Hqi by lia.
    intros Hx. case_decide as Hxq.
    + subst x. destruct op; [done..|]. by apply elem_of_unlink in Hx as [_ ?].
    + apply (ok_unused t Hok). destruct op.
      * apply elem_of_cons in Hx as [?|Hx]; [done|]. apply elem_of_unlink in Hx. tauto.
      * apply elem_of_app in Hx as [Hx|Hx]; [apply elem_of_unlink in Hx; tauto|].
        apply list_elem_of_singleton in Hx. done.
      * apply elem_of_unlink in Hx. tauto.
Qed.

(** An assignment to a field other than [q->list] keeps I1. *)
Lemma upd_query_ok t q f :
  (∀ qi, qlist (f qi) = qlist qi) → 0 ≤ q →
  slot_table_ok t → slot_table_ok (upd_query q f t).
Proof.
  intros Hf Hq Hok.
  assert (∀ x, qlist <$> get_query (upd_query q f t) x = qlist <$> get_query t x)
    as Htag.
  { intros x. destruct (decide (x = q)) as [->|Hne].
    - destruct (get_query t q) as [qi|] eqn:Hqi.
      + rewrite (get_query_upd_eq t q f qi Hqi). cbn. by rewrite Hf.
      + by rewrite get_query_upd_None.
    - by rewrite get_query_upd_ne. }
  split.
  - rewrite length_upd_query. apply (ok_size t Hok).
  - apply (ok_perm t Hok).
  - intros x Hx. rewrite Htag. by apply (ok_outstanding t Hok).
  - intros x Hx. rewrite Htag. by apply (ok_unused t Hok).
Qed.

(** I1 only reads the table and the two lists. *)
Lemma slot_table_ok_ext t t' :
  queries t' = queries t →
  outstanding_queries t' = outstanding_queries t →
  unused_queries t' = unused_queries t →
  slot_table_ok t → slot_table_ok t'.
Proof.
  intros Hq Ho Hu Hok.
  assert (∀ x, get_query t' x = get_query t x) as Hget.
  { intros x. unfold get_query. by rewrite Hq. }
  split.
  - rewrite Hq. apply (ok_size t Hok).
  - rewrite Ho, Hu. apply (ok_perm t Hok).
  - intros x. rewrite Ho, Hget. apply (ok_outstanding t Hok).
  - intros x. rewrite Hu, Hget. apply (ok_unused t Hok).
Qed.




(** ** Threads built step by step

    The sample threads are built from the fresh table by the steps of the
    sender; each step keeps I1. *)

Lemma with_stats_ok f t : slot_table_ok t → slot_table_ok (with_stats f t).
Proof. intros Hok. by apply (slot_table_ok_ext t). Qed.

Lemma with_current_sock_ok c t : slot_table_ok t → slot_table_ok (with_current_sock c t).
Proof. intros Hok. by apply (slot_table_ok_ext t). Qed.

Lemma acquire_ok t q : slot_table_ok t → 0 ≤ q < NQIDS → slot_table_ok (acquire t q).
Proof.
  intros Hok Hq. apply upd_query_ok; [done|lia|]. by apply moved_ok.
Qed.

Lemma stamp_ok t q ts : slot_table_ok t → 0 ≤ q → slot_table_ok (stamp t q ts).
Proof. intros Hok Hq. by apply upd_query_ok. Qed.

Create HintDb slots discriminated.

#[local] Hint Constants Opaque : slots.

#[local] Hint Resolve fresh_threadinfo_ok acquire_ok stamp_ok : slots.
#[local] Hint Extern 1 (_ ≤ _ < NQIDS) => done : slots.
#[local] Hint Extern 1 (_ ≤ _) => done : slots.

Lemma thread_unsent_ok : slot_table_ok thread_unsent.
Proof. unfold thread_unsent. auto with slots. Qed.


Lemma thread_two_sent_ok ts0 ts1 : slot_table_ok (thread_two_sent ts0 ts1).
Proof. unfold thread_two_sent. auto 6 with slots. Qed.

Lemma thread_sent_and_unsent_ok : slot_table_ok thread_sent_and_unsent.
Proof. unfold thread_sent_and_unsent. auto 6 with slots. Qed.

Lemma thread_started_ok : slot_table_ok thread_started.
Proof. apply (slot_table_ok_ext fresh_threadinfo); [done..|apply fresh_threadinfo_ok]. Qed.


(** ** Per-thread quotas and configuration *)

Lemma wrap_int_small x : INT_MIN ≤ x ≤ INT_MAX → wrap_int x = x.
Proof.
  unfold wrap_int, INT_MIN, INT_MAX. intros Hx.
  rewrite Z.mod_small by lia. lia.
Qed.

Lemma wrap32_small x : 0 ≤ x < 2 ^ 32 → wrap32 x = x.
Proof. intros Hx. unfold wrap32. by apply Z.mod_small. Qed.

Lemma wrap64_small x : 0 ≤ x < 2 ^ 64 → wrap64 x = x.
Proof. intros Hx. unfold wrap64. by apply Z.mod_small. Qed.

Lemma per_thread_value total N k :
  0 ≤ total < 2 ^ 32 → 0 < N → 0 ≤ k < N →
  per_thread total N k
  = Some (total / N + (if bool_decide (k < total mod N) then 1 else 0)).
Proof.
  intros Htotal HN Hk. unfold per_thread.
  rewrite decide_False by lia. f_equal.
  pose proof (Z.div_mod total N ltac:(lia)) as Hdm.
  pose proof (Z.mod_pos_bound total N HN) as Hmod.
  assert (0 ≤ total / N) as Hdiv by (apply Z.div_pos; lia).
  assert (total / N * N = total - total mod N) as Hmul by lia.
  rewrite (wrap32_small (total / N * N)) by lia.
  replace (total - total / N * N) with (total mod N) by lia.
  rewrite (wrap32_small (total mod N)) by lia.
  destruct (bool_decide (k < total mod N)) eqn:Hlt.
  - apply bool_decide_eq_true in Hlt.
    rewrite bool_decide_eq_true_2 by lia. cbn.
    apply wrap32_small. nia.
  - rewrite andb_false_r. lia.
Qed.



(** What [setup] leaves in the limits of [config]. *)
Lemma setup_limits config edns_option :
  let c := setup config edns_option in
  threads c
  = Z.min (if bool_decide (0 < cfg_max_qps config < threads config)
           then cfg_max_qps config else threads config)
          (clients config)
  ∧ clients c = clients config
  ∧ cfg_max_qps c = cfg_max_qps config
  ∧ cfg_max_outstanding c = cfg_max_outstanding config.
Proof.
  unfold setup.
  set (c1 := if bool_decide (maxruns config = 0) && _ then _ else config).
  set (c2 := if dnssec c1 || _ then _ else c1).
  set (c3 := if bool_decide (cfg_max_qps c2 > 0) && _ then _ else c2).
  assert (threads c1 = threads config ∧ clients c1 = clients config
          ∧ cfg_max_qps c1 = cfg_max_qps config
          ∧ cfg_max_outstanding c1 = cfg_max_outstanding config)
    as (Ht1 & Hc1 & Hq1 & Ho1).
  { subst c1. by destruct (_ && _). }
  assert (threads c2 = threads config ∧ clients c2 = clients config
          ∧ cfg_max_qps c2 = cfg_max_qps config
          ∧ cfg_max_outstanding c2 = cfg_max_outstanding config)
    as (Ht2 & Hc2 & Hq2 & Ho2).
  { rewrite <- Ht1, <- Hc1, <- Hq1, <- Ho1. subst c2. by destruct (_ || _). }
  assert (threads c3
          = (if bool_decide (0 < cfg_max_qps config < threads config)
             then cfg_max_qps config else threads config)
          ∧ clients c3 = clients config
          ∧ cfg_max_qps c3 = cfg_max_qps config
          ∧ cfg_max_outstanding c3 = cfg_max_outstanding config)
    as (Ht3 & Hc3 & Hq3 & Ho3).
  { rewrite <- Hc2, <- Ho2. subst c3. rewrite Hq2, Ht2.
    destruct (bool_decide_reflect (cfg_max_qps config > 0));
      destruct (bool_decide_reflect (threads config > cfg_max_qps config)); cbn;
      rewrite ?Hq2, ?Ht2; (split; [case_bool_decide; lia|done]). }
  cbv zeta. rewrite <- Ht3, <- Hc3, <- Hq3, <- Ho3.
  generalize c3. clear. intros c. case_bool_decide; cbn; (split; [lia|done]).
Qed.

Lemma threadinfo_init_started :
  threadinfo_init alloc_ok default_config 0 = Some thread_started.
Proof.
  unfold threadinfo_init. rewrite init_slots_fresh.
  change (cfg_max_outstanding default_config) with 100.
  change (cfg_max_qps default_config) with 0.
  change (clients default_config) with 1.
  change (threads default_config) with 1.
  rewrite !per_thread_value by lia. reflexivity.
Qed.

Lemma threadinfo_init_caps mem config k t :
  threadinfo_init mem config k = Some t →
  max_outstanding t ≤ NQIDS ∧ nsocks t ≤ MAX_SOCKETS.
Proof.
  unfold threadinfo_init.
  destruct (per_thread (cfg_max_outstanding config) _ _) as [mo|]; [|discriminate].
  destruct (per_thread (cfg_max_qps config) _ _) as [mq|]; [|discriminate].
  destruct (per_thread (clients config) _ _) as [ns|]; [|discriminate].
  cbn [mbind option_bind].
  destruct (socks_alloc mem); [|discriminate].
  destruct (latency_alloc mem); [|discriminate]. cbn [negb].
  intros Heq. apply (inj Some) in Heq. subst t.
  cbn [max_outstanding nsocks]. split; case_bool_decide; lia.
Qed.

(** C4, as the code has it: [setup] reduces the thread count [N] to
    [max_qps] only when [0 < max_qps < N] (a [max_qps] of 0 means no rate
    limit and leaves [N] alone), and then to at most the number of clients;
    the other limits are not changed by [setup]; every thread that
    [threadinfo_init] then builds has [max_outstanding <= 65,536] and
    [nsocks <= 256]. *)
Theorem setup_thread_limits config edns_option :
  let c := setup config edns_option in
  threads c
  = Z.min (if bool_decide (0 < cfg_max_qps config < threads config)
           then cfg_max_qps config else threads config)
          (clients config)
  ∧ threads c ≤ clients c
  ∧ clients c = clients config
  ∧ cfg_max_qps c = cfg_max_qps config
  ∧ (∀ mem k t, threadinfo_init mem c k = Some t →
            max_outstanding t ≤ 65536 ∧ nsocks t ≤ 256).
Proof.
  intros c. subst c.
  destruct (setup_limits config edns_option) as (Hth & Hcl & Hqps & _).
  rewrite Hcl, Hqps, Hth.
  split; [reflexivity|]. split; [lia|]. split; [reflexivity|]. split; [reflexivity|].
  intros mem k t Hinit. apply (threadinfo_init_caps _ _ _ _ Hinit).
Qed.

Lemma setup_thread_limits_witness :
  ∃ t, threadinfo_init alloc_ok (setup config_rate_limited false) 2 = Some t
       ∧ max_outstanding t ≤ 65536 ∧ nsocks t ≤ 256.
Proof.
  destruct (setup_thread_limits config_rate_limited false) as (_ & _ & _ & _ & Hcap).
  destruct (threadinfo_init alloc_ok (setup config_rate_limited false) 2)
    as [t|] eqn:Hinit.
  - exists t. split; [reflexivity|]. exact (Hcap alloc_ok 2 t Hinit).
  - exfalso. revert Hinit. unfold threadinfo_init.
    assert (threads (setup config_rate_limited false) = 3) as -> by reflexivity.
    assert (cfg_max_outstanding (setup config_rate_limited false) = 100) as ->
      by reflexivity.
    assert (cfg_max_qps (setup config_rate_limited false) = 3) as -> by reflexivity.
    assert (clients (setup config_rate_limited false) = 6) as -> by reflexivity.
    rewrite !per_thread_value by lia. discriminate.
Defined.

(** C4 as stated fails: with no rate limit configured ([max_qps = 0]) and
    four threads, [max_qps] is below the thread count, yet [setup] keeps
    four threads instead of reducing them to [max_qps]. *)
Lemma setup_unlimited_qps_counterexample :
  cfg_max_qps config_four_threads < threads config_four_threads
  ∧ threads (setup config_four_threads false) = 4
  ∧ threads (setup config_four_threads false) ≠ cfg_max_qps config_four_threads.
Proof. vm_compute. repeat split; congruence. Qed.

(** ** Aggregation *)

Lemma sum_stats_loop_latency_min i thr total :
  0 < i →
  latency_min (sum_stats_loop i thr total)
  = foldl Z.min (latency_min total) (latency_min ∘ stats <$> thr).
Proof.
  revert i total. induction thr as [|t thr IH]; intros i total Hi; [done|].
  cbn [sum_stats_loop fmap list_fmap foldl]. rewrite IH by lia.
  f_equal. cbn. rewrite (bool_decide_eq_false_2 (i = 0)) by lia.
  rewrite orb_false_r. case_bool_decide; lia.
Qed.

(** What [sum_stats] computes: the least [latency_min] of all threads,
    whether or not they completed a query. *)
Lemma sum_stats_latency_min t thr :
  latency_min (sum_stats (t :: thr))
  = foldl Z.min (latency_min (stats t)) (latency_min ∘ stats <$> thr).
Proof.
  unfold sum_stats. cbn [sum_stats_loop]. rewrite sum_stats_loop_latency_min by lia.
  f_equal. cbn. rewrite (bool_decide_eq_true_2 (0 = 0)) by done.
  by rewrite orb_true_r.
Qed.

(** C3 at a failing input: of two threads, the first completed three
    queries with a least latency of 500 and the second completed none;
    [sum_stats] reports a least latency of 0, the zero-initialised
    [latency_min] of the idle thread, where the least latency among the
    threads with completions is 500.  The order of the two threads does
    not matter. *)
Theorem sum_stats_idle_thread_min :
  latency_min (sum_stats [thread_busy; thread_idle]) = 0
  ∧ latency_min (sum_stats [thread_idle; thread_busy]) = 0
  ∧ spec_latency_min [thread_busy; thread_idle] = Some 500
  ∧ spec_latency_min [thread_idle; thread_busy] = Some 500.
Proof. rewrite !sum_stats_latency_min. repeat split. Qed.

(** ** The latency recorder *)

(** What the code does: a latency is stored exactly while fewer than
    [MAX_DETAIL_NUM - 1] are stored. *)
Lemma record_latency_stores latency t :
  0 ≤ latency_num t →
  (latency_num t < 99999999 →
   record_latency latency t
   = with_latency (<[latency_num t := latency]> (latency_detail t))
       (latency_num t + 1) t)
  ∧ (99999999 ≤ latency_num t → record_latency latency t = t).
Proof.
  intros Hn. unfold record_latency, MAX_DETAIL_NUM. split; intros Hlt.
  - rewrite bool_decide_eq_true_2 by lia. by rewrite wrap64_small by lia.
  - by rewrite bool_decide_eq_false_2 by lia.
Qed.

(** C1 at the failing count: when 99,999,999 latencies are stored (fewer
    than 10^8), a completed query updates the summary statistics but its
    latency is not stored: [latency_detail] and [latency_num] stay as they
    are. *)
Theorem latency_cap_off_by_one t r s :
  latency_num t = 99999999 →
  short_response r = false → unexpected r = false →
  complete_stats r (wrap64 (when r - sent r)) (stats t) = Some s →
  latency_num t < 10 ^ 8
  ∧ ∃ t', account_one t r = Some t'
          ∧ latency_num t' = latency_num t
          ∧ latency_detail t' = latency_detail t
          ∧ stats t' = s
          ∧ num_completed s = wrap64 (num_completed (stats t) + 1).
Proof.
  intros Hn Hshort Hunexp Hs. split; [lia|].
  unfold account_one. rewrite Hshort, Hunexp.
  destruct (record_latency_stores (wrap64 (when r - sent r)) t ltac:(lia))
    as [_ ->]; [|lia].
  rewrite Hs. eexists. split; [reflexivity|]. cbn. repeat split.
  unfold complete_stats in Hs.
  destruct (inc_rcode _ _); [|discriminate]. cbn in Hs.
  apply (inj Some) in Hs. by subst s.
Qed.

Lemma latency_cap_off_by_one_witness :
  latency_num (thread_near_cap ∅) < 10 ^ 8
  ∧ ∃ t', account_one (thread_near_cap ∅) answer_600us = Some t'
          ∧ latency_num t' = latency_num (thread_near_cap ∅)
          ∧ latency_detail t' = latency_detail (thread_near_cap ∅)
          ∧ stats t' = mk_stats (<[0%nat := 100000000]> (replicate 16 0))
                         99999999 0 0 100000000 2999999970 4600000000
                         60000000000 36000000000000 600 600
          ∧ num_completed
              (mk_stats (<[0%nat := 100000000]> (replicate 16 0))
                 99999999 0 0 100000000 2999999970 4600000000
                 60000000000 36000000000000 600 600)
            = wrap64 (num_completed (stats (thread_near_cap ∅)) + 1).
Proof.
  apply (latency_cap_off_by_one (thread_near_cap ∅) answer_600us);
    reflexivity.
Defined.

(** ** Moving the tail of the outstanding list to the unused list *)

Lemma wrap64_add_l a b : wrap64 (wrap64 a + b) = wrap64 (a + b).
Proof. unfold wrap64. apply Zplus_mod_idemp_l. Qed.

Lemma wrap64_range x : 0 ≤ wrap64 x < 2 ^ 64.
Proof. unfold wrap64. by apply Z.mod_pos_bound. Qed.

Lemma moved_tail t q l :
  slot_table_ok t → outstanding_queries t = l ++ [q] →
  0 ≤ q < NQIDS
  ∧ query_move t q append_unused = Some (moved t q append_unused)
  ∧ slot_table_ok (moved t q append_unused)
  ∧ outstanding_queries (moved t q append_unused) = l
  ∧ unused_queries (moved t q append_unused) = unused_queries t ++ [q]
  ∧ q ∉ l.
Proof.
  intros Hok Hout.
  assert (q ∈ outstanding_queries t) as Hin by (rewrite Hout; set_solver).
  assert (0 ≤ q < NQIDS) as Hq by (apply (slot_table_elem t q Hok); auto).
  pose proof (slot_table_NoDup t Hok) as Hnd.
  apply NoDup_app in Hnd as (Hndo & Hdisj & _).
  rewrite Hout in Hndo. apply NoDup_app in Hndo as (_ & Hl & _).
  assert (q ∉ l) as Hql.
  { intros Hx. apply (Hl q Hx). by apply list_elem_of_singleton. }
  split; [done|]. split; [by apply query_move_moved|].
  split; [by apply moved_ok|].
  rewrite outstanding_moved, unused_moved, Hout, unlink_last by done.
  rewrite unlink_absent by auto. done.
Qed.

Lemma is_sent_ext t t' x :
  timestamp <$> get_query t' x = timestamp <$> get_query t x →
  is_sent t' x = is_sent t x.
Proof. intros Hts. unfold is_sent. by rewrite Hts. Qed.

Lemma filter_is_sent_ext t t' (l : list Z) :
  (∀ x, timestamp <$> get_query t' x = timestamp <$> get_query t x) →
  filter (λ q, is_sent t' q) l = filter (λ q, is_sent t q) l.
Proof.
  intros Hts. apply list_filter_iff. intros x. by rewrite (is_sent_ext t t' x).
Qed.

(** ** Cancellation *)

Lemma cancel_queries_loop_spec fuel t :
  slot_table_ok t → (length (outstanding_queries t) < fuel)%nat →
  ∃ t', cancel_queries_loop fuel t = Some t'
    ∧ slot_table_ok t'
    ∧ outstanding_queries t' = []
    ∧ unused_queries t' = unused_queries t ++ reverse (outstanding_queries t)
    ∧ stats t'
      = Nat.iter (length (filter (λ q, is_sent t q) (outstanding_queries t)))
          inc_interrupted (stats t)
    ∧ (∀ x, timestamp <$> get_query t' x = timestamp <$> get_query t x)
    ∧ (∀ x, x ∈ outstanding_queries t → is_sent t x = true →
            desc <$> get_query t' x = Some None)
    ∧ (∀ x, ¬ (x ∈ outstanding_queries t ∧ is_sent t x = true) →
            desc <$> get_query t' x = desc <$> get_query t x).
Proof.
  revert t. induction fuel as [|fuel IH]; intros t Hok Hlen; [lia|].
  cbn [cancel_queries_loop]. unfold ISC_LIST_TAIL.
  destruct (last (outstanding_queries t)) as [q|] eqn:Hlast.
  2: { apply last_None in Hlast. exists t. rewrite Hlast, app_nil_r.
       split_and!; try done; intros x Hx; by apply elem_of_nil in Hx. }
  apply last_Some in Hlast as [l Hout].
  destruct (moved_tail t q l Hok Hout) as (Hq & -> & Hok1 & Hout1 & Hun1 & Hql).
  cbn [mbind option_bind].
  destruct (get_query_in_range t q (ok_size t Hok) Hq) as [qi Hqi].
  assert (∀ x, timestamp <$> get_query (moved t q append_unused) x
               = timestamp <$> get_query t x) as Hts1.
  { intros x. rewrite get_query_moved by lia. case_decide; [|done].
    subst x. by rewrite Hqi. }
  assert (∀ x, desc <$> get_query (moved t q append_unused) x
               = desc <$> get_query t x) as Hdesc1.
  { intros x. rewrite get_query_moved by lia. case_decide; [|done].
    subst x. by rewrite Hqi. }
  assert (get_query (moved t q append_unused) q
          = Some (with_qlist (Some unused_list) qi)) as Hqi1.
  { rewrite get_query_moved by lia. rewrite decide_True by done. by rewrite Hqi. }
  rewrite Hqi1. cbn [mbind option_bind with_qlist timestamp desc].
  rewrite Hout, filter_app, length_app, reverse_snoc.
  assert (is_sent t q = bool_decide (timestamp qi ≠ ISC_UINT64_MAX)) as Hsent.
  { unfold is_sent. rewrite Hqi. cbn. apply bool_decide_ext.
    split; [intros Hne Heq; apply Hne; by rewrite Heq|intros Hne [= Heq]; by apply Hne]. }
  case_decide as Hmax.
  - (* acquired but not sent: moved, not counted *)
    destruct (IH (moved t q append_unused) Hok1) as
      (t' & Hrun & Hok' & Hout' & Hun' & Hst' & Hts' & Hd1 & Hd2).
    { rewrite Hout1. rewrite Hout, length_app in Hlen. cbn in Hlen. lia. }
    exists t'. rewrite Hrun. split; [done|]. split; [done|]. split; [done|].
    split; [by rewrite Hun', Hun1, Hout1, <- app_assoc|].
    split.
    { rewrite Hst', Hout1, stats_moved, (filter_is_sent_ext t _ l) by done.
      rewrite filter_cons_False, filter_nil by (rewrite Hsent, Hmax; cbn; tauto).
      cbn. by rewrite Nat.add_0_r. }
    split; [intros x; by rewrite Hts', Hts1|].
    split.
    + intros x Hx Hsx. apply elem_of_app in Hx as [Hx|Hx].
      * apply Hd1; [by rewrite Hout1|]. by rewrite (is_sent_ext t).
      * apply list_elem_of_singleton in Hx. subst x.
        rewrite Hsent, Hmax in Hsx. by rewrite bool_decide_eq_false_2 in Hsx by tauto.
    + intros x Hx. rewrite Hd2, Hdesc1; [done|].
      rewrite Hout1, (is_sent_ext t) by done. intros [Hxl Hsx]. apply Hx.
      split; [|done]. apply elem_of_app. by left.
  - (* sent: counted, its description freed *)
    set (t2 := with_stats inc_interrupted (moved t q append_unused)).
    set (t3 := match desc qi with
               | Some _ => upd_query q (with_desc None) t2
               | None => t2
               end).
    assert (slot_table_ok t2) as Hok2 by by apply with_stats_ok.
    assert (get_query t2 q = Some (with_qlist (Some unused_list) qi)) as Hqi2
      by exact Hqi1.
    assert (slot_table_ok t3) as Hok3.
    { subst t3. destruct (desc qi); [|done]. apply upd_query_ok; [done|lia|done]. }
    assert (outstanding_queries t3 = l ∧ unused_queries t3 = unused_queries t ++ [q]
            ∧ stats t3 = inc_interrupted (stats t)) as (Hout3 & Hun3 & Hst3).
    { subst t3 t2. destruct (desc qi); cbn; rewrite ?stats_moved; done. }
    assert (∀ x, timestamp <$> get_query t3 x = timestamp <$> get_query t x) as Hts3.
    { intros x. rewrite <- Hts1. subst t3 t2. destruct (desc qi); [|done].
      destruct (decide (x = q)) as [->|Hne].
      - rewrite (get_query_upd_eq _ q _ _ Hqi2). by rewrite Hqi1.
      - by rewrite get_query_upd_ne by lia. }
    assert (∀ x, desc <$> get_query t3 x
                 = if decide (x = q) then Some None else desc <$> get_query t x)
      as Hdesc3.
    { intros x. subst t3 t2. case_decide as Hx.
      - subst x. destruct (desc qi) eqn:Hd.
        + by rewrite (get_query_upd_eq _ q _ _ Hqi2).
        + rewrite Hqi2. cbn. by rewrite Hd.
      - rewrite <- Hdesc1. destruct (desc qi); [|done].
        by rewrite get_query_upd_ne by lia. }
    destruct (IH t3 Hok3) as
      (t' & Hrun & Hok' & Hout' & Hun' & Hst' & Hts' & Hd1 & Hd2).
    { rewrite Hout3. rewrite Hout, length_app in Hlen. cbn in Hlen. lia. }
    exists t'. rewrite Hrun. split; [done|]. split; [done|]. split; [done|].
    split; [by rewrite Hun', Hun3, Hout3, <- app_assoc|].
    split.
    { rewrite Hst', Hout3, Hst3, (filter_is_sent_ext t _ l) by done.
      rewrite filter_cons_True, filter_nil
        by (rewrite Hsent; by apply bool_decide_pack).
      cbn [length]. rewrite Nat.add_1_r. by rewrite Nat.iter_succ_r. }
    split; [intros x; by rewrite Hts', Hts3|].
    split.
    + intros x Hx Hsx. apply elem_of_app in Hx as [Hx|Hx].
      * apply Hd1; [by rewrite Hout3|]. by rewrite (is_sent_ext t).
      * apply list_elem_of_singleton in Hx. subst x.
        rewrite Hd2, Hdesc3; [by rewrite decide_True|].
        rewrite Hout3. tauto.
    + intros x Hx. rewrite Hd2, Hdesc3.
      * rewrite decide_False; [done|]. intros ->. apply Hx.
        split; [apply elem_of_app; right; by apply list_elem_of_singleton|].
        rewrite Hsent. by apply bool_decide_eq_true_2.
      * rewrite Hout3, (is_sent_ext t) by done. intros [Hxl Hsx]. apply Hx.
        split; [|done]. apply elem_of_app. by left.
Qed.

(** ** The timeout sweep on a table that satisfies I1 *)

Lemma same_payload_trans t1 t2 t3 :
  same_payload t1 t2 → same_payload t2 t3 → same_payload t1 t3.
Proof. intros H12 H23 x. by rewrite H23, H12. Qed.

Lemma same_payload_timestamp t t' x :
  same_payload t t' → timestamp <$> get_query t' x = timestamp <$> get_query t x.
Proof.
  intros Hsame. specialize (Hsame x).
  destruct (get_query t' x), (get_query t x); cbn in *; congruence.
Qed.

Lemma same_payload_moved t q op : 0 ≤ q → same_payload t (moved t q op).
Proof.
  intros Hq x. rewrite get_query_moved by done. case_decide; [|done].
  subst x. by destruct (get_query t q).
Qed.

Section sweep.

Context (config : config_t) (now : Z).

Lemma expired_next_ext t t' x :
  same_payload t t' → expired_next config now t' x = expired_next config now t x.
Proof.
  intros Hsame. pose proof (same_payload_timestamp t t' x Hsame) as Hts.
  unfold expired_next, timeout_next.
  destruct (get_query t' x), (get_query t x); cbn in *; try congruence.
  injection Hts as ->. done.
Qed.

Lemma run_while_ext_in p1 p2 l :
  (∀ x, x ∈ l → p1 x = p2 x) → run_while p1 l = run_while p2 l.
Proof.
  induction l as [|x l IH]; intros Hp; [done|]. cbn.
  rewrite (Hp x) by (by left). rewrite IH; [done|].
  intros y Hy. apply Hp. by right.
Qed.

Lemma run_while_ext p1 p2 l :
  (∀ x, p1 x = p2 x) → run_while p1 l = run_while p2 l.
Proof. intros Hp. apply run_while_ext_in. auto. Qed.

Lemma process_timeouts_loop_spec fuel t q l :
  slot_table_ok t → outstanding_queries t = l ++ [q] →
  (length l < fuel)%nat →
  let run := q :: run_while (expired_next config now t) (reverse l) in
  ∃ t', process_timeouts_loop fuel config t q now = Some t'
    ∧ slot_table_ok t'
    ∧ outstanding_queries t = outstanding_queries t' ++ reverse run
    ∧ unused_queries t' = unused_queries t ++ run
    ∧ stats t' = Nat.iter (length run) inc_timedout (stats t)
    ∧ same_payload t t'.
Proof.
  revert t q l. induction fuel as [|fuel IH]; intros t q l Hok Hout Hlen; [lia|].
  cbn zeta. cbn [process_timeouts_loop].
  destruct (moved_tail t q l Hok Hout) as (Hq & -> & Hok1 & Hout1 & Hun1 & Hql).
  cbn [mbind option_bind].
  set (t2 := with_stats inc_timedout (moved t q append_unused)).
  assert (slot_table_ok t2) as Hok2 by by apply with_stats_ok.
  assert (same_payload t t2) as Hsame2 by (apply same_payload_moved; lia).
  assert (outstanding_queries t2 = l) as Hout2 by exact Hout1.
  assert (unused_queries t2 = unused_queries t ++ [q]) as Hun2 by exact Hun1.
  assert (stats t2 = inc_timedout (stats t)) as Hst2.
  { rewrite <- (stats_moved t q append_unused). reflexivity. }
  rewrite Hout2. unfold ISC_LIST_TAIL.
  destruct (last l) as [q'|] eqn:Hlast.
  2: { apply last_None in Hlast. rewrite Hlast in *. exists t2.
       split; [done|]. split; [done|].
       split; [by rewrite Hout, Hout2|]. split; [exact Hun2|].
       split; [exact Hst2|done]. }
  apply last_Some in Hlast as [l' ->]. rewrite reverse_snoc.
  assert (0 ≤ q' < NQIDS) as Hq'.
  { apply (slot_table_elem t2 q' Hok2). left. rewrite Hout2.
    apply elem_of_app. right. by apply list_elem_of_singleton. }
  assert (get_query t2 q' = get_query t q') as Hget.
  { change (get_query t2 q') with (get_query (moved t q append_unused) q').
    rewrite get_query_moved by lia. rewrite decide_False; [done|].
    intros ->. apply Hql. apply elem_of_app. right. by apply list_elem_of_singleton. }
  destruct (get_query_in_range t q' (ok_size t Hok) Hq') as [qi' Hqi'].
  rewrite Hget, Hqi'. cbn [mbind option_bind run_while].
  assert (expired_next config now t q' = timeout_next config now qi') as ->.
  { unfold expired_next. by rewrite Hqi'. }
  destruct (timeout_next config now qi') eqn:Hnext.
  - destruct (IH t2 q' l' Hok2 Hout2) as
      (t' & Hrun & Hok' & Hout' & Hun' & Hst' & Hsame').
    { rewrite length_app in Hlen. cbn in Hlen. lia. }
    cbn zeta in *. exists t'. rewrite Hrun.
    rewrite (run_while_ext _ (expired_next config now t)) in Hout', Hun', Hst'
      by (intros x; by apply expired_next_ext).
    split; [done|]. split; [done|].
    split.
    { rewrite Hout. rewrite Hout2 in Hout'. rewrite Hout', (reverse_cons _ q).
      by rewrite app_assoc. }
    split; [by rewrite Hun', Hun2, <- app_assoc|].
    split.
    { rewrite Hst', Hst2. cbn [length]. by rewrite <- Nat.iter_succ_r. }
    by apply (same_payload_trans t t2 t').
  - exists t2.
    split; [done|]. split; [done|].
    split; [by rewrite Hout, Hout2|].
    split; [exact Hun2|]. split; [exact Hst2|done].
Qed.

Lemma process_timeouts_spec t :
  slot_table_ok t →
  ∃ t', process_timeouts config t now = Some t'
    ∧ slot_table_ok t'
    ∧ outstanding_queries t
      = outstanding_queries t' ++ reverse (swept config now t)
    ∧ unused_queries t' = unused_queries t ++ swept config now t
    ∧ stats t' = Nat.iter (length (swept config now t)) inc_timedout (stats t)
    ∧ same_payload t t'.
Proof.
  intros Hok. unfold process_timeouts, swept, ISC_LIST_TAIL.
  destruct (last (outstanding_queries t)) as [q|] eqn:Hlast.
  2: { apply last_None in Hlast. rewrite Hlast. exists t. cbn.
       rewrite !app_nil_r. split_and!; done. }
  apply last_Some in Hlast as [l Hout]. rewrite Hout, reverse_snoc.
  unfold expired_first.
  assert (0 ≤ q < NQIDS) as Hq.
  { apply (slot_table_elem t q Hok). left. rewrite Hout.
    apply elem_of_app. right. by apply list_elem_of_singleton. }
  destruct (get_query_in_range t q (ok_size t Hok) Hq) as [qi ->].
  cbn [mbind option_bind].
  destruct (timeout_first config now qi).
  - rewrite <- Hout.
    apply (process_timeouts_loop_spec _ t q l Hok Hout).
    rewrite Hout, length_app. cbn. lia.
  - exists t. cbn. rewrite !app_nil_r. split_and!; done.
Qed.

(** Where the sweep agrees with the condition of the spec. *)
Lemma timeout_first_timed_out t q qi :
  get_query t q = Some qi →
  0 < timeout config → 0 ≤ now < 2 ^ 64 → 0 ≤ timestamp qi < 2 ^ 64 →
  timeout_first config now qi = timed_out config now t q.
Proof.
  intros Hqi Hto Hnow Hts. unfold timeout_first, timed_out, slot_time.
  rewrite Hqi. cbn. unfold ISC_UINT64_MAX.
  destruct (decide (timestamp qi > now)) as [Hgt|Hle].
  - rewrite (bool_decide_eq_true_2 (timestamp qi > now)) by done.
    rewrite (bool_decide_eq_false_2 (now - timestamp qi >= timeout config)) by lia.
    by rewrite andb_false_r.
  - rewrite (bool_decide_eq_false_2 (timestamp qi > now)) by done.
    rewrite wrap64_small by lia. cbn.
    destruct (decide (now - timestamp qi >= timeout config)).
    + rewrite (bool_decide_eq_false_2 (_ < _)) by lia.
      rewrite !bool_decide_eq_true_2 by lia. done.
    + rewrite (bool_decide_eq_true_2 (_ < _)) by lia.
      rewrite (bool_decide_eq_false_2 (_ >= _)) by lia. by rewrite andb_false_r.
Qed.

Lemma timeout_next_timed_out t q qi :
  get_query t q = Some qi →
  0 < timeout config → 0 ≤ now < 2 ^ 64 → 0 ≤ timestamp qi < 2 ^ 64 →
  timeout_next config now qi = timed_out config now t q.
Proof.
  intros Hqi Hto Hnow Hts. unfold timeout_next, timed_out, slot_time.
  rewrite Hqi. cbn. unfold ISC_UINT64_MAX.
  destruct (decide (timestamp qi < now)) as [Hlt|Hge].
  - rewrite (bool_decide_eq_true_2 (timestamp qi < now)) by done.
    rewrite wrap64_small by lia.
    rewrite (bool_decide_eq_true_2 (_ ≠ _)) by lia. done.
  - rewrite (bool_decide_eq_false_2 (timestamp qi < now)) by done.
    rewrite (bool_decide_eq_false_2 (now - timestamp qi >= timeout config)) by lia.
    by rewrite andb_false_r.
Qed.

Lemma filter_none (p : Z → bool) (l : list Z) :
  (∀ y, y ∈ l → p y = false) → filter (λ y, p y) l = [].
Proof.
  induction l as [|x l IH]; intros Hall; [done|].
  rewrite filter_cons_False.
  - apply IH. intros y Hy. apply Hall. by right.
  - rewrite (Hall x) by (by left). cbn. tauto.
Qed.

(** On a sorted list a run from the front is a filter. *)
Lemma run_while_sorted (R : Z → Z → Prop) (p : Z → bool) (l : list Z) :
  StronglySorted R l →
  (∀ x y, R x y → p y = true → p x = true) →
  run_while p l = filter (λ x, p x) l
  ∧ l = filter (λ x, p x) l ++ filter (λ x, ¬ p x) l.
Proof.
  intros Hsorted Hclosed. induction Hsorted as [|x l Hsorted IH Hall]; [done|].
  destruct IH as [IH1 IH2]. cbn [run_while].
  destruct (p x) eqn:Hpx.
  - rewrite filter_cons_True by by rewrite Hpx.
    rewrite (filter_cons_False (λ y, ¬ p y)) by (rewrite Hpx; cbn; tauto).
    rewrite IH1. split; [done|]. cbn. by rewrite <- IH2.
  - assert (filter (λ y, p y) l = []) as Hnone.
    { apply filter_none. intros y Hy. destruct (p y) eqn:Hpy; [|done].
      rewrite List.Forall_forall in Hall. apply list_elem_of_In in Hy.
      rewrite (Hclosed x y (Hall y Hy) Hpy) in Hpx. discriminate. }
    rewrite filter_cons_False by (rewrite Hpx; cbn; tauto).
    rewrite (filter_cons_True (λ y, ¬ p y)) by (rewrite Hpx; cbn; tauto).
    rewrite Hnone. split; [done|]. cbn. f_equal.
    rewrite Hnone in IH2. exact IH2.
Qed.

Lemma iter_inc_timedout n s :
  0 ≤ num_timedout s < 2 ^ 64 →
  num_timedout (Nat.iter n inc_timedout s) = wrap64 (num_timedout s + Z.of_nat n).
Proof.
  intros Hs. induction n as [|n IH].
  - cbn. rewrite Z.add_0_r. by rewrite wrap64_small.
  - cbn [Nat.iter nat_rect]. cbn [inc_timedout num_timedout].
    fold (Nat.iter n inc_timedout s). rewrite IH, wrap64_add_l. f_equal. lia.
Qed.

Lemma iter_inc_interrupted n s :
  0 ≤ num_interrupted s < 2 ^ 64 →
  num_interrupted (Nat.iter n inc_interrupted s)
  = wrap64 (num_interrupted s + Z.of_nat n).
Proof.
  intros Hs. induction n as [|n IH].
  - cbn. rewrite Z.add_0_r. by rewrite wrap64_small.
  - cbn [Nat.iter nat_rect]. cbn [inc_interrupted num_interrupted].
    fold (Nat.iter n inc_interrupted s). rewrite IH, wrap64_add_l. f_equal. lia.
Qed.

Lemma timed_out_closed t x y :
  0 < timeout config → 0 ≤ now < 2 ^ 64 →
  slot_time t x ≤ slot_time t y →
  timed_out config now t y = true → timed_out config now t x = true.
Proof.
  intros Hto Hnow Hxy. unfold timed_out, ISC_UINT64_MAX.
  rewrite !andb_true_iff, !bool_decide_eq_true. lia.
Qed.

(** In send order, with a positive timeout, the sweep reclaims the slots
    that meet the condition of the spec and no others. *)
Lemma swept_in_send_order t :
  slot_table_ok t → in_send_order t →
  0 < timeout config → 0 ≤ now < 2 ^ 64 →
  (∀ q, q ∈ outstanding_queries t → 0 ≤ slot_time t q < 2 ^ 64) →
  swept config now t
  = reverse (filter (λ q, timed_out config now t q) (outstanding_queries t))
  ∧ outstanding_queries t
    = filter (λ q, ¬ timed_out config now t q) (outstanding_queries t)
      ++ filter (λ q, timed_out config now t q) (outstanding_queries t).
Proof.
  intros Hok Hsorted Hto Hnow Hrange.
  assert (∀ q, q ∈ reverse (outstanding_queries t) →
               ∃ qi, get_query t q = Some qi ∧ 0 ≤ timestamp qi < 2 ^ 64) as Hslot.
  { intros q Hq. rewrite elem_of_reverse in Hq.
    assert (0 ≤ q < NQIDS) as Hqr by (apply (slot_table_elem t q Hok); auto).
    destruct (get_query_in_range t q (ok_size t Hok) Hqr) as [qi Hqi].
    exists qi. split; [done|]. specialize (Hrange q Hq).
    unfold slot_time in Hrange. by rewrite Hqi in Hrange. }
  assert (swept config now t
          = run_while (timed_out config now t) (reverse (outstanding_queries t)))
    as Hswept.
  { unfold swept. destruct (reverse (outstanding_queries t)) as [|q l]; [done|].
    cbn [run_while].
    destruct (Hslot q) as (qi & Hqi & Hts); [by left|].
    unfold expired_first. rewrite Hqi.
    rewrite (timeout_first_timed_out t q qi) by done.
    destruct (timed_out config now t q); [|done]. f_equal.
    apply run_while_ext_in. intros x Hx.
    destruct (Hslot x) as (xi & Hxi & Hxts); [by right|].
    unfold expired_next. rewrite Hxi.
    by apply timeout_next_timed_out. }
  destruct (run_while_sorted _ (timed_out config now t) _ Hsorted) as [Hrun Hsplit].
  { intros x y Hxy. by apply timed_out_closed. }
  rewrite Hswept, Hrun, filter_reverse. split; [done|].
  rewrite <- (reverse_involutive (outstanding_queries t)) at 1.
  rewrite Hsplit at 1. by rewrite reverse_app, !filter_reverse, !reverse_involutive.
Qed.

End sweep.

(** C8, as the code has it: when the outstanding list is in send order and
    the timeout is positive, a sweep at time [now] reclaims a query exactly
    when the slot is on the outstanding list, its timestamp is not the
    sentinel and [now - timestamp >= config.timeout]; the reclaimed slots
    are appended to the unused list, oldest first, [num_timedout] grows by
    their number, and every other slot stays on the outstanding list, in
    its place. *)
Theorem timeout_sweep_in_send_order config now t :
  slot_table_ok t → in_send_order t →
  0 < timeout config → 0 ≤ now < 2 ^ 64 →
  (∀ q, q ∈ outstanding_queries t → 0 ≤ slot_time t q < 2 ^ 64) →
  0 ≤ num_timedout (stats t) < 2 ^ 64 →
  ∃ t', process_timeouts config t now = Some t'
    ∧ (∀ q, q ∈ outstanding_queries t →
         (q ∈ unused_queries t' ↔ timed_out config now t q = true)
         ∧ (q ∈ outstanding_queries t' ↔ timed_out config now t q = false))
    ∧ outstanding_queries t'
      = filter (λ q, ¬ timed_out config now t q) (outstanding_queries t)
    ∧ unused_queries t'
      = unused_queries t
        ++ reverse (filter (λ q, timed_out config now t q) (outstanding_queries t))
    ∧ num_timedout (stats t')
      = wrap64 (num_timedout (stats t)
                + Z.of_nat (length (filter (λ q, timed_out config now t q)
                                      (outstanding_queries t))))
    ∧ slot_table_ok t'.
Proof.
  intros Hok Hsorted Hto Hnow Hrange Hcount.
  destruct (process_timeouts_spec config now t Hok) as
    (t' & Hrun & Hok' & Hout & Hun & Hst & _).
  destruct (swept_in_send_order config now t Hok Hsorted Hto Hnow Hrange)
    as [Hswept Hsplit].
  rewrite Hswept in Hout, Hun, Hst. rewrite reverse_involutive in Hout.
  rewrite length_reverse in Hst.
  assert (outstanding_queries t'
          = filter (λ q, ¬ timed_out config now t q) (outstanding_queries t))
    as Hout'.
  { rewrite Hsplit in Hout at 1. by apply app_inv_tail in Hout. }
  exists t'. split; [done|]. split.
  { intros q Hq. split.
    - rewrite Hun, elem_of_app, elem_of_reverse, list_elem_of_filter.
      pose proof (slot_table_NoDup t Hok) as Hnd.
      apply NoDup_app in Hnd as (_ & Hdisj & _). specialize (Hdisj q Hq).
      rewrite Is_true_true. tauto.
    - rewrite Hout', list_elem_of_filter, Is_true_true.
      destruct (timed_out config now t q); split; try done; tauto. }
  split; [done|]. split; [done|]. split; [|done].
  rewrite Hst. by apply iter_inc_timedout.
Qed.

Lemma timeout_sweep_in_send_order_witness :
  ∃ t', process_timeouts default_config (thread_two_sent 1000000 3000000) 7000000
        = Some t'
    ∧ outstanding_queries t' = [1]
    ∧ num_timedout (stats t') = 1.
Proof.
  destruct (timeout_sweep_in_send_order default_config 7000000
              (thread_two_sent 1000000 3000000))
    as (t' & Hrun & _ & Hout & _ & Hcount & _).
  - apply thread_two_sent_ok.
  - unfold in_send_order.
    assert (reverse (outstanding_queries (thread_two_sent 1000000 3000000)) = [0; 1])
      as -> by (vm_compute; reflexivity).
    repeat constructor. vm_compute. discriminate.
  - reflexivity.
  - split; [discriminate|reflexivity].
  - assert (outstanding_queries (thread_two_sent 1000000 3000000) = [1; 0])
      as -> by (vm_compute; reflexivity).
    intros q Hq. apply elem_of_cons in Hq as [->|Hq];
      [|apply list_elem_of_singleton in Hq; subst q];
      vm_compute; split; [discriminate|reflexivity|discriminate|reflexivity].
  - vm_compute. split; [discriminate|reflexivity].
  - exists t'. split; [exact Hrun|]. split.
    + rewrite Hout. vm_compute. reflexivity.
    + rewrite Hcount. vm_compute. reflexivity.
Defined.

(** C8 as stated fails, in two ways.  First, the sweep stops at the first
    slot from the tail that has not timed out: after the clock stepped
    back between two sends (slot 0 stamped 10,000,000, then slot 1 stamped
    7,000,000), at time 13,000,000 with the default timeout of 5,000,000
    slot 1 is outstanding, not the sentinel and 6,000,000 old, yet it
    stays outstanding because the tail, slot 0, is only 3,000,000 old.
    Second, with a timeout of zero the loop test wants
    [timestamp < now] where the first test accepts [timestamp <= now]:
    slots 0 and 1 stamped 5 and 10 are both timed out at time 10, but only
    slot 0 is reclaimed. *)
Lemma timeout_sweep_counterexample :
  (let t := thread_two_sent 10000000 7000000 in
   timed_out default_config 13000000 t 1 = true
   ∧ ∃ t', process_timeouts default_config t 13000000 = Some t'
           ∧ outstanding_queries t' = [1; 0]
           ∧ (1 ∉ unused_queries t')
           ∧ num_timedout (stats t') = 0)
  ∧ (let t := thread_two_sent 5 10 in
     timed_out config_zero_timeout 10 t 1 = true
     ∧ ∃ t', process_timeouts config_zero_timeout t 10 = Some t'
             ∧ outstanding_queries t' = [1]
             ∧ (1 ∉ unused_queries t')
             ∧ num_timedout (stats t') = 1).
Proof.
  split; cbv zeta.
  - split; [vm_compute; reflexivity|].
    destruct (process_timeouts_spec default_config 13000000
                (thread_two_sent 10000000 7000000) (thread_two_sent_ok _ _))
      as (t' & Hrun & Hok' & Hout & Hun & Hst & _).
    assert (swept default_config 13000000 (thread_two_sent 10000000 7000000) = [])
      as Hswept by (vm_compute; reflexivity).
    rewrite Hswept in Hout, Hun, Hst.
    rewrite reverse_nil, app_nil_r in Hout. rewrite app_nil_r in Hun.
    assert (outstanding_queries (thread_two_sent 10000000 7000000) = [1; 0])
      as Hout0 by (vm_compute; reflexivity).
    exists t'. split; [done|]. split; [by rewrite <- Hout|]. split.
    + pose proof (slot_table_NoDup _ Hok') as Hnd.
      apply NoDup_app in Hnd as (_ & Hdisj & _). apply Hdisj.
      rewrite <- Hout, Hout0. by left.
    + rewrite Hst. vm_compute. reflexivity.
  - split; [vm_compute; reflexivity|].
    destruct (process_timeouts_spec config_zero_timeout 10
                (thread_two_sent 5 10) (thread_two_sent_ok _ _))
      as (t' & Hrun & Hok' & Hout & Hun & Hst & _).
    assert (swept config_zero_timeout 10 (thread_two_sent 5 10) = [0])
      as Hswept by (vm_compute; reflexivity).
    rewrite Hswept in Hout, Hun, Hst. rewrite reverse_singleton in Hout.
    assert (outstanding_queries (thread_two_sent 5 10) = [1; 0])
      as Hout0 by (vm_compute; reflexivity).
    rewrite Hout0 in Hout.
    assert (outstanding_queries t' = [1]) as Hout'.
    { change [1; 0] with ([1] ++ [0]) in Hout. by apply app_inv_tail in Hout. }
    exists t'. split; [done|]. split; [done|]. split.
    + pose proof (slot_table_NoDup _ Hok') as Hnd.
      apply NoDup_app in Hnd as (_ & Hdisj & _). apply Hdisj.
      rewrite Hout'. by left.
    + rewrite Hst. vm_compute. reflexivity.
Qed.

(** C5, as the code has it: [cancel_queries], which [threadinfo_cleanup]
    runs after an interrupt, moves every slot of the outstanding list to
    the tail of the unused list, oldest first; [num_interrupted] grows by
    the number of those slots whose timestamp is not the acquired-but-unsent
    sentinel, and these have their [desc] freed; a slot that carries the
    sentinel is moved but not counted, and its [desc] is left alone. *)
Theorem cancel_queries_interrupted t times :
  slot_table_ok t → 0 ≤ num_interrupted (stats t) < 2 ^ 64 →
  ∃ t', cancel_queries t = Some t'
    ∧ fst <$> threadinfo_cleanup true t times = Some t'
    ∧ outstanding_queries t' = []
    ∧ unused_queries t' = unused_queries t ++ reverse (outstanding_queries t)
    ∧ num_interrupted (stats t')
      = wrap64 (num_interrupted (stats t)
                + Z.of_nat (length (filter (λ q, is_sent t q) (outstanding_queries t))))
    ∧ (∀ q, q ∈ outstanding_queries t → is_sent t q = true →
            desc <$> get_query t' q = Some None)
    ∧ (∀ q, q ∈ outstanding_queries t → is_sent t q = false →
            desc <$> get_query t' q = desc <$> get_query t q)
    ∧ slot_table_ok t'.
Proof.
  intros Hok Hcount.
  destruct (cancel_queries_loop_spec (S (length (outstanding_queries t))) t Hok)
    as (t' & Hrun & Hok' & Hout & Hun & Hst & _ & Hd1 & Hd2); [lia|].
  exists t'. unfold threadinfo_cleanup, cancel_queries. rewrite Hrun.
  split; [done|]. split; [done|]. split; [done|]. split; [done|].
  split; [rewrite Hst; by apply iter_inc_interrupted|].
  split; [done|]. split; [|done].
  intros q Hq Hsent. apply Hd2. rewrite Hsent. intros [_ ?]. discriminate.
Qed.

Lemma cancel_queries_interrupted_witness :
  ∃ t', cancel_queries thread_sent_and_unsent = Some t'
    ∧ outstanding_queries t' = []
    ∧ num_interrupted (stats t') = 1.
Proof.
  destruct (cancel_queries_interrupted thread_sent_and_unsent (mk_times 0 0 0))
    as (t' & Hrun & _ & Hout & _ & Hcount & _).
  - apply thread_sent_and_unsent_ok.
  - vm_compute. split; [discriminate|reflexivity].
  - exists t'. split; [exact Hrun|]. split; [exact Hout|].
    rewrite Hcount. vm_compute. reflexivity.
Defined.

(** C5 as stated fails: the sender acquired slot 0 and left its loop
    before sending (the data file gave nothing more), so one slot is
    outstanding when [cancel_queries] runs; the slot is moved to the unused
    list but [num_interrupted] stays 0 instead of growing by one. *)
Lemma cancel_queries_unsent_counterexample :
  outstanding_queries thread_unsent = [0]
  ∧ ∃ t', cancel_queries thread_unsent = Some t'
          ∧ outstanding_queries t' = []
          ∧ num_interrupted (stats thread_unsent) = 0
          ∧ num_interrupted (stats t') = 0
          ∧ num_interrupted (stats t')
            ≠ num_interrupted (stats thread_unsent)
              + Z.of_nat (length (outstanding_queries thread_unsent)).
Proof.
  split; [vm_compute; reflexivity|].
  destruct (cancel_queries_loop_spec
              (S (length (outstanding_queries thread_unsent))) thread_unsent
              thread_unsent_ok)
    as (t' & Hrun & _ & Hout & _ & Hst & _); [lia|].
  exists t'. split; [exact Hrun|]. split; [exact Hout|].
  rewrite Hst. vm_compute. repeat split. discriminate.
Qed.

(** ** Sender: acquiring and releasing a slot *)

(** The turn returns here, with the state at hand. *)
Ltac returns_here :=
  eexists _, _, _; split; [reflexivity|]; cbn [ss_tinfo].

Lemma acquire_head t q rest :
  slot_table_ok t → unused_queries t = q :: rest →
  0 ≤ q < NQIDS
  ∧ query_move t q prepend_outstanding = Some (moved t q prepend_outstanding)
  ∧ slot_table_ok (moved t q prepend_outstanding)
  ∧ outstanding_queries (moved t q prepend_outstanding) = q :: outstanding_queries t
  ∧ unused_queries (moved t q prepend_outstanding) = rest.
Proof.
  intros Hok Hun.
  assert (q ∈ unused_queries t) as Hin by (rewrite Hun; by left).
  assert (0 ≤ q < NQIDS) as Hq by (apply (slot_table_elem t q Hok); auto).
  pose proof (slot_table_NoDup t Hok) as Hnd.
  apply NoDup_app in Hnd as (_ & Hdisj & Hndu).
  rewrite Hun in Hndu. apply NoDup_cons in Hndu as [Hqr _].
  split; [done|]. split; [by apply query_move_moved|].
  split; [by apply moved_ok|].
  rewrite outstanding_moved, unused_moved, Hun, unlink_head by done.
  rewrite unlink_absent; [done|]. intros Hout. by apply (Hdisj q Hout).
Qed.

Lemma release_head t q out :
  slot_table_ok t → outstanding_queries t = q :: out →
  query_move t q prepend_unused = Some (moved t q prepend_unused)
  ∧ slot_table_ok (moved t q prepend_unused)
  ∧ unused_queries (moved t q prepend_unused) = q :: unused_queries t
  ∧ outstanding_queries (moved t q prepend_unused) = out.
Proof.
  intros Hok Hout.
  assert (q ∈ outstanding_queries t) as Hin by (rewrite Hout; by left).
  assert (0 ≤ q < NQIDS) as Hq by (apply (slot_table_elem t q Hok); auto).
  pose proof (slot_table_NoDup t Hok) as Hnd.
  apply NoDup_app in Hnd as (Hndo & Hdisj & _).
  rewrite Hout in Hndo. apply NoDup_cons in Hndo as [Hqo _].
  split; [by apply query_move_moved|]. split; [by apply moved_ok|].
  rewrite outstanding_moved, unused_moved, Hout, unlink_head by done.
  rewrite unlink_absent; [done|]. by apply Hdisj.
Qed.

Lemma select_socket_none ready nsocks i k cur any s :
  (∀ j, ready j = sock_not_ready ∨ ready j = sock_in_progress) →
  (0 < i)%nat ∨ s = None →
  (select_socket ready nsocks i k cur any s).1.1 = None.
Proof.
  intros Hready. revert k cur any s.
  induction i as [|i IH]; intros k cur any s Hi.
  - destruct Hi as [Hi| ->]; [lia|done].
  - cbn [select_socket].
    destruct (Hready k) as [-> | ->]; apply IH; by right.
Qed.

Lemma do_send_packet_spec env t q s len now any out :
  slot_table_ok t → outstanding_queries t = q :: out →
  ∃ st evs,
    do_send_packet env t q s len now any = Some (st, send_again, evs)
    ∧ slot_table_ok (ss_tinfo st)
    ∧ ((unused_queries (ss_tinfo st) = q :: unused_queries t
        ∧ outstanding_queries (ss_tinfo st) = out)
       ∨ (unused_queries (ss_tinfo st) = unused_queries t
          ∧ outstanding_queries (ss_tinfo st) = q :: out))
    ∧ ((sendto_n env < 0 ∧ sendto_errno env ≠ EINPROGRESS)
       ∨ (0 ≤ sendto_n env ∧ wrap32 (sendto_n env) ≠ len) →
       unused_queries (ss_tinfo st) = q :: unused_queries t
       ∧ outstanding_queries (ss_tinfo st) = out).
Proof.
  intros Hok Hout.
  destruct (release_head t q out Hok Hout) as (Hmove & Hok' & Hun' & Hout').
  unfold do_send_packet. rewrite Hmove. cbn [mbind option_bind].
  case_bool_decide as Hneg; [destruct (decide (sendto_errno env = EINPROGRESS))|
                             case_bool_decide as Hpart].
  - eexists _, _. split; [reflexivity|]. cbn [ss_tinfo].
    split; [by apply with_stats_ok|]. split; [by right|].
    intros [[_ Hne]|[Hge _]]; [done|lia].
  - eexists _, _. split; [reflexivity|]. cbn [ss_tinfo].
    split; [done|]. split; [by left|done].
  - eexists _, _. split; [reflexivity|]. cbn [ss_tinfo].
    split; [done|]. split; [by left|done].
  - eexists _, _. split; [reflexivity|]. cbn [ss_tinfo].
    split; [by apply with_stats_ok|]. split; [by right|].
    intros [[Hlt _]|[_ Hne]]; [lia|done].
Qed.

Lemma do_send_query_spec config env t now any q rest :
  slot_table_ok t → unused_queries t = q :: rest →
  num_outstanding (stats t) < max_outstanding t →
  ∃ st out evs,
    do_send_query config env t now any = Some (st, out, evs)
    ∧ slot_table_ok (ss_tinfo st)
    ∧ ((unused_queries (ss_tinfo st) = q :: rest
        ∧ outstanding_queries (ss_tinfo st) = outstanding_queries t)
       ∨ (unused_queries (ss_tinfo st) = rest
          ∧ outstanding_queries (ss_tinfo st) = q :: outstanding_queries t))
    ∧ (0 < nsocks t →
       (∀ j, sockready env j = sock_not_ready ∨ sockready env j = sock_in_progress) →
       unused_queries (ss_tinfo st) = q :: rest
       ∧ outstanding_queries (ss_tinfo st) = outstanding_queries t)
    ∧ (∀ line, datafile_next env = datafile_ok line →
       buildrequest env = build_failed →
       unused_queries (ss_tinfo st) = q :: rest
       ∧ outstanding_queries (ss_tinfo st) = outstanding_queries t)
    ∧ (∀ line len, datafile_next env = datafile_ok line →
       buildrequest env = build_ok len →
       (sendto_n env < 0 ∧ sendto_errno env ≠ EINPROGRESS)
       ∨ (0 ≤ sendto_n env ∧ wrap32 (sendto_n env) ≠ len) →
       unused_queries (ss_tinfo st) = q :: rest
       ∧ outstanding_queries (ss_tinfo st) = outstanding_queries t).
Proof.
  intros Hok Hun Hcap. unfold do_send_query.
  rewrite bool_decide_eq_false_2 by lia. rewrite Hun. cbn [ISC_LIST_HEAD head].
  cbn [mbind option_bind].
  destruct (acquire_head t q rest Hok Hun) as (Hq & -> & Hok1 & Hout1 & Hun1).
  cbn [mbind option_bind].
  set (t2 := upd_query q (with_timestamp ISC_UINT64_MAX)
               (moved t q prepend_outstanding)).
  assert (slot_table_ok t2) as Hok2 by (apply upd_query_ok; [done|lia|done]).
  destruct (get_query_in_range t2 q (ok_size t2 Hok2) Hq) as [qi2 ->].
  cbn [mbind option_bind].
  destruct (select_socket (sockready env) (nsocks t2) (Z.to_nat (nsocks t2 * 2)) 0
              (current_sock t2) any (sock qi2)) as [[s cur] any'] eqn:Hsel.
  set (t3 := with_current_sock cur (upd_query q (with_sock s) t2)).
  assert (slot_table_ok t3) as Hok3.
  { apply with_current_sock_ok. apply upd_query_ok; [done|lia|done]. }
  assert (outstanding_queries t3 = q :: outstanding_queries t) as Hout3 by exact Hout1.
  assert (unused_queries t3 = rest) as Hun3 by exact Hun1.
  destruct (release_head t3 q _ Hok3 Hout3) as (Hrel & Hokr & Hunr & Houtr).
  rewrite Hun3 in Hunr.
  destruct s as [sk|].
  - (* a socket was selected *)
    assert (0 < nsocks t →
            (∀ j, sockready env j = sock_not_ready
                  ∨ sockready env j = sock_in_progress) → False) as Hsome.
    { intros Hns Hready.
      assert (0 < Z.to_nat (nsocks t2 * 2))%nat as Hi.
      { change (nsocks t2) with (nsocks t). lia. }
      pose proof (select_socket_none (sockready env) (nsocks t2)
                    (Z.to_nat (nsocks t2 * 2)) 0 (current_sock t2) any (sock qi2)
                    Hready (or_introl Hi)) as Hnone.
      rewrite Hsel in Hnone. discriminate Hnone. }
    destruct (datafile_next env) as [line| |] eqn:Hdata.
    + destruct (buildrequest env) as [len|] eqn:Hbuild.
      * set (t4 := if verbose config
                   then upd_query q (with_desc (Some line)) t3 else t3).
        set (t5 := upd_query q (with_timestamp (clock_next env)) t4).
        assert (slot_table_ok t4) as Hok4.
        { subst t4. destruct (verbose config); [|done].
          apply upd_query_ok; [done|lia|done]. }
        assert (slot_table_ok t5) as Hok5 by (apply upd_query_ok; [done|lia|done]).
        assert (outstanding_queries t5 = q :: outstanding_queries t) as Hout5.
        { subst t5 t4. by destruct (verbose config). }
        assert (unused_queries t5 = rest) as Hun5.
        { subst t5 t4. by destruct (verbose config). }
        destruct (do_send_packet_spec env t5 q sk len (clock_next env) any' _
                    Hok5 Hout5) as (st & evs & Hrun & Hokst & Hcases & Hfail).
        rewrite Hun5 in Hcases, Hfail.
        exists st, send_again, evs. split; [done|]. split; [done|].
        split; [done|]. split; [intros; exfalso; by apply Hsome|].
        split; [intros ? _ [=]|].
        intros line' len' _ [= <-]. done.
      * rewrite Hrel. cbn [mbind option_bind]. returns_here.
        split; [done|]. split; [by left|]. split; [done|]. split; [done|].
        intros ? ? _ [=].
    + returns_here.
      split; [done|]. split; [by right|].
      split; [intros; exfalso; by apply Hsome|].
      split; [intros ? [=]|intros ? ? [=]].
    + returns_here.
      split; [done|]. split; [by right|].
      split; [intros; exfalso; by apply Hsome|].
      split; [intros ? [=]|intros ? ? [=]].
  - (* no socket: the slot is released *)
    rewrite Hrel. cbn [mbind option_bind]. returns_here.
    split; [done|]. split; [by left|]. done.
Qed.




(** ** Sender: the rate limiter *)

(** C9, as the code has it: in a turn of the sender with [max_qps > 0] the
    required time is [((10^6 * num_sent) mod 2^64) / max_qps], which is the
    exact quotient [(10^6 * num_sent) / max_qps] as long as the product
    fits 64 bits, and the elapsed time is [(now - start_time) mod 2^64];
    when the required time exceeds the elapsed time the sender calls
    [usleep] once, which receives the difference modulo 2^32, that is
    exactly the difference as long as it is below 2^32 microseconds, and
    starts the next turn with the thread unchanged: no slot acquired,
    nothing sent; otherwise the turn goes on with the in-flight check and
    the send. *)
Theorem rate_limit_step config times env st :
  let tinfo := ss_tinfo st in
  let now := if pacing_due tinfo then clock_pace env else ss_now st in
  let run_time := wrap64 (now - start_time times) in
  let req_time := wrap64 (MILLION * num_sent (stats tinfo)) / max_qps tinfo in
  max_qps tinfo > 0 →
  (0 ≤ MILLION * num_sent (stats tinfo) < 2 ^ 64 →
   req_time = (10 ^ 6 * num_sent (stats tinfo)) / max_qps tinfo)
  ∧ (0 ≤ now - start_time times < 2 ^ 64 → run_time = now - start_time times)
  ∧ (req_time > run_time →
     do_send_body config times env st
     = Some (mk_send_state tinfo (clock_next env) (ss_any_inprogress st),
             send_again,
             pacing_pause tinfo ++ [ev_usleep (wrap32 (req_time - run_time))]))
  ∧ (req_time > run_time → req_time - run_time < 2 ^ 32 →
     do_send_body config times env st
     = Some (mk_send_state tinfo (clock_next env) (ss_any_inprogress st),
             send_again,
             pacing_pause tinfo ++ [ev_usleep (req_time - run_time)]))
  ∧ (req_time ≤ run_time →
     do_send_body config times env st
     = (λ r : send_result, (r.1.1, r.1.2, pacing_pause tinfo ++ r.2))
         <$> do_send_query config env tinfo now (ss_any_inprogress st)).
Proof.
  intros tinfo now run_time req_time Hqps.
  assert (req_time > run_time →
          do_send_body config times env st
          = Some (mk_send_state tinfo (clock_next env) (ss_any_inprogress st),
                  send_again,
                  pacing_pause tinfo ++ [ev_usleep (wrap32 (req_time - run_time))]))
    as Hsleep.
  { intros Hgt.
    assert (0 ≤ req_time - run_time < 2 ^ 64) as Hdiff.
    { pose proof (wrap64_range (now - start_time times)) as Hrun.
      pose proof (wrap64_range (MILLION * num_sent (stats tinfo))) as Hreq.
      assert (req_time ≤ wrap64 (MILLION * num_sent (stats tinfo))).
      { subst req_time. apply Z.div_le_upper_bound; [lia|]. nia. }
      fold run_time in Hrun. lia. }
    unfold do_send_body, do_send_rate_limit.
    fold tinfo. fold now. fold run_time. fold req_time.
    rewrite !bool_decide_eq_true_2 by done. cbn [mbind option_bind].
    by rewrite (wrap64_small _ Hdiff). }
  split; [|split; [|split; [|split]]].
  - intros Hfit. subst req_time. by rewrite wrap64_small.
  - intros Hfit. subst run_time. by rewrite wrap64_small.
  - exact Hsleep.
  - intros Hgt Hsmall. rewrite (Hsleep Hgt).
    by rewrite (wrap32_small (req_time - run_time)) by lia.
  - intros Hle. unfold do_send_body, do_send_rate_limit.
    fold tinfo. fold now. fold run_time. fold req_time.
    rewrite (bool_decide_eq_true_2 (max_qps tinfo > 0)) by done.
    rewrite (bool_decide_eq_false_2 (req_time > run_time)) by lia.
    by destruct (do_send_query config env tinfo now (ss_any_inprogress st))
      as [[[st' out] evs]|].
Qed.

Lemma rate_limit_step_witness :
  do_send_body default_config (mk_times 0 0 ISC_UINT64_MAX) env_sent
    (mk_send_state thread_rate_limited 4990000 false)
  = Some (mk_send_state thread_rate_limited 18446744000000 false, send_again,
          [ev_usleep 10000]).
Proof.
  destruct (rate_limit_step default_config (mk_times 0 0 ISC_UINT64_MAX) env_sent
              (mk_send_state thread_rate_limited 4990000 false))
    as (_ & _ & _ & Hsleep & _); [reflexivity|].
  apply Hsleep; reflexivity.
Defined.

(** C9 as stated fails once [10^6 * num_sent] no longer fits 64 bits:
    after 18,446,744,073,710 queries at [max_qps = 1,000,000] the exact
    required time is 18,446,744,073,710 microseconds, more than the
    18,446,744,000,000 elapsed, so the sender should sleep; the code
    computes a required time of 0 and sends the next query at once.  It
    also fails when the difference does not fit the 32 bits of the
    parameter of [usleep]: a thread limited to one query per second that
    has sent 5,000 queries and reads a clock of one second after the
    start is 4,999 seconds early, and [usleep] receives 704,032,704
    microseconds. *)
Lemma rate_limit_overflow_counterexample :
  (let st := mk_send_state thread_long_run 18446744000000 false in
   let times := mk_times 0 0 ISC_UINT64_MAX in
   max_qps thread_long_run > 0
   ∧ (10 ^ 6 * num_sent (stats thread_long_run)) / max_qps thread_long_run
     > ss_now st - start_time times
   ∧ wrap64 (MILLION * num_sent (stats thread_long_run)) / max_qps thread_long_run = 0
   ∧ (λ r : send_result, (r.1.2, r.2, num_sent (stats (ss_tinfo r.1.1))))
       <$> do_send_body default_config times env_sent st
     = Some (send_again, [ev_sendto 0 29], 18446744073711))
  ∧ (let st := mk_send_state thread_one_qps 1000000 false in
     let times := mk_times 0 0 ISC_UINT64_MAX in
     max_qps thread_one_qps > 0
     ∧ (10 ^ 6 * num_sent (stats thread_one_qps)) / max_qps thread_one_qps
       - (ss_now st - start_time times) = 4999000000
     ∧ (λ r : send_result, (r.1.2, r.2))
         <$> do_send_body default_config times env_sent st
       = Some (send_again, [ev_usleep 704032704])).
Proof. split; vm_compute; repeat split. Qed.

(** ** Receiver: the response code *)

Lemma land_0xF_range x : 0 ≤ Z.land x 0xF < 16.
Proof.
  change 0xF with (Z.ones 4). rewrite Z.land_ones by lia.
  apply Z.mod_pos_bound. lia.
Qed.

Lemma recv_one_rcode which res r :
  recv_one which res = inl r →
  rcode r = Z.land (ntohs_header (nr_packet res) 1) 0xF ∧ rcode_ok r.
Proof.
  unfold recv_one, rcode_ok. case_bool_decide; [discriminate|].
  intros [= <-]. cbn [rcode]. split; [done|apply land_0xF_range].
Qed.

Section receive_loops.

Context (net : nat → net_recv_t) (nsocks : Z).

Lemma recv_scan_rcodes i n j g :
  Forall rcode_ok (g_recvd g) →
  Forall rcode_ok (g_recvd (recv_scan net nsocks i n j g).2).
Proof.
  revert j g. induction n as [|n IH]; intros j g Hok; [done|].
  cbn [recv_scan]. destruct (bit_check _ _); [by apply IH|].
  destruct (recv_one _ _) as [r|e] eqn:Hrecv.
  - cbn. apply Forall_insert; [done|]. by apply recv_one_rcode in Hrecv as [_ ?].
  - case_decide; [by apply IH|done].
Qed.

Lemma recv_batch_rcodes n i g :
  Forall rcode_ok (g_recvd g) →
  Forall rcode_ok (g_recvd (recv_batch net nsocks n i g).2).
Proof.
  revert i g. induction n as [|n IH]; intros i g Hok; [done|].
  cbn [recv_batch].
  pose proof (recv_scan_rcodes i (Z.to_nat nsocks) 0 g Hok) as Hscan.
  destruct (recv_scan net nsocks i (Z.to_nat nsocks) 0 g) as [j g'].
  case_decide; [done|]. by apply IH.
Qed.

End receive_loops.

Lemma query_move_stats t q op t' : query_move t q op = Some t' → stats t' = stats t.
Proof.
  unfold query_move. destruct (get_query t q) as [qi|]; [|discriminate].
  cbn. destruct (qlist qi) as [from|]; [|discriminate]. cbn.
  intros [= <-]. by destruct from, op.
Qed.

Lemma correlate_one_rcode t r t' r' :
  correlate_one t r = Some (t', r') → rcode r' = rcode r ∧ stats t' = stats t.
Proof.
  unfold correlate_one. destruct (short_response r); [by intros [= <- <-]|].
  destruct (get_query t (qid r)) as [qi|]; [|discriminate]. cbn.
  destruct (if bool_decide (qlist qi ≠ Some outstanding_list) then _ else _)
    as [[]|]; cbn; [by intros [= <- <-]| |discriminate].
  destruct (query_move t (qid r) append_unused) as [t1|] eqn:Hmove; [|discriminate].
  cbn. intros [= <- <-]. split; [done|]. by apply query_move_stats in Hmove.
Qed.

Lemma correlate_rcodes t rs t' rs' :
  correlate t rs = Some (t', rs') →
  Forall rcode_ok rs → Forall rcode_ok rs' ∧ stats t' = stats t.
Proof.
  revert t t' rs'. induction rs as [|r rs IH]; intros t t' rs'.
  - by intros [= <- <-].
  - cbn [correlate]. destruct (correlate_one t r) as [[t1 r1]|] eqn:Hone;
      [|discriminate]. cbn.
    destruct (correlate t1 rs) as [[t2 rs2]|] eqn:Hrest; [|discriminate]. cbn.
    intros [= <- <-] Hok. apply Forall_cons in Hok as [Hr Hrs].
    apply correlate_one_rcode in Hone as [Hrc Hst1].
    destruct (IH _ _ _ Hrest Hrs) as [Hrs2 Hst2].
    split; [|by rewrite Hst2]. apply Forall_cons. split; [|done].
    unfold rcode_ok. by rewrite Hrc.
Qed.

Lemma process_timeouts_loop_rcodecounts fuel config t q now t' :
  process_timeouts_loop fuel config t q now = Some t' →
  rcodecounts (stats t') = rcodecounts (stats t).
Proof.
  revert t q. induction fuel as [|fuel IH]; intros t q; [discriminate|].
  cbn [process_timeouts_loop].
  destruct (query_move t q append_unused) as [t1|] eqn:Hmove; [|discriminate].
  apply query_move_stats in Hmove. cbn [mbind option_bind].
  assert (rcodecounts (stats (with_stats inc_timedout t1)) = rcodecounts (stats t))
    as Hrc by (cbn; by rewrite Hmove).
  destruct (ISC_LIST_TAIL _) as [q'|]; [|by intros [= <-]].
  destruct (get_query _ q') as [qi'|]; [|discriminate]. cbn [mbind option_bind].
  destruct (timeout_next config now qi'); [|by intros [= <-]].
  intros Hrun. by rewrite (IH _ _ Hrun).
Qed.

Lemma process_timeouts_rcodecounts config t now t' :
  process_timeouts config t now = Some t' →
  rcodecounts (stats t') = rcodecounts (stats t).
Proof.
  unfold process_timeouts. destruct (ISC_LIST_TAIL _) as [q|]; [|by intros [= <-]].
  destruct (get_query t q) as [qi|]; [|discriminate]. cbn [mbind option_bind].
  destruct (timeout_first config now qi); [|by intros [= <-]].
  apply process_timeouts_loop_rcodecounts.
Qed.

Lemma account_one_total t r :
  rcode_ok r → length (rcodecounts (stats t)) = 16%nat →
  ∃ t', account_one t r = Some t' ∧ length (rcodecounts (stats t')) = 16%nat.
Proof.
  intros Hr Hlen. unfold account_one.
  destruct (short_response r); [by exists t|].
  destruct (unexpected r); [by exists t|].
  set (t1 := record_latency _ t).
  assert (stats t1 = stats t) as Hst.
  { subst t1. unfold record_latency. by case_bool_decide. }
  rewrite Hst. unfold complete_stats, inc_rcode. unfold rcode_ok in Hr.
  rewrite decide_True by lia.
  destruct (lookup_lt_is_Some_2 (rcodecounts (stats t)) (Z.to_nat (rcode r)))
    as [c ->]; [lia|].
  cbn. eexists. split; [reflexivity|]. cbn. by rewrite length_insert.
Qed.

Lemma account_total t rs :
  Forall rcode_ok rs → length (rcodecounts (stats t)) = 16%nat →
  ∃ t', account t rs = Some t' ∧ length (rcodecounts (stats t')) = 16%nat.
Proof.
  revert t. induction rs as [|r rs IH]; intros t Hok Hlen; [by exists t|].
  apply Forall_cons in Hok as [Hr Hrs]. cbn [account].
  destruct (account_one_total t r Hr Hlen) as (t1 & -> & Hlen1).
  cbn. by apply IH.
Qed.

(** C10: the response code [recv_one] extracts is the flags word masked
    with [0xF], so it is below 16; the entries of [recvd] start with code 0
    and no step of a turn of the receiver stores another code in them, so
    whenever the sweep and the correlation of a turn return, the counting
    of the turn returns too: the increment of [rcodecounts[rcode]] always
    finds its entry among the 16, and [rcodecounts] keeps its 16
    entries. *)
Theorem rcode_index_in_bounds :
  (∀ which res r,
     recv_one which res = inl r →
     rcode r = Z.land (ntohs_header (nr_packet res) 1) 0xF ∧ 0 ≤ rcode r < 16)
  ∧ Forall rcode_ok (replicate RECV_BATCH_SIZE zero_received)
  ∧ (∀ config net clock st t1,
       Forall rcode_ok (rs_recvd st) →
       length (rcodecounts (stats (rs_tinfo st))) = 16%nat →
       process_timeouts config (rs_tinfo st) (rs_now st) = Some t1 →
       is_Some (correlate t1 (take (do_recv_gather net t1 st).1
                                (g_recvd (do_recv_gather net t1 st).2))) →
       ∃ st' out,
         do_recv_body config net clock st = Some (st', out)
         ∧ Forall rcode_ok (rs_recvd st')
         ∧ length (rcodecounts (stats (rs_tinfo st'))) = 16%nat).
Proof.
  split; [|split].
  - intros which res r Hrecv. by apply recv_one_rcode in Hrecv.
  - apply Forall_replicate. unfold rcode_ok. cbn. lia.
  - intros config net clock st t1 Hrecvd Hlen Hsweep Hcorr.
    unfold do_recv_body. rewrite Hsweep. cbn [mbind option_bind].
    assert (length (rcodecounts (stats t1)) = 16%nat) as Hlen1.
    { by rewrite (process_timeouts_rcodecounts _ _ _ _ Hsweep). }
    destruct (done_sending t1 && bool_decide (num_outstanding (stats t1) = 0)).
    { eexists _, _. split; [reflexivity|]. by cbn. }
    pose proof (recv_batch_rcodes net (nsocks t1) RECV_BATCH_SIZE 0
                  (mk_gather (rs_recvd st) None (replicate 32 0)
                     (rs_last_socket st) 0) Hrecvd) as Hgather.
    fold (do_recv_gather net t1 st) in Hgather.
    destruct (do_recv_gather net t1 st) as [nrecvd g]. cbn [fst snd] in *.
    destruct Hcorr as [[t2 batch] Hcorr]. rewrite Hcorr. cbn [mbind option_bind].
    destruct (correlate_rcodes _ _ _ _ Hcorr) as [Hbatch Hst2];
      [by apply Forall_take|].
    destruct (account_total t2 batch Hbatch) as (t3 & -> & Hlen3);
      [by rewrite Hst2|].
    cbn [mbind option_bind].
    assert (Forall rcode_ok (batch ++ drop nrecvd (g_recvd g))) as Hnext.
    { apply Forall_app. split; [done|by apply Forall_drop]. }
    assert (length (rcodecounts (stats (match last batch with
                                        | Some r => with_last_recv (when r) t3
                                        | None => t3
                                        end))) = 16%nat) as Hlen4.
    { by destruct (last batch). }
    case_bool_decide; [destruct (g_errno g) as [[]|]|];
      (eexists _, _; split; [reflexivity|]; by cbn).
Qed.

Lemma rcode_index_in_bounds_witness :
  ∃ st' out,
    do_recv_body default_config net_nxdomain 1000800 recv_on_wire = Some (st', out)
    ∧ Forall rcode_ok (rs_recvd st')
    ∧ length (rcodecounts (stats (rs_tinfo st'))) = 16%nat
    ∧ rcode <$> rs_recvd st' !! 0%nat = Some 3
    ∧ rcodecounts (stats (rs_tinfo st')) !! 3%nat = Some 1.
Proof.
  destruct rcode_index_in_bounds as (_ & Hzero & Hturn).
  destruct (Hturn default_config net_nxdomain 1000800 recv_on_wire thread_on_wire)
    as (st' & out & Hbody & Hrc & Hlen); cycle 4.
  { exists st', out. split; [exact Hbody|]. split; [exact Hrc|].
    split; [exact Hlen|].
    assert ((λ r : recv_state * recv_outcome,
               (rcode <$> rs_recvd r.1 !! 0%nat,
                rcodecounts (stats (rs_tinfo r.1)) !! 3%nat))
              <$> do_recv_body default_config net_nxdomain 1000800 recv_on_wire
            = Some (Some 3, Some 1)) as Hrun by (vm_compute; reflexivity).
    rewrite Hbody in Hrun. cbn [fmap option_fmap option_map fst] in Hrun.
    injection Hrun as Hcode Hcount. by split. }
  - exact Hzero.
  - vm_compute. reflexivity.
  - unfold process_timeouts. change (rs_tinfo recv_on_wire) with thread_on_wire.
    assert (ISC_LIST_TAIL (outstanding_queries thread_on_wire) = Some 0) as ->
      by (vm_compute; reflexivity).
    assert (get_query thread_on_wire 0
            = Some (mk_query 1000000 (Some outstanding_list) None (Some 0))) as ->
      by (vm_compute; reflexivity).
    cbn [mbind option_bind].
    assert (timeout_first default_config (rs_now recv_on_wire)
              (mk_query 1000000 (Some outstanding_list) None (Some 0)) = false)
      as -> by (vm_compute; reflexivity).
    reflexivity.
  - assert ((λ _, ()) <$>
              correlate thread_on_wire
                (take (do_recv_gather net_nxdomain thread_on_wire recv_on_wire).1
                   (g_recvd (do_recv_gather net_nxdomain thread_on_wire
                               recv_on_wire).2))
            = Some ()) as Hrun by (vm_compute; reflexivity).
    destruct (correlate _ _) as [res|]; [eauto|discriminate].
Defined.

(** ** I1 along the loops

    Whatever the world answers, a turn of the sender or of the receiver
    that returns leaves a table that satisfies I1. *)

Lemma query_move_ok t q op t' :
  slot_table_ok t → query_move t q op = Some t' → slot_table_ok t'.
Proof.
  intros Hok Hmove.
  assert (0 ≤ q < NQIDS) as Hq.
  { unfold query_move in Hmove.
    destruct (get_query t q) as [qi|] eqn:Hqi; [|discriminate].
    apply get_query_Some in Hqi as [Hq Hl]. apply lookup_lt_Some in Hl.
    rewrite (ok_size t Hok) in Hl. lia. }
  rewrite (query_move_moved t q op Hok Hq) in Hmove.
  injection Hmove as <-. by apply moved_ok.
Qed.

Lemma do_send_body_ok config times env st st' out evs :
  slot_table_ok (ss_tinfo st) →
  do_send_body config times env st = Some (st', out, evs) →
  slot_table_ok (ss_tinfo st').
Proof.
  intros Hok. unfold do_send_body.
  destruct (do_send_rate_limit _ _ _ _ _ _) as [[[st1 out1] evs1]|] eqn:Hrate;
    [|discriminate].
  cbn. intros [= <- _ _]. revert Hrate. unfold do_send_rate_limit.
  assert (∀ now,
            do_send_query config env (ss_tinfo st) now (ss_any_inprogress st)
            = Some (st1, out1, evs1) → slot_table_ok (ss_tinfo st1)) as Hquery.
  { intros now Hquery.
    destruct (decide (num_outstanding (stats (ss_tinfo st))
                      < max_outstanding (ss_tinfo st))) as [Hcap|Hcap].
    - destruct (unused_queries (ss_tinfo st)) as [|q rest] eqn:Hun.
      + unfold do_send_query in Hquery.
        rewrite bool_decide_eq_false_2, Hun in Hquery by lia. discriminate.
      + destruct (do_send_query_spec config env (ss_tinfo st) now
                    (ss_any_inprogress st) q rest Hok Hun Hcap)
          as (st2 & out2 & evs2 & Hrun & Hok2 & _).
        rewrite Hrun in Hquery. by injection Hquery as <- _ _.
    - unfold do_send_query in Hquery.
      rewrite bool_decide_eq_true_2 in Hquery by lia. by injection Hquery as <- _ _. }
  case_bool_decide; [case_bool_decide|]; [by intros [= <- _ _]|apply Hquery..].
Qed.

Lemma correlate_ok t rs t' rs' :
  slot_table_ok t → correlate t rs = Some (t', rs') → slot_table_ok t'.
Proof.
  revert t t' rs'. induction rs as [|r rs IH]; intros t t' rs' Hok.
  - by intros [= <- _].
  - cbn [correlate].
    destruct (correlate_one t r) as [[t1 r1]|] eqn:Hone; [|discriminate]. cbn.
    destruct (correlate t1 rs) as [[t2 rs2]|] eqn:Hrest; [|discriminate]. cbn.
    intros [= <- _]. apply (IH t1 t2 rs2); [|done].
    revert Hone. unfold correlate_one.
    destruct (short_response r); [by intros [= <- _]|].
    destruct (get_query t (qid r)) as [qi|] eqn:Hqi; [|discriminate]. cbn.
    destruct (if bool_decide (qlist qi ≠ Some outstanding_list) then _ else _)
      as [[]|]; cbn; [by intros [= <- _]| |discriminate].
    destruct (query_move t (qid r) append_unused) as [tm|] eqn:Hmove; [|discriminate].
    cbn. intros [= <- _]. apply get_query_Some in Hqi as [Hq _].
    apply upd_query_ok; [done|done|]. by apply (query_move_ok t _ _ _ Hok Hmove).
Qed.

Lemma account_slots t rs t' :
  account t rs = Some t' →
  queries t' = queries t
  ∧ outstanding_queries t' = outstanding_queries t
  ∧ unused_queries t' = unused_queries t.
Proof.
  revert t. induction rs as [|r rs IH]; intros t; [by intros [= <-]|].
  cbn [account]. destruct (account_one t r) as [t1|] eqn:Hone; [|discriminate].
  cbn. intros Hrest. destruct (IH t1 Hrest) as (-> & -> & ->).
  revert Hone. unfold account_one.
  destruct (short_response r); [by intros [= <-]|].
  destruct (unexpected r); [by intros [= <-]|].
  destruct (complete_stats _ _ _) as [s|]; [|discriminate]. cbn.
  intros [= <-]. unfold record_latency. by case_bool_decide.
Qed.

Lemma do_recv_body_ok config net clock st st' out :
  slot_table_ok (rs_tinfo st) →
  do_recv_body config net clock st = Some (st', out) →
  slot_table_ok (rs_tinfo st').
Proof.
  intros Hok. unfold do_recv_body.
  destruct (process_timeouts_spec config (rs_now st) (rs_tinfo st) Hok)
    as (t1 & -> & Hok1 & _).
  cbn [mbind option_bind].
  destruct (done_sending t1 && _); [by intros [= <- _]|].
  destruct (do_recv_gather net t1 st) as [nrecvd g].
  destruct (correlate t1 _) as [[t2 batch]|] eqn:Hcorr; [|discriminate].
  cbn [mbind option_bind].
  destruct (account t2 batch) as [t3|] eqn:Hacc; [|discriminate].
  cbn [mbind option_bind].
  assert (slot_table_ok t3) as Hok3.
  { destruct (account_slots _ _ _ Hacc) as (Hq & Ho & Hu).
    apply (slot_table_ok_ext t2); [done..|]. by apply (correlate_ok t1 _ _ _ Hok1 Hcorr). }
  assert (slot_table_ok (match last batch with
                         | Some r => with_last_recv (when r) t3
                         | None => t3
                         end)) as Hok4.
  { destruct (last batch); [|done]. by apply (slot_table_ok_ext t3). }
  case_bool_decide; [destruct (g_errno g) as [[]|]|]; by intros [= <- _].
Qed.

(** ** Send order

    The steps of the sender and the removal of a slot keep the outstanding
    list in send order, as long as the clock does not fall behind the
    timestamps already given out. *)

Lemma slot_time_upd_eq t q ts :
  is_Some (get_query t q) → slot_time (upd_query q (with_timestamp ts) t) q = ts.
Proof.
  intros [qi Hqi]. unfold slot_time. by rewrite (get_query_upd_eq t q _ qi Hqi).
Qed.

Lemma slot_time_upd_ne t q f x :
  0 ≤ q → x ≠ q → slot_time (upd_query q f t) x = slot_time t x.
Proof. intros Hq Hne. unfold slot_time. by rewrite get_query_upd_ne. Qed.

Lemma slot_time_moved t q op x : 0 ≤ q → slot_time (moved t q op) x = slot_time t x.
Proof.
  intros Hq. unfold slot_time.
  by rewrite (same_payload_timestamp t _ x (same_payload_moved t q op Hq)).
Qed.

Lemma StronglySorted_ext_in (R1 R2 : Z → Z → Prop) (l : list Z) :
  (∀ x y, x ∈ l → y ∈ l → R1 x y → R2 x y) →
  StronglySorted R1 l → StronglySorted R2 l.
Proof.
  intros Hext Hsorted. induction Hsorted as [|x l Hsorted IH Hall].
  - constructor.
  - constructor.
    + apply IH. intros y z Hy Hz. apply Hext; by right.
    + rewrite List.Forall_forall in *. intros y Hy. apply Hext.
      * by left.
      * right. by apply list_elem_of_In.
      * by apply Hall.
Qed.

Lemma StronglySorted_unlink (R : Z → Z → Prop) (q : Z) (l : list Z) :
  StronglySorted R l → StronglySorted R (filter (λ x, x ≠ q) l).
Proof.
  intros Hsorted. induction Hsorted as [|x l Hsorted IH Hall]; [constructor|].
  destruct (decide (x = q)) as [->|Hne].
  - by rewrite filter_cons_False by tauto.
  - rewrite filter_cons_True by done. constructor; [done|].
    rewrite List.Forall_forall in *. intros y Hy. apply Hall.
    apply list_elem_of_In. apply list_elem_of_In in Hy.
    apply list_elem_of_filter in Hy. tauto.
Qed.

Lemma in_send_order_acquire t q rest :
  slot_table_ok t → unused_queries t = q :: rest → in_send_order t →
  (∀ x, x ∈ outstanding_queries t → slot_time t x ≤ ISC_UINT64_MAX) →
  in_send_order (acquire t q).
Proof.
  intros Hok Hun Hsorted Hmax.
  destruct (acquire_head t q rest Hok Hun) as (Hq & _ & Hok1 & Hout1 & _).
  assert (q ∉ outstanding_queries t) as Hqout.
  { pose proof (slot_table_NoDup _ Hok1) as Hnd. rewrite Hout1 in Hnd.
    apply NoDup_app in Hnd as (Hnd & _). by apply NoDup_cons in Hnd as [? _]. }
  destruct (get_query_in_range _ q (ok_size _ Hok1) Hq) as [qi Hqi].
  unfold in_send_order.
  change (outstanding_queries (acquire t q))
    with (outstanding_queries (moved t q prepend_outstanding)).
  rewrite Hout1, reverse_cons. apply StronglySorted_app. split; [|split].
  - intros x y Hx Hy. apply list_elem_of_singleton in Hy. subst y.
    rewrite elem_of_reverse in Hx. unfold acquire.
    rewrite slot_time_upd_eq by eauto.
    rewrite slot_time_upd_ne, slot_time_moved by (lia || congruence). by apply Hmax.
  - apply (StronglySorted_ext_in (λ a b, slot_time t a ≤ slot_time t b)); [|done].
    intros x y Hx Hy. rewrite elem_of_reverse in Hx, Hy. unfold acquire.
    by rewrite !slot_time_upd_ne, !slot_time_moved by (lia || congruence).
  - repeat constructor.
Qed.

Lemma in_send_order_stamp t q out ts :
  slot_table_ok t → outstanding_queries t = q :: out → in_send_order t →
  (∀ x, x ∈ out → slot_time t x ≤ ts) →
  in_send_order (stamp t q ts).
Proof.
  intros Hok Hout Hsorted Hclock.
  assert (0 ≤ q < NQIDS) as Hq.
  { apply (slot_table_elem t q Hok). left. rewrite Hout. by left. }
  assert (q ∉ out) as Hqout.
  { pose proof (slot_table_NoDup _ Hok) as Hnd. rewrite Hout in Hnd.
    apply NoDup_app in Hnd as (Hnd & _). by apply NoDup_cons in Hnd as [? _]. }
  unfold in_send_order in *.
  change (outstanding_queries (stamp t q ts)) with (outstanding_queries t).
  rewrite Hout, reverse_cons in *.
  apply StronglySorted_app in Hsorted as (_ & Hsorted & _).
  apply StronglySorted_app. split; [|split].
  - intros x y Hx Hy. apply list_elem_of_singleton in Hy. subst y.
    rewrite elem_of_reverse in Hx. unfold stamp.
    rewrite slot_time_upd_eq by (by apply get_query_in_range; [apply ok_size|]).
    rewrite slot_time_upd_ne by (lia || congruence). by apply Hclock.
  - apply (StronglySorted_ext_in (λ a b, slot_time t a ≤ slot_time t b)); [|done].
    intros x y Hx Hy. rewrite elem_of_reverse in Hx, Hy. unfold stamp.
    by rewrite !slot_time_upd_ne by (lia || congruence).
  - repeat constructor.
Qed.

(** Taking a slot off the outstanding list, by a receipt, a timeout or a
    release, leaves the others in order. *)
Lemma in_send_order_moved t q op :
  0 ≤ q → op ≠ prepend_outstanding → in_send_order t →
  in_send_order (moved t q op).
Proof.
  intros Hq Hop Hsorted. unfold in_send_order in *.
  rewrite outstanding_moved.
  assert (match op with
          | prepend_outstanding => q :: ISC_LIST_UNLINK q (outstanding_queries t)
          | _ => ISC_LIST_UNLINK q (outstanding_queries t)
          end = ISC_LIST_UNLINK q (outstanding_queries t)) as -> by by destruct op.
  unfold ISC_LIST_UNLINK. rewrite <- filter_reverse.
  apply StronglySorted_unlink.
  apply (StronglySorted_ext_in (λ a b, slot_time t a ≤ slot_time t b)); [|done].
  intros x y _ _. by rewrite !slot_time_moved.
Qed.

(** * Further properties of the code *)

(** ** Quotas of the threads *)

Lemma mapM_ext_Some {A B} (f : A → option B) (g : A → B) (l : list A) :
  (∀ x, x ∈ l → f x = Some (g x)) → mapM f l = Some (g <$> l).
Proof.
  induction l as [|x l IH]; intros Hf; [done|].
  cbn. rewrite (Hf x) by (by left). cbn.
  rewrite IH by (intros y Hy; apply Hf; by right). done.
Qed.

Lemma total_of_fmap {A} (f : threadinfo_t → Z) (g : A → threadinfo_t) (l : list A) :
  total_of f (g <$> l) = foldr (λ x acc, f (g x) + acc) 0 l.
Proof. induction l as [|x l IH]; [done|]. cbn. by rewrite <- IH. Qed.

Lemma foldr_add_le {A} (f g : A → Z) (l : list A) :
  (∀ x, x ∈ l → f x ≤ g x) →
  foldr (λ x acc, f x + acc) 0 l ≤ foldr (λ x acc, g x + acc) 0 l.
Proof.
  induction l as [|x l IH]; intros Hfg; [done|]. cbn.
  pose proof (Hfg x ltac:(by left)).
  pose proof (IH (λ y Hy, Hfg y ltac:(by right))). lia.
Qed.

Lemma foldr_add_ext {A} (f g : A → Z) (l : list A) :
  (∀ x, x ∈ l → f x = g x) →
  foldr (λ x acc, f x + acc) 0 l = foldr (λ x acc, g x + acc) 0 l.
Proof.
  induction l as [|x l IH]; intros Hfg; [done|]. cbn.
  rewrite (Hfg x) by (by left).
  rewrite IH by (intros y Hy; apply Hfg; by right). done.
Qed.

(** The shares [a + 1] of the first [r] indices and [a] of the others,
    summed over the indices below [n]. *)
Lemma shares_sum (a r : Z) (n : nat) :
  0 ≤ r →
  foldr (λ k acc, (a + (if bool_decide (k < r) then 1 else 0)) + acc) 0
    (seqZ 0 (Z.of_nat n))
  = Z.of_nat n * a + Z.min (Z.of_nat n) r.
Proof.
  intros Hr. induction n as [|n IH].
  { change (Z.of_nat 0) with 0. rewrite Z.min_l by lia. reflexivity. }
  rewrite Nat2Z.inj_succ, <- Z.add_1_r, seqZ_app by lia.
  rewrite foldr_app. cbn [seqZ]. change (seqZ (0 + Z.of_nat n) 1) with
    ((λ x, x) <$> seqZ (0 + Z.of_nat n) 1).
  assert (seqZ (0 + Z.of_nat n) 1 = [Z.of_nat n]) as ->.
  { rewrite Z.add_0_l. reflexivity. }
  cbn [fmap list_fmap foldr].
  set (last_share := a + (if bool_decide (Z.of_nat n < r) then 1 else 0) + 0).
  assert (∀ (l : list Z) (c : Z),
            foldr (λ k acc, (a + (if bool_decide (k < r) then 1 else 0)) + acc) c l
            = foldr (λ k acc, (a + (if bool_decide (k < r) then 1 else 0)) + acc) 0 l + c)
    as Hshift.
  { induction l as [|x l IHl]; intros c; [cbn; lia|]. cbn. rewrite IHl. lia. }
  rewrite Hshift, IH. subst last_share. case_bool_decide; lia.
Qed.

Lemma per_thread_quotas_sum total N :
  0 ≤ total < 2 ^ 32 → 0 < N →
  foldr (λ k acc, (total / N + (if bool_decide (k < total mod N) then 1 else 0)) + acc)
    0 (seqZ 0 N) = total.
Proof.
  intros Htotal HN.
  pose proof (Z.mod_pos_bound total N HN) as Hmod.
  pose proof (Z.div_mod total N ltac:(lia)) as Hdm.
  replace (seqZ 0 N) with (seqZ 0 (Z.of_nat (Z.to_nat N)))
    by (by rewrite Z2Nat.id by lia).
  rewrite shares_sum by lia. rewrite Z2Nat.id by lia. lia.
Qed.

(** X1: the shares [per_thread] gives the threads [0 .. N-1] of a 32-bit
    total add up to the total, no share is below [floor(total/N)] or above
    it by more than one, and a thread never gets less than a thread with
    a higher index. *)
Theorem per_thread_shares_add_up total N :
  0 ≤ total < 2 ^ 32 → 0 < N < 2 ^ 32 →
  ∃ shares,
    mapM (per_thread total N) (seqZ 0 N) = Some shares
    ∧ Z.of_nat (length shares) = N
    ∧ foldr Z.add 0 shares = total
    ∧ (∀ s, s ∈ shares → total / N ≤ s ≤ total / N + 1)
    ∧ (∀ i j s s', (i ≤ j)%nat → shares !! i = Some s → shares !! j = Some s' →
                   s' ≤ s).
Proof.
  intros Htotal HN.
  set (g := λ k : Z, total / N + (if bool_decide (k < total mod N) then 1 else 0)).
  exists (g <$> seqZ 0 N).
  split.
  { apply mapM_ext_Some. intros k Hk%elem_of_seqZ.
    apply per_thread_value; lia. }
  split.
  { rewrite length_fmap, length_seqZ. lia. }
  split.
  { rewrite foldr_fmap. apply (per_thread_quotas_sum total N); lia. }
  split.
  { intros s Hs. apply list_elem_of_fmap in Hs as (k & -> & _).
    subst g. cbn. case_bool_decide; lia. }
  intros i j s s' Hij Hi Hj.
  rewrite list_lookup_fmap in Hi, Hj.
  destruct (seqZ 0 N !! i) as [ki|] eqn:Hki; [|discriminate].
  destruct (seqZ 0 N !! j) as [kj|] eqn:Hkj; [|discriminate].
  apply lookup_seqZ in Hki as [-> _]. apply lookup_seqZ in Hkj as [-> _].
  cbn in Hi, Hj. injection Hi as <-. injection Hj as <-.
  subst g. cbn. repeat case_bool_decide; lia.
Qed.

Lemma per_thread_shares_add_up_witness :
  ∃ shares,
    mapM (per_thread 100 8) (seqZ 0 8) = Some shares
    ∧ Z.of_nat (length shares) = 8
    ∧ foldr Z.add 0 shares = 100
    ∧ (∀ s, s ∈ shares → 100 / 8 ≤ s ≤ 100 / 8 + 1)
    ∧ (∀ i j s s', (i ≤ j)%nat → shares !! i = Some s → shares !! j = Some s' →
                   s' ≤ s).
Proof. apply (per_thread_shares_add_up 100 8); lia. Defined.

(** ** The threads [main] starts after [setup] *)

Lemma min_cap (x cap : Z) :
  (if bool_decide (x > cap) then cap else x) = Z.min x cap.
Proof. case_bool_decide; lia. Qed.

(** The thread [threadinfo_init] builds for index [k], and when it
    returns. *)
Lemma threadinfo_init_value mem config k :
  0 ≤ cfg_max_outstanding config < 2 ^ 32 → 0 ≤ cfg_max_qps config < 2 ^ 32 →
  0 ≤ clients config < 2 ^ 32 → 0 < threads config → 0 ≤ k < threads config →
  let share total :=
    total / threads config
    + (if bool_decide (k < total mod threads config) then 1 else 0) in
  threadinfo_init mem config k
  = (if socks_alloc mem && latency_alloc mem
     then Some (mk_threadinfo (queries fresh_threadinfo) []
                  (unused_queries fresh_threadinfo)
                  (Z.min (share (clients config)) MAX_SOCKETS) 0 false 0 zero_stats
                  (Z.min (share (cfg_max_outstanding config)) NQIDS)
                  (share (cfg_max_qps config)) 0 ∅ 0)
     else None).
Proof.
  intros Hmo Hmq Hcl HN Hk share.
  unfold threadinfo_init. rewrite init_slots_fresh.
  rewrite !per_thread_value by lia. cbn [mbind option_bind].
  rewrite !min_cap. by destruct (socks_alloc mem), (latency_alloc mem).
Qed.

Lemma mapM_Some_elem {A B} (f : A → option B) (l : list A) (k : list B) x :
  mapM f l = Some k → x ∈ l → is_Some (f x).
Proof.
  intros Hmap Hx. apply mapM_Some in Hmap.
  apply list_elem_of_lookup in Hx as [i Hi].
  destruct (Forall2_lookup_l _ _ _ _ _ Hmap Hi) as (y & _ & Hy). eauto.
Qed.

(** X2: [setup] followed by the start-up of [main], for 32-bit options
    with at least one client and one thread.  The start-up returns
    exactly when the allocator returns memory for the array [threads] and,
    for every thread index below the final thread count, for [socks] and
    [latency_detail]: no share is computed with a thread count of 0.  When
    it returns, every index below the final thread count has its thread;
    each thread has between 1 and 256 sockets and satisfies I1 with zeroed
    counters; when a rate limit is configured no thread is left unlimited
    ([max_qps >= 1]) and the per-thread rates add up to the configured
    rate; the sockets and the in-flight caps of the threads add up to at
    most the configured totals. *)
Theorem setup_threads_usable config edns_option threads_alloc mem :
  1 ≤ clients config < 2 ^ 32 → 1 ≤ threads config < 2 ^ 32 →
  0 ≤ cfg_max_qps config < 2 ^ 32 → 0 ≤ cfg_max_outstanding config < 2 ^ 32 →
  let c := setup config edns_option in
  1 ≤ threads c ≤ clients config
  ∧ (is_Some (start_threads threads_alloc mem c)
     ↔ threads_alloc = true ∧ ∀ k, 0 ≤ k < threads c → allocated (mem k))
  ∧ ∀ thr,
      start_threads threads_alloc mem c = Some thr →
      Z.of_nat (length thr) = threads c
      ∧ Forall (λ t, slot_table_ok t ∧ stats t = zero_stats
                     ∧ 1 ≤ nsocks t ≤ MAX_SOCKETS
                     ∧ 0 ≤ max_outstanding t ≤ NQIDS
                     ∧ (0 < cfg_max_qps config → 1 ≤ max_qps t)) thr
      ∧ total_of max_qps thr = cfg_max_qps config
      ∧ total_of nsocks thr ≤ clients config
      ∧ total_of max_outstanding thr ≤ cfg_max_outstanding config.
Proof.
  intros Hcl Hth Hmq Hmo c.
  destruct (setup_limits config edns_option) as (HN & Hcl' & Hmq' & Hmo').
  fold c in HN, Hcl', Hmq', Hmo'.
  assert (1 ≤ threads c ≤ clients config
          ∧ (0 < cfg_max_qps config → threads c ≤ cfg_max_qps config))
    as (HN1 & HNq).
  { rewrite HN. case_bool_decide; lia. }
  split; [exact HN1|].
  pose proof (λ k, threadinfo_init_value (mem k) c k) as Hinit.
  rewrite Hcl', Hmq', Hmo' in Hinit. cbv zeta in Hinit.
  unfold start_threads. revert Hinit HN1 HNq. generalize (threads c). clear HN.
  intros N Hinit HN1 HNq.
  set (g := λ k : Z,
         mk_threadinfo (queries fresh_threadinfo) []
           (unused_queries fresh_threadinfo)
           (Z.min (clients config / N
                   + (if bool_decide (k < clients config mod N) then 1 else 0))
              MAX_SOCKETS) 0 false 0 zero_stats
           (Z.min (cfg_max_outstanding config / N
                   + (if bool_decide (k < cfg_max_outstanding config mod N)
                      then 1 else 0)) NQIDS)
           (cfg_max_qps config / N
            + (if bool_decide (k < cfg_max_qps config mod N) then 1 else 0))
           0 ∅ 0).
  assert ((∀ k, 0 ≤ k < N → allocated (mem k)) →
          mapM (λ k, threadinfo_init (mem k) c k) (seqZ 0 N)
          = Some (g <$> seqZ 0 N)) as Hall.
  { intros Hmem. apply mapM_ext_Some. intros k Hk%elem_of_seqZ.
    rewrite Hinit by lia. destruct (Hmem k) as [-> ->]; [lia|]. reflexivity. }
  assert (is_Some (mapM (λ k, threadinfo_init (mem k) c k) (seqZ 0 N)) →
          ∀ k, 0 ≤ k < N → allocated (mem k)) as Hback.
  { intros [thr Hthr] k Hk.
    destruct (mapM_Some_elem _ _ _ k Hthr) as [t Ht];
      [apply elem_of_seqZ; lia|].
    rewrite Hinit in Ht by lia. unfold allocated.
    by destruct (socks_alloc (mem k)), (latency_alloc (mem k)). }
  split.
  { destruct threads_alloc.
    - split; [intros Hret; split; [done|by apply Hback]|].
      intros [_ Hmem]. rewrite (Hall Hmem). eauto.
    - split; [by intros [? ?]|by intros [? _]]. }
  intros thr Hthr.
  destruct threads_alloc; [|discriminate].
  rewrite Hall in Hthr by (apply Hback; eauto).
  apply (inj Some) in Hthr. subst thr.
  split; [rewrite length_fmap, length_seqZ; lia|].
  assert (0 ≤ cfg_max_outstanding config / N) as Hdivo by (apply Z.div_pos; lia).
  assert (1 ≤ clients config / N) as Hdivc by (apply Z.div_le_lower_bound; lia).
  split.
  { apply Forall_fmap, Forall_forall. intros k Hk%elem_of_seqZ.
    unfold compose. subst g. cbv beta.
    cbn [stats nsocks max_outstanding max_qps].
    split.
    { eapply (slot_table_ok_ext fresh_threadinfo); [reflexivity..|].
      apply fresh_threadinfo_ok. }
    split; [reflexivity|].
    split; [unfold MAX_SOCKETS; case_bool_decide; lia|].
    split; [unfold NQIDS; case_bool_decide; lia|].
    intros Hpos.
    assert (1 ≤ cfg_max_qps config / N).
    { apply Z.div_le_lower_bound; [lia|]. specialize (HNq Hpos). lia. }
    case_bool_decide; lia. }
  rewrite !total_of_fmap. subst g. cbv beta. cbn [nsocks max_outstanding max_qps].
  split; [apply per_thread_quotas_sum; lia|].
  split.
  - etrans; [|apply Z.eq_le_incl, (per_thread_quotas_sum (clients config) N); lia].
    apply foldr_add_le. intros k _. lia.
  - etrans; [|apply Z.eq_le_incl,
                (per_thread_quotas_sum (cfg_max_outstanding config) N); lia].
    apply foldr_add_le. intros k _. lia.
Qed.

Lemma setup_threads_usable_witness :
  1 ≤ threads (setup config_rate_limited false) ≤ clients config_rate_limited
  ∧ (is_Some (start_threads true (λ _, alloc_ok) (setup config_rate_limited false))
     ↔ true = true
       ∧ ∀ k, 0 ≤ k < threads (setup config_rate_limited false) →
              allocated ((λ _, alloc_ok) k))
  ∧ ∀ thr,
      start_threads true (λ _, alloc_ok) (setup config_rate_limited false)
      = Some thr →
      Z.of_nat (length thr) = threads (setup config_rate_limited false)
      ∧ Forall (λ t, slot_table_ok t ∧ stats t = zero_stats
                     ∧ 1 ≤ nsocks t ≤ MAX_SOCKETS
                     ∧ 0 ≤ max_outstanding t ≤ NQIDS
                     ∧ (0 < cfg_max_qps config_rate_limited → 1 ≤ max_qps t)) thr
      ∧ total_of max_qps thr = cfg_max_qps config_rate_limited
      ∧ total_of nsocks thr ≤ clients config_rate_limited
      ∧ total_of max_outstanding thr ≤ cfg_max_outstanding config_rate_limited.
Proof.
  apply (setup_threads_usable config_rate_limited false true (λ _, alloc_ok));
    vm_compute; split; congruence.
Defined.

(** ** Aggregation: what [sum_stats] adds up *)

Lemma total_of_Permutation f thr1 thr2 :
  thr1 ≡ₚ thr2 → total_of f thr1 = total_of f thr2.
Proof.
  unfold total_of.
  induction 1 as [|t l1 l2 _ IH|t1 t2 l|l1 l2 l3 _ IH1 _ IH2]; cbn.
  - done.
  - by rewrite IH.
  - lia.
  - by rewrite IH1.
Qed.

(** A counter that [sum_stats] adds with [+=]. *)
Lemma sum_stats_loop_counter (f : stats_t → Z) :
  (∀ i total st, f (sum_stats_step i total st) = wrap64 (f total + f st)) →
  ∀ thr i total,
    0 ≤ f total < 2 ^ 64 →
    f (sum_stats_loop i thr total) = wrap64 (f total + total_of (f ∘ stats) thr).
Proof.
  intros Hstep thr. induction thr as [|t thr IH]; intros i total Hrange.
  - cbn. rewrite Z.add_0_r. by rewrite wrap64_small.
  - cbn [sum_stats_loop total_of foldr].
    rewrite IH by (rewrite Hstep; apply wrap64_range).
    rewrite Hstep, wrap64_add_l. f_equal. unfold total_of, compose. cbn. lia.
Qed.

(** The loop over the 16 response codes. *)
Lemma foldl_insert_seq (h : Z → nat → Z) (n : nat) (l : list Z) :
  (n ≤ length l)%nat →
  length (foldl (λ tot j, <[j := h (tot !!! j) j]> tot) l (seq 0 n)) = length l
  ∧ ∀ j, foldl (λ tot j, <[j := h (tot !!! j) j]> tot) l (seq 0 n) !!! j
         = if decide (j < n)%nat then h (l !!! j) j else l !!! j.
Proof.
  induction n as [|n IH]; intros Hn.
  - cbn. split; [done|]. intros j. by rewrite decide_False by lia.
  - destruct IH as [IHlen IHj]; [lia|].
    rewrite seq_S, foldl_app. cbn [foldl Nat.add].
    split; [by rewrite length_insert|].
    intros j. destruct (decide (j = n)) as [->|Hne].
    + rewrite list_lookup_total_insert_eq by lia.
      rewrite IHj, decide_False, decide_True by lia. done.
    + rewrite list_lookup_total_insert_ne by done.
      rewrite IHj. repeat case_decide; done || lia.
Qed.

Lemma add_rcodecounts_spec (total st : list Z) :
  length total = 16%nat →
  length (add_rcodecounts total st) = 16%nat
  ∧ ∀ j, (j < 16)%nat →
         add_rcodecounts total st !!! j = wrap64 (total !!! j + st !!! j).
Proof.
  intros Hlen. unfold add_rcodecounts.
  destruct (foldl_insert_seq (λ x j, wrap64 (x + st !!! j)) 16 total) as [Hl Hj];
    [lia|].
  split; [by rewrite Hl|]. intros j Hlt. rewrite Hj. by rewrite decide_True.
Qed.

Lemma sum_stats_loop_rcodecounts thr i total :
  length (rcodecounts total) = 16%nat →
  (∀ j, (j < 16)%nat → 0 ≤ rcodecounts total !!! j < 2 ^ 64) →
  length (rcodecounts (sum_stats_loop i thr total)) = 16%nat
  ∧ ∀ j, (j < 16)%nat →
         rcodecounts (sum_stats_loop i thr total) !!! j
         = wrap64 (rcodecounts total !!! j
                   + total_of (λ t, rcodecounts (stats t) !!! j) thr).
Proof.
  revert i total. induction thr as [|t thr IH]; intros i total Hlen Hrange.
  - cbn. split; [done|]. intros j Hj. rewrite Z.add_0_r.
    rewrite wrap64_small; [done|]. by apply Hrange.
  - cbn [sum_stats_loop total_of foldr].
    destruct (add_rcodecounts_spec (rcodecounts total) (rcodecounts (stats t)) Hlen)
      as [Hlen' Hadd].
    destruct (IH (i + 1) (sum_stats_step i total (stats t))) as [IHlen IHj].
    { exact Hlen'. }
    { intros j Hj. cbn [sum_stats_step rcodecounts]. rewrite Hadd by done.
      apply wrap64_range. }
    split; [done|]. intros j Hj. rewrite IHj by done.
    cbn [sum_stats_step rcodecounts]. rewrite Hadd, wrap64_add_l by done.
    f_equal. fold (total_of (λ t, rcodecounts (stats t) !!! j) thr). lia.
Qed.

Lemma foldr_max_acc {A} (f : A → Z) (a b : Z) (l : list A) :
  foldr (λ x acc, Z.max (f x) acc) (Z.max a b) l
  = Z.max b (foldr (λ x acc, Z.max (f x) acc) a l).
Proof. induction l as [|x l IH]; cbn; [lia|]. rewrite IH. lia. Qed.

Lemma sum_stats_loop_latency_max thr i total :
  latency_max (sum_stats_loop i thr total)
  = foldr (λ t acc, Z.max (latency_max (stats t)) acc) (latency_max total) thr.
Proof.
  revert i total. induction thr as [|t thr IH]; intros i total; [done|].
  cbn [sum_stats_loop foldr]. rewrite IH. cbn [sum_stats_step latency_max].
  rewrite <- foldr_max_acc. f_equal. case_bool_decide; lia.
Qed.

Lemma sum_stats_counter (f : stats_t → Z) thr :
  (∀ i total st, f (sum_stats_step i total st) = wrap64 (f total + f st)) →
  f zero_stats = 0 →
  f (sum_stats thr) = wrap64 (total_of (f ∘ stats) thr).
Proof.
  intros Hstep Hzero. unfold sum_stats.
  rewrite (sum_stats_loop_counter f Hstep) by (rewrite Hzero; done).
  by rewrite Hzero.
Qed.

Lemma sum_stats_rcodecounts thr :
  length (rcodecounts (sum_stats thr)) = 16%nat
  ∧ ∀ j, (j < 16)%nat →
         rcodecounts (sum_stats thr) !! j
         = Some (wrap64 (total_of (λ t, rcodecounts (stats t) !!! j) thr)).
Proof.
  unfold sum_stats.
  destruct (sum_stats_loop_rcodecounts thr 0 zero_stats) as [Hlen Hj].
  { done. }
  { intros j Hlt. cbn [zero_stats rcodecounts].
    rewrite lookup_total_replicate_2 by done. done. }
  split; [done|].
  intros j Hlt. rewrite list_lookup_lookup_total_lt by lia. f_equal.
  rewrite Hj by done. cbn [zero_stats rcodecounts].
  by rewrite lookup_total_replicate_2.
Qed.

(** X3: what [sum_stats] returns.  Each of the eight counters of the total
    is the sum of that counter over the threads, modulo 2^64; the total
    has 16 response-code counters, each the sum over the threads of the
    counter of that code, modulo 2^64; [latency_max] of the total is the
    greatest [latency_max] of the threads, and 0 when there is no
    thread. *)
Theorem sum_stats_totals thr :
  let total := sum_stats thr in
  num_sent total = wrap64 (total_of (num_sent ∘ stats) thr)
  ∧ num_interrupted total = wrap64 (total_of (num_interrupted ∘ stats) thr)
  ∧ num_timedout total = wrap64 (total_of (num_timedout ∘ stats) thr)
  ∧ num_completed total = wrap64 (total_of (num_completed ∘ stats) thr)
  ∧ total_request_size total = wrap64 (total_of (total_request_size ∘ stats) thr)
  ∧ total_response_size total = wrap64 (total_of (total_response_size ∘ stats) thr)
  ∧ latency_sum total = wrap64 (total_of (latency_sum ∘ stats) thr)
  ∧ latency_sum_squares total = wrap64 (total_of (latency_sum_squares ∘ stats) thr)
  ∧ length (rcodecounts total) = 16%nat
  ∧ (∀ j, (j < 16)%nat →
          rcodecounts total !! j
          = Some (wrap64 (total_of (λ t, rcodecounts (stats t) !!! j) thr)))
  ∧ latency_max total
    = foldr (λ t acc, Z.max (latency_max (stats t)) acc) 0 thr.
Proof.
  intros total. subst total.
  do 8 (split; [by apply sum_stats_counter|]).
  destruct (sum_stats_rcodecounts thr) as [Hlen Hj].
  split; [done|]. split; [done|]. apply sum_stats_loop_latency_max.
Qed.

Lemma foldl_min_least (a : Z) (l : list Z) :
  foldl Z.min a l = match least l with Some m => Z.min a m | None => a end.
Proof.
  revert a. unfold least. induction l as [|x l IH]; intros a; [done|].
  cbn [foldl foldr]. rewrite IH. destruct (foldr _ _ _); lia.
Qed.

Lemma least_Permutation (l1 l2 : list Z) : l1 ≡ₚ l2 → least l1 = least l2.
Proof.
  unfold least.
  induction 1 as [|x l1 l2 _ IH|x y l|l1 l2 l3 _ IH1 _ IH2]; cbn.
  - done.
  - by rewrite IH.
  - destruct (foldr _ _ _); f_equal; lia.
  - by rewrite IH1.
Qed.

(** The minimum [sum_stats] reports, for any number of threads. *)
Lemma sum_stats_least thr :
  latency_min (sum_stats thr) = default 0 (least (latency_min ∘ stats <$> thr)).
Proof.
  destruct thr as [|t thr]; [done|].
  rewrite sum_stats_latency_min, foldl_min_least. unfold least. cbn.
  by destruct (foldr _ _ _).
Qed.

Lemma foldr_max_Permutation (f : threadinfo_t → Z) thr1 thr2 :
  thr1 ≡ₚ thr2 →
  foldr (λ t acc, Z.max (f t) acc) 0 thr1 = foldr (λ t acc, Z.max (f t) acc) 0 thr2.
Proof.
  induction 1 as [|t l1 l2 _ IH|t1 t2 l|l1 l2 l3 _ IH1 _ IH2]; cbn.
  - done.
  - by rewrite IH.
  - lia.
  - by rewrite IH1.
Qed.

Lemma stats_eq (s1 s2 : stats_t) :
  rcodecounts s1 = rcodecounts s2 → num_sent s1 = num_sent s2 →
  num_interrupted s1 = num_interrupted s2 → num_timedout s1 = num_timedout s2 →
  num_completed s1 = num_completed s2 →
  total_request_size s1 = total_request_size s2 →
  total_response_size s1 = total_response_size s2 →
  latency_sum s1 = latency_sum s2 →
  latency_sum_squares s1 = latency_sum_squares s2 →
  latency_min s1 = latency_min s2 → latency_max s1 = latency_max s2 →
  s1 = s2.
Proof. destruct s1, s2. cbn. by intros -> -> -> -> -> -> -> -> -> -> ->. Qed.

(** X4: the totals do not depend on the order of the threads: for two
    arrangements of the same threads [sum_stats] returns the same
    [stats_t], field by field. *)
Theorem sum_stats_order_independent thr1 thr2 :
  thr1 ≡ₚ thr2 → sum_stats thr1 = sum_stats thr2.
Proof.
  intros Hperm.
  assert (∀ f : stats_t → Z,
            (∀ i total st, f (sum_stats_step i total st) = wrap64 (f total + f st)) →
            f zero_stats = 0 → f (sum_stats thr1) = f (sum_stats thr2)) as Hcounter.
  { intros f Hstep Hzero. rewrite !sum_stats_counter by done.
    f_equal. by apply total_of_Permutation. }
  apply stats_eq; try by apply Hcounter.
  - destruct (sum_stats_rcodecounts thr1) as [Len1 RC1].
    destruct (sum_stats_rcodecounts thr2) as [Len2 RC2].
    apply list_eq. intros j. destruct (decide (j < 16)%nat) as [Hlt|Hge].
    + rewrite RC1, RC2 by done. do 2 f_equal. by apply total_of_Permutation.
    + rewrite !lookup_ge_None_2 by lia. done.
  - rewrite !sum_stats_least. f_equal. apply least_Permutation.
    by apply fmap_Permutation.
  - unfold sum_stats. rewrite !sum_stats_loop_latency_max.
    by apply foldr_max_Permutation.
Qed.

Lemma sum_stats_order_independent_witness :
  sum_stats [thread_busy; thread_idle] = sum_stats [thread_idle; thread_busy].
Proof.
  apply (sum_stats_order_independent [thread_busy; thread_idle]
           [thread_idle; thread_busy]).
  apply Permutation_swap.
Defined.

(** ** The socket bitmap of the receiver *)

Lemma bit_check_testbit bits b :
  bit_check bits b = Z.testbit (bits !!! Z.to_nat (b / 8)) (7 - b mod 8).
Proof.
  unfold bit_check.
  pose proof (Z.mod_pos_bound b 8 ltac:(lia)) as Hmod.
  set (x := bits !!! Z.to_nat (b / 8)). set (s := 7 - b mod 8).
  change 1 with (Z.ones 1). rewrite Z.land_ones by lia.
  change (2 ^ 1) with 2. rewrite <- Z.bit0_mod, Z.shiftr_spec by lia.
  rewrite Z.add_0_l. by destruct (Z.testbit x s).
Qed.

Lemma bit_check_cleared b : 0 ≤ b < 256 → bit_check (replicate 32 0) b = false.
Proof.
  intros Hb. rewrite bit_check_testbit.
  assert (0 ≤ b / 8 < 32) as Hk
    by (split; [apply Z.div_pos|apply Z.div_lt_upper_bound]; lia).
  rewrite lookup_total_replicate_2 by lia. apply Z.bits_0.
Qed.

(** X5: the bitmap [socketbits] of [do_recv] (32 bytes, one bit per
    socket, most significant bit first).  After [bit_set] of bit [b],
    [bit_check] of a bit [b'] is true exactly if [b'] is [b] or was set
    before; the array keeps its 32 bytes, each below 256; and on the
    cleared array every [bit_check] is false. *)
Theorem bit_set_then_check bits b b' :
  length bits = 32%nat → Forall (λ x, 0 ≤ x < 256) bits →
  0 ≤ b < 256 → 0 ≤ b' < 256 →
  bit_check (bit_set bits b) b' = (bool_decide (b' = b) || bit_check bits b')
  ∧ length (bit_set bits b) = 32%nat
  ∧ Forall (λ x, 0 ≤ x < 256) (bit_set bits b)
  ∧ bit_check (replicate 32 0) b' = false.
Proof.
  intros Hlen Hbytes Hb Hb'.
  pose proof (Z.mod_pos_bound b 8 ltac:(lia)) as Hmod.
  pose proof (Z.mod_pos_bound b' 8 ltac:(lia)) as Hmod'.
  pose proof (Z.div_mod b 8 ltac:(lia)) as Hdm.
  pose proof (Z.div_mod b' 8 ltac:(lia)) as Hdm'.
  assert (0 ≤ b / 8 < 32) as Hk by (split; [apply Z.div_pos|apply Z.div_lt_upper_bound]; lia).
  assert (0 ≤ b' / 8 < 32) as Hk' by (split; [apply Z.div_pos|apply Z.div_lt_upper_bound]; lia).
  split; [|split; [|split]].
  - rewrite !bit_check_testbit. unfold bit_set. cbv zeta.
    destruct (decide (b' / 8 = b / 8)) as [Heq|Hne].
    + rewrite Heq, list_lookup_total_insert_eq by lia.
      change 256 with (2 ^ 8). rewrite Z.mod_pow2_bits_low by lia.
      rewrite Z.lor_spec, Z.shiftl_1_l, Z.pow2_bits_eqb by lia.
      destruct (decide (b' = b)) as [->|Hbb].
      * rewrite bool_decide_eq_true_2 by done. rewrite Z.eqb_refl.
        by rewrite orb_true_r.
      * rewrite bool_decide_eq_false_2 by done.
        rewrite (proj2 (Z.eqb_neq _ _)) by lia. by rewrite orb_false_r.
    + rewrite list_lookup_total_insert_ne by lia.
      rewrite bool_decide_eq_false_2; [done|]. intros ->. done.
  - unfold bit_set. cbv zeta. by rewrite length_insert.
  - unfold bit_set. cbv zeta. apply Forall_insert; [done|].
    apply Z.mod_pos_bound. lia.
  - by apply bit_check_cleared.
Qed.

Lemma bit_set_then_check_witness :
  bit_check (bit_set (replicate 32 0) 10) 10
  = (bool_decide (10 = 10) || bit_check (replicate 32 0) 10)
  ∧ length (bit_set (replicate 32 0) 10) = 32%nat
  ∧ Forall (λ x, 0 ≤ x < 256) (bit_set (replicate 32 0) 10)
  ∧ bit_check (replicate 32 0) 10 = false.
Proof.
  apply (bit_set_then_check (replicate 32 0) 10 10); try lia; [reflexivity|].
  apply Forall_replicate. lia.
Defined.

(** ** Receiving one packet *)

Lemma packet_byte_range buf k : 0 ≤ packet_byte buf k < 256.
Proof.
  unfold packet_byte. pose proof (Byte.to_N_bounded (default Byte.x00 (buf !! k))).
  lia.
Qed.

(** X6: a receipt filled by [recv_one] (the receive returned [n >= 0]).
    Its id is the big-endian value of the first two bytes of the packet, so
    it is below 65,536 and names a slot of every table that satisfies I1;
    its response code is the low four bits of the fourth byte; size and
    time are the ones of the receive; it is marked short exactly when fewer
    than 4 bytes arrived, and starts out not unexpected, with [sent = 0]
    and no description. *)
Theorem recv_one_receipt which_sock res :
  0 ≤ nr_n res →
  ∃ r, recv_one which_sock res = inl r
    ∧ qid r = 256 * packet_byte (nr_packet res) 0 + packet_byte (nr_packet res) 1
    ∧ 0 ≤ qid r < NQIDS
    ∧ (∀ t, slot_table_ok t → is_Some (get_query t (qid r)))
    ∧ rcode r = packet_byte (nr_packet res) 3 mod 16
    ∧ r_size r = nr_n res ∧ when r = nr_time res ∧ sent r = 0
    ∧ r_sock r = Some which_sock ∧ unexpected r = false ∧ r_desc r = None
    ∧ (short_response r = true ↔ nr_n res < 4).
Proof.
  intros Hn. unfold recv_one. rewrite bool_decide_eq_false_2 by lia.
  eexists. split; [reflexivity|].
  cbn [qid rcode r_size when sent r_sock unexpected r_desc short_response].
  pose proof (packet_byte_range (nr_packet res) 0) as H0.
  pose proof (packet_byte_range (nr_packet res) 1) as H1.
  assert (0 ≤ ntohs_header (nr_packet res) 0 < NQIDS) as Hqid.
  { unfold ntohs_header, NQIDS. cbn [Nat.mul Nat.add]. lia. }
  split; [reflexivity|]. split; [exact Hqid|].
  split.
  { intros t Hok. apply get_query_in_range; [apply (ok_size t Hok)|exact Hqid]. }
  split.
  { change 0xF with (Z.ones 4). rewrite Z.land_ones by lia.
    unfold ntohs_header. cbn [Nat.mul Nat.add].
    change (2 ^ 4) with 16.
    replace (256 * packet_byte (nr_packet res) 2 + packet_byte (nr_packet res) 3)
      with (packet_byte (nr_packet res) 3
            + (16 * packet_byte (nr_packet res) 2) * 16) by lia.
    apply Z_mod_plus_full. }
  repeat (split; [reflexivity|]).
  by rewrite bool_decide_eq_true.
Qed.

Lemma recv_one_receipt_witness :
  ∃ r, recv_one 0 answer_packet = inl r
    ∧ qid r = 256 * packet_byte (nr_packet answer_packet) 0
              + packet_byte (nr_packet answer_packet) 1
    ∧ 0 ≤ qid r < NQIDS
    ∧ (∀ t, slot_table_ok t → is_Some (get_query t (qid r)))
    ∧ rcode r = packet_byte (nr_packet answer_packet) 3 mod 16
    ∧ r_size r = nr_n answer_packet ∧ when r = nr_time answer_packet ∧ sent r = 0
    ∧ r_sock r = Some 0 ∧ unexpected r = false ∧ r_desc r = None
    ∧ (short_response r = true ↔ nr_n answer_packet < 4).
Proof. apply (recv_one_receipt 0 answer_packet). vm_compute. discriminate. Defined.

(** ** The receive loops of a batch *)

Section gather.

Context (net : nat → net_recv_t) (nsocks : Z).
Hypothesis nsocks_range : 0 < nsocks ≤ MAX_SOCKETS.

Lemma current_socket_range x : 0 ≤ wrap32 x mod nsocks < 256.
Proof.
  pose proof (Z.mod_pos_bound (wrap32 x) nsocks ltac:(lia)).
  unfold MAX_SOCKETS in nsocks_range. lia.
Qed.

Lemma recv_scan_recvd i n j g :
  length (g_recvd (recv_scan net nsocks i n j g).2) = length (g_recvd g)
  ∧ ∀ k, k ≠ i → g_recvd (recv_scan net nsocks i n j g).2 !! k = g_recvd g !! k.
Proof.
  revert j g. induction n as [|n IH]; intros j g; [done|].
  cbn [recv_scan]. destruct (bit_check _ _); [by apply IH|].
  destruct (recv_one _ _) as [r|e].
  - cbn. split; [by rewrite length_insert|].
    intros k Hk. by rewrite list_lookup_insert_ne.
  - case_decide; [|done].
    destruct (IH (j + 1) (mk_gather (g_recvd g) (Some e)
                            (bit_set (g_bits g) (wrap32 (j + g_last g) mod nsocks))
                            (g_last g) (S (g_calls g)))) as [IHlen IHk].
    done.
Qed.

Lemma recv_scan_errno_kept i n j g :
  g_errno g ≠ None → g_errno (recv_scan net nsocks i n j g).2 ≠ None.
Proof.
  revert j g. induction n as [|n IH]; intros j g Hg; [done|].
  cbn [recv_scan]. destruct (bit_check _ _); [by apply IH|].
  destruct (recv_one _ _) as [r|e]; [done|].
  case_decide; [by apply IH|done].
Qed.

Lemma recv_scan_errno_inv i n j g :
  errno_inv net g → errno_inv net (recv_scan net nsocks i n j g).2.
Proof.
  revert j g. induction n as [|n IH]; intros j g Hg; [done|].
  cbn [recv_scan]. destruct (bit_check _ _); [by apply IH|].
  destruct (recv_one _ _) as [r|e] eqn:Hrecv; [done|].
  assert (errno_inv net
            (mk_gather (g_recvd g) (Some e)
               (bit_set (g_bits g) (wrap32 (j + g_last g) mod nsocks))
               (g_last g) (S (g_calls g)))) as Hg'.
  { split; [done|]. cbn. intros e' [= <-]. exists (g_calls g).
    revert Hrecv. unfold recv_one. case_bool_decide; [|discriminate].
    intros [= <-]. split; [lia|done]. }
  case_decide; [by apply IH|done].
Qed.

Lemma recv_scan_le i n j g :
  (recv_scan net nsocks i n j g).1 ≤ j + Z.of_nat n.
Proof.
  revert j g. induction n as [|n IH]; intros j g; [cbn; lia|].
  cbn [recv_scan]. destruct (bit_check _ _).
  - specialize (IH (j + 1) g). lia.
  - destruct (recv_one _ _) as [r|e]; [cbn; lia|].
    case_decide; [|cbn; lia].
    specialize (IH (j + 1)
      (mk_gather (g_recvd g) (Some e)
         (bit_set (g_bits g) (wrap32 (j + g_last g) mod nsocks))
         (g_last g) (S (g_calls g)))). lia.
Qed.

(** A scan that runs through all the sockets it was given stored nothing
    and has seen a failed receive, in this scan or in an earlier one of
    the batch. *)
Lemma recv_scan_full i n j g :
  errno_inv net g →
  (recv_scan net nsocks i n j g).1 = j + Z.of_nat n →
  g_recvd (recv_scan net nsocks i n j g).2 = g_recvd g
  ∧ ((0 < n)%nat → g_errno (recv_scan net nsocks i n j g).2 ≠ None).
Proof.
  revert j g. induction n as [|n IH]; intros j g Hg; [cbn; split; [done|lia]|].
  cbn [recv_scan].
  destruct (bit_check _ _) eqn:Hbit.
  - intros Hfull.
    pose proof (recv_scan_le i n (j + 1) g) as Hle.
    destruct (IH (j + 1) g Hg) as [Hsame _]; [lia|].
    split; [done|]. intros _. apply recv_scan_errno_kept. intros Hnone.
    destruct Hg as [Hbits _]. rewrite (Hbits Hnone) in Hbit.
    rewrite bit_check_cleared in Hbit by apply current_socket_range. discriminate.
  - destruct (recv_one _ _) as [r|e] eqn:Hrecv; [cbn; lia|].
    case_decide; [|cbn; lia].
    set (g1 := mk_gather (g_recvd g) (Some e)
                 (bit_set (g_bits g) (wrap32 (j + g_last g) mod nsocks))
                 (g_last g) (S (g_calls g))).
    intros Hfull.
    pose proof (recv_scan_le i n (j + 1) g1) as Hle.
    assert (errno_inv net g1) as Hg1.
    { split; [done|]. cbn. intros e' [= <-]. exists (g_calls g).
      revert Hrecv. unfold recv_one. case_bool_decide; [|discriminate].
      intros [= <-]. split; [lia|done]. }
    destruct (IH (j + 1) g1 Hg1) as [Hsame _]; [lia|].
    split; [by rewrite Hsame|]. intros _. by apply recv_scan_errno_kept.
Qed.

Lemma recv_batch_spec n i g :
  errno_inv net g →
  let '(m, g') := recv_batch net nsocks n i g in
  (i ≤ m ≤ i + n)%nat
  ∧ length (g_recvd g') = length (g_recvd g)
  ∧ (∀ k, (k < i ∨ m ≤ k)%nat → g_recvd g' !! k = g_recvd g !! k)
  ∧ errno_inv net g'
  ∧ ((m < i + n)%nat → g_errno g' ≠ None).
Proof.
  revert i g. induction n as [|n IH]; intros i g Hg.
  { cbn. split; [lia|]. split; [done|]. split; [done|]. split; [done|lia]. }
  cbn [recv_batch].
  pose proof (recv_scan_recvd i (Z.to_nat nsocks) 0 g) as [Hlen Hk].
  pose proof (recv_scan_errno_inv i (Z.to_nat nsocks) 0 g Hg) as Hg1.
  pose proof (recv_scan_full i (Z.to_nat nsocks) 0 g Hg) as Hfull.
  destruct (recv_scan net nsocks i (Z.to_nat nsocks) 0 g) as [j g1] eqn:Hscan.
  cbn [fst snd] in *.
  case_decide as Hj.
  - destruct Hfull as [Hsame Herr]; [lia|].
    split; [lia|]. split; [done|]. split; [intros k _; by rewrite Hsame|].
    split; [done|]. intros _. apply Herr. lia.
  - specialize (IH (S i) g1 Hg1).
    destruct (recv_batch net nsocks n (S i) g1) as [m g'].
    destruct IH as (Hm & Hlen' & Hk' & Hg' & Hshort).
    split; [lia|]. split; [by rewrite Hlen'|]. split.
    { intros k Hki. rewrite Hk' by lia. apply Hk. lia. }
    split; [done|]. intros Hlt. apply Hshort. lia.
Qed.

End gather.

Lemma query_move_settings t q op t' :
  query_move t q op = Some t' → same_settings t t'.
Proof.
  unfold query_move. destruct (get_query t q) as [qi|]; [|discriminate].
  cbn. destruct (qlist qi) as [from|]; [|discriminate]. cbn.
  intros [= <-]. by destruct from, op.
Qed.

Lemma same_settings_trans t1 t2 t3 :
  same_settings t1 t2 → same_settings t2 t3 → same_settings t1 t3.
Proof.
  unfold same_settings. intros (-> & -> & -> & -> & ->) (-> & -> & -> & -> & ->).
  done.
Qed.

Lemma process_timeouts_loop_settings fuel config t q now t' :
  process_timeouts_loop fuel config t q now = Some t' → same_settings t t'.
Proof.
  revert t q. induction fuel as [|fuel IH]; intros t q; [discriminate|].
  cbn [process_timeouts_loop].
  destruct (query_move t q append_unused) as [t1|] eqn:Hmove; [|discriminate].
  apply query_move_settings in Hmove. cbn [mbind option_bind].
  assert (same_settings t (with_stats inc_timedout t1)) as Hset by exact Hmove.
  destruct (ISC_LIST_TAIL _) as [q'|]; [|by intros [= <-]].
  destruct (get_query _ q') as [qi'|]; [|discriminate]. cbn [mbind option_bind].
  destruct (timeout_next config now qi'); [|by intros [= <-]].
  intros Hrun. apply (same_settings_trans _ _ _ Hset). by apply (IH _ _ Hrun).
Qed.

Lemma process_timeouts_settings config t now t' :
  process_timeouts config t now = Some t' → same_settings t t'.
Proof.
  unfold process_timeouts.
  destruct (ISC_LIST_TAIL _) as [q|]; [|by intros [= <-]].
  destruct (get_query t q) as [qi|]; [|discriminate]. cbn [mbind option_bind].
  destruct (timeout_first config now qi); [|by intros [= <-]].
  apply process_timeouts_loop_settings.
Qed.

Lemma errno_inv_start net recvd last :
  errno_inv net (mk_gather recvd None (replicate 32 0) last 0).
Proof. split; [done|]. cbn. discriminate. Qed.

(** X7: the receive loops of one turn of [do_recv], for a thread with
    between 1 and 256 sockets.  A batch counts at most 16 entries; [recvd]
    keeps its length and the entries from [nrecvd] on are not touched; and
    when the batch ends with fewer than 16 entries, [saved_errno] holds
    the [errno] of a [perf_net_recv] of this batch that failed. *)
Theorem recv_batch_bounds net t st :
  0 < nsocks t ≤ MAX_SOCKETS →
  let '(nrecvd, g) := do_recv_gather net t st in
  (nrecvd ≤ RECV_BATCH_SIZE)%nat
  ∧ length (g_recvd g) = length (rs_recvd st)
  ∧ (∀ k, (nrecvd ≤ k)%nat → g_recvd g !! k = rs_recvd st !! k)
  ∧ ((nrecvd < RECV_BATCH_SIZE)%nat →
     ∃ e k, g_errno g = Some e ∧ nr_n (net k) < 0 ∧ nr_errno (net k) = e).
Proof.
  intros Hns. unfold do_recv_gather.
  pose proof (recv_batch_spec net (nsocks t) Hns RECV_BATCH_SIZE 0 _
                (errno_inv_start net (rs_recvd st) (rs_last_socket st))) as Hspec.
  destruct (recv_batch _ _ _ _ _) as [m g].
  destruct Hspec as (Hm & Hlen & Hk & [_ Hprov] & Hshort).
  split; [lia|]. split; [done|]. split; [intros k Hmk; apply Hk; lia|].
  intros Hlt. destruct (g_errno g) as [e|] eqn:He.
  - destruct (Hprov e eq_refl) as (k & Hn & Herr). by exists e, k.
  - exfalso. apply Hshort; [lia|done].
Qed.

Lemma recv_batch_bounds_witness :
  ∃ nrecvd g,
    do_recv_gather net_refused thread_started recv_started = (nrecvd, g)
    ∧ (nrecvd ≤ RECV_BATCH_SIZE)%nat
    ∧ length (g_recvd g) = length (rs_recvd recv_started)
    ∧ (∀ k, (nrecvd ≤ k)%nat → g_recvd g !! k = rs_recvd recv_started !! k)
    ∧ ((nrecvd < RECV_BATCH_SIZE)%nat →
       ∃ e k, g_errno g = Some e ∧ nr_n (net_refused k) < 0
              ∧ nr_errno (net_refused k) = e).
Proof.
  pose proof (recv_batch_bounds net_refused thread_started recv_started) as Hbounds.
  destruct (do_recv_gather net_refused thread_started recv_started) as [nrecvd g].
  exists nrecvd, g. split; [reflexivity|]. apply Hbounds.
  change (nsocks thread_started) with 1. unfold MAX_SOCKETS. lia.
Defined.

(** X8: a turn of [do_recv] ends in the fatal branch ("failed to receive
    packet") only after a [perf_net_recv] of its batch failed with an
    [errno] other than [EAGAIN] and [EINTR]. *)
Theorem do_recv_fatal_only_on_error config net clock st :
  0 < nsocks (rs_tinfo st) ≤ MAX_SOCKETS →
  snd <$> do_recv_body config net clock st = Some recv_fatal →
  ∃ k, nr_n (net k) < 0 ∧ nr_errno (net k) ≠ EAGAIN ∧ nr_errno (net k) ≠ EINTR.
Proof.
  intros Hns. unfold do_recv_body.
  destruct (process_timeouts config (rs_tinfo st) (rs_now st)) as [t1|] eqn:Hsweep;
    [|discriminate].
  cbn [mbind option_bind].
  apply process_timeouts_settings in Hsweep as (Hns1 & _).
  destruct (done_sending t1 && _); [discriminate|].
  assert (0 < nsocks t1 ≤ MAX_SOCKETS) as Hns' by (by rewrite Hns1).
  pose proof (recv_batch_spec net (nsocks t1) Hns' RECV_BATCH_SIZE 0 _
                (errno_inv_start net (rs_recvd st) (rs_last_socket st))) as Hbatch.
  fold (do_recv_gather net t1 st) in Hbatch.
  destruct (do_recv_gather net t1 st) as [nrecvd g].
  destruct Hbatch as (_ & _ & _ & [_ Hprov] & Hnone).
  destruct (correlate t1 _) as [[t2 batch]|]; [|discriminate].
  cbn [mbind option_bind].
  destruct (account t2 batch) as [t3|]; [|discriminate].
  cbn [mbind option_bind].
  case_bool_decide as Hshort; [|discriminate].
  destruct (g_errno g) as [e|] eqn:He; [|by destruct (Hnone ltac:(lia))].
  destruct (Hprov e eq_refl) as (k & Hn & Herr).
  destruct e; try discriminate; intros _; exists k; rewrite Herr; done.
Qed.

Lemma do_recv_fatal_only_on_error_witness :
  ∃ k, nr_n (net_refused k) < 0 ∧ nr_errno (net_refused k) ≠ EAGAIN
       ∧ nr_errno (net_refused k) ≠ EINTR.
Proof.
  apply (do_recv_fatal_only_on_error default_config net_refused 2000 recv_started).
  - change (nsocks (rs_tinfo recv_started)) with 1. unfold MAX_SOCKETS. lia.
  - vm_compute. reflexivity.
Defined.

Section gather_entries.

Context (net : nat → net_recv_t) (nsocks : Z).

Lemma recv_scan_first_error i n j g :
  g_bits g = replicate 32 0 → 0 < nsocks ≤ MAX_SOCKETS →
  nr_n (net (g_calls g)) < 0 → nr_errno (net (g_calls g)) ≠ EAGAIN →
  (recv_scan net nsocks i (S n) j g).1 = j
  ∧ g_recvd (recv_scan net nsocks i (S n) j g).2 = g_recvd g.
Proof.
  intros Hbits Hns Hn He. cbn [recv_scan].
  rewrite Hbits, bit_check_cleared by by apply current_socket_range.
  unfold recv_one. rewrite bool_decide_eq_true_2 by done.
  by rewrite decide_False.
Qed.

Lemma recv_batch_S n i g :
  recv_batch net nsocks (S n) i g
  = let '(j, g') := recv_scan net nsocks i (Z.to_nat nsocks) 0 g in
    if decide (j = nsocks) then (i, g') else recv_batch net nsocks n (S i) g'.
Proof. reflexivity. Qed.

Lemma recv_batch_from n i g :
  (i ≤ (recv_batch net nsocks n i g).1)%nat
  ∧ ∀ k, (k < i)%nat → g_recvd (recv_batch net nsocks n i g).2 !! k = g_recvd g !! k.
Proof.
  revert i g. induction n as [|n IH]; intros i g; [done|].
  cbn [recv_batch].
  pose proof (recv_scan_recvd net nsocks i (Z.to_nat nsocks) 0 g) as [_ Hk].
  destruct (recv_scan net nsocks i (Z.to_nat nsocks) 0 g) as [j g1].
  cbn [snd] in Hk.
  case_decide.
  - cbn. split; [lia|]. intros k Hki. apply Hk. lia.
  - destruct (IH (S i) g1) as [Hm Hk']. split; [lia|].
    intros k Hki. rewrite Hk' by lia. apply Hk. lia.
Qed.

(** When receives fail with [EAGAIN] only, a scan that stops early has
    stored a filled entry at [i]. *)
Lemma recv_scan_filled i n j g :
  (∀ k, nr_n (net k) < 0 → nr_errno (net k) = EAGAIN) →
  (recv_scan net nsocks i n j g).1 ≠ j + Z.of_nat n →
  ∃ r, filled net r
       ∧ g_recvd (recv_scan net nsocks i n j g).2 = <[i := r]> (g_recvd g).
Proof.
  intros Hagain. revert j g. induction n as [|n IH]; intros j g.
  { cbn. lia. }
  cbn [recv_scan]. destruct (bit_check _ _).
  - intros Hj. apply IH. lia.
  - destruct (recv_one _ _) as [r|e] eqn:Hrecv.
    + intros _. exists r. split; [by eexists _, _|done].
    + assert (e = EAGAIN) as ->.
      { revert Hrecv. unfold recv_one. case_bool_decide; [|discriminate].
        intros [= <-]. by apply Hagain. }
      rewrite decide_True by done. intros Hj.
      destruct (IH (j + 1)
                  (mk_gather (g_recvd g) (Some EAGAIN)
                     (bit_set (g_bits g) (wrap32 (j + g_last g) mod nsocks))
                     (g_last g) (S (g_calls g)))) as (r & Hr & Hstore); [lia|].
      by exists r.
Qed.

Lemma recv_batch_filled n i g :
  (∀ k, nr_n (net k) < 0 → nr_errno (net k) = EAGAIN) → 0 ≤ nsocks →
  ∀ k r, (i ≤ k < (recv_batch net nsocks n i g).1)%nat →
         g_recvd (recv_batch net nsocks n i g).2 !! k = Some r → filled net r.
Proof.
  intros Hagain Hns. revert i g. induction n as [|n IH]; intros i g k r.
  { cbn. lia. }
  cbn [recv_batch].
  pose proof (recv_scan_filled i (Z.to_nat nsocks) 0 g Hagain) as Hfill.
  destruct (recv_scan net nsocks i (Z.to_nat nsocks) 0 g) as [j g1].
  cbn [fst snd] in Hfill.
  case_decide as Hj; [cbn; lia|].
  destruct Hfill as (r0 & Hr0 & Hstore); [lia|].
  intros Hk Hlook. destruct (decide (k = i)) as [->|Hne].
  - destruct (recv_batch_from n (S i) g1) as [_ Hbelow].
    rewrite Hbelow, Hstore in Hlook by lia.
    apply list_lookup_insert_Some in Hlook as [(_ & <- & _)|[? _]]; done.
  - apply (IH (S i) g1 k r); [lia|done].
Qed.

End gather_entries.

Lemma do_recv_gather_filled net t st :
  0 ≤ nsocks t → (∀ k, nr_n (net k) < 0 → nr_errno (net k) = EAGAIN) →
  Forall (filled net)
    (take (do_recv_gather net t st).1 (g_recvd (do_recv_gather net t st).2)).
Proof.
  intros Hns Hagain. unfold do_recv_gather.
  pose proof (recv_batch_filled net (nsocks t) RECV_BATCH_SIZE 0
                (mk_gather (rs_recvd st) None (replicate 32 0) (rs_last_socket st) 0)
                Hagain Hns) as Hfilled.
  destruct (recv_batch _ _ _ _ _) as [m g]. cbn [fst snd] in *.
  apply Forall_lookup. intros k r Hlook.
  apply lookup_take_Some in Hlook as [Hlook Hk].
  apply (Hfilled k r); [lia|done].
Qed.

(** X9: an error of [perf_net_recv] other than [EAGAIN] makes the batch
    count an entry that was not filled.  If the first receive of a turn
    fails with such an [errno] (say [EINTR]), the batch still counts at
    least one entry, and entry 0 of [recvd] is what it was before the
    turn; by contrast, when every failed receive of the batch has
    [EAGAIN], each counted entry was filled by [recv_one] from a receive
    of this batch. *)
Theorem recv_error_counts_unfilled_entry net t st :
  0 < nsocks t ≤ MAX_SOCKETS →
  let '(nrecvd, g) := do_recv_gather net t st in
  (nr_n (net 0%nat) < 0 → nr_errno (net 0%nat) ≠ EAGAIN →
   (1 ≤ nrecvd)%nat ∧ g_recvd g !! 0%nat = rs_recvd st !! 0%nat)
  ∧ ((∀ k, nr_n (net k) < 0 → nr_errno (net k) = EAGAIN) →
     Forall (filled net) (take nrecvd (g_recvd g))).
Proof.
  intros Hns. unfold do_recv_gather.
  set (g0 := mk_gather (rs_recvd st) None (replicate 32 0) (rs_last_socket st) 0).
  pose proof (do_recv_gather_filled net t st ltac:(lia)) as Hfilled.
  unfold do_recv_gather in Hfilled. fold g0 in Hfilled.
  assert (nr_n (net 0%nat) < 0 → nr_errno (net 0%nat) ≠ EAGAIN →
          (1 ≤ (recv_batch net (nsocks t) RECV_BATCH_SIZE 0 g0).1)%nat
          ∧ g_recvd (recv_batch net (nsocks t) RECV_BATCH_SIZE 0 g0).2 !! 0%nat
            = rs_recvd st !! 0%nat) as Hstale.
  { intros Hn He. unfold RECV_BATCH_SIZE. rewrite recv_batch_S.
    assert (Z.to_nat (nsocks t) = S (Nat.pred (Z.to_nat (nsocks t)))) as Hsucc by lia.
    rewrite Hsucc.
    pose proof (recv_scan_first_error net (nsocks t) 0 (Nat.pred (Z.to_nat (nsocks t)))
                  0 g0 eq_refl Hns Hn He) as [Hj Hsame].
    destruct (recv_scan _ _ _ _ _ _) as [j g1]. cbn [fst snd] in Hj, Hsame.
    rewrite decide_False by lia.
    destruct (recv_batch_from net (nsocks t) 15 1 g1) as [Hm Hbelow].
    split; [done|]. rewrite (Hbelow 0%nat) by (clear; lia). by rewrite Hsame. }
  destruct (recv_batch _ _ _ _ _) as [m g]. cbn [fst snd] in *.
  split; [exact Hstale|exact Hfilled].
Qed.

Lemma recv_error_counts_unfilled_entry_witness :
  ∃ nrecvd g,
    do_recv_gather net_interrupted thread_started recv_started = (nrecvd, g)
    ∧ (nr_n (net_interrupted 0%nat) < 0 → nr_errno (net_interrupted 0%nat) ≠ EAGAIN →
       (1 ≤ nrecvd)%nat ∧ g_recvd g !! 0%nat = rs_recvd recv_started !! 0%nat)
    ∧ ((∀ k, nr_n (net_interrupted k) < 0 → nr_errno (net_interrupted k) = EAGAIN) →
       Forall (filled net_interrupted) (take nrecvd (g_recvd g))).
Proof.
  pose proof (recv_error_counts_unfilled_entry net_interrupted thread_started
                recv_started) as Hstale.
  destruct (do_recv_gather net_interrupted thread_started recv_started)
    as [nrecvd g].
  exists nrecvd, g. split; [reflexivity|]. apply Hstale.
  change (nsocks thread_started) with 1. unfold MAX_SOCKETS. lia.
Defined.

(** ** Correlating answers with slots *)

(** An answer whose id names a slot on the unused list is flagged and
    changes nothing. *)
Lemma correlate_one_unused t r :
  slot_table_ok t → qid r ∈ unused_queries t → short_response r = false →
  correlate_one t r = Some (t, flagged r) ∧ account_one t (flagged r) = Some t.
Proof.
  intros Hok Hin Hshort. unfold correlate_one, account_one. rewrite Hshort.
  pose proof (ok_unused t Hok _ Hin) as Htag.
  destruct (get_query t (qid r)) as [qi|]; [|discriminate].
  cbn in Htag. injection Htag as Htag. cbn [mbind option_bind].
  rewrite bool_decide_eq_true_2 by (rewrite Htag; discriminate).
  cbn. unfold flagged. by rewrite Hshort.
Qed.

Lemma correlate_one_cases t r t' r' :
  slot_table_ok t → short_response r = false →
  correlate_one t r = Some (t', r') →
  (t' = t ∧ r' = flagged r)
  ∨ (qid r ∈ outstanding_queries t
     ∧ unused_queries t' = unused_queries t ++ [qid r]
     ∧ outstanding_queries t' = ISC_LIST_UNLINK (qid r) (outstanding_queries t)
     ∧ slot_table_ok t' ∧ stats t' = stats t
     ∧ unexpected r' = unexpected r ∧ short_response r' = false
     ∧ sent r' = slot_time t (qid r) ∧ when r' = when r
     ∧ is_sent t (qid r) = true
     ∧ (∀ x, timestamp <$> get_query t' x = timestamp <$> get_query t x)
     ∧ (∀ x, x ≠ qid r → get_query t' x = get_query t x)).
Proof.
  intros Hok Hshort. unfold correlate_one. rewrite Hshort.
  destruct (get_query t (qid r)) as [qi|] eqn:Hqi; [|discriminate].
  cbn [mbind option_bind].
  assert (mk_received (r_sock r) (qid r) (rcode r) (r_size r) (when r) (sent r)
            true false (r_desc r) = flagged r) as Hflag.
  { unfold flagged. by rewrite Hshort. }
  case_bool_decide as Htag; [cbn; intros [= <- <-]; by left|].
  case_bool_decide as Hts; [cbn; intros [= <- <-]; by left|].
  destruct (sock qi) as [a|]; [|discriminate].
  destruct (r_sock r) as [b|]; [|discriminate]. cbn [mbind option_bind].
  case_bool_decide as Hsock; [intros [= <- <-]; by left|].
  assert (0 ≤ qid r < NQIDS) as Hq.
  { apply get_query_Some in Hqi as [Hq Hl]. apply lookup_lt_Some in Hl.
    rewrite (ok_size t Hok) in Hl. lia. }
  rewrite (query_move_moved t _ append_unused Hok Hq).
  set (tm := moved t (qid r) append_unused). cbn [mbind option_bind].
  intros [= <- <-]. subst tm. right.
  assert (qid r ∈ outstanding_queries t) as Hin.
  { apply (slot_table_elem t _ Hok) in Hq as [Hin|Hin]; [done|].
    pose proof (ok_unused t Hok _ Hin) as Hu. rewrite Hqi in Hu.
    cbn in Hu. injection Hu as Hu. congruence. }
  assert (qid r ∉ unused_queries t) as Hnin.
  { pose proof (slot_table_NoDup t Hok) as Hnd.
    apply NoDup_app in Hnd as (_ & Hdisj & _). by apply Hdisj. }
  split; [done|].
  split.
  { change (unused_queries (upd_query (qid r) (with_desc None)
                              (moved t (qid r) append_unused)))
      with (unused_queries (moved t (qid r) append_unused)).
    rewrite unused_moved. by rewrite unlink_absent. }
  split.
  { change (outstanding_queries (upd_query (qid r) (with_desc None)
                                   (moved t (qid r) append_unused)))
      with (outstanding_queries (moved t (qid r) append_unused)).
    by rewrite outstanding_moved. }
  split.
  { apply upd_query_ok; [done|lia|]. by apply moved_ok. }
  split.
  { change (stats (upd_query (qid r) (with_desc None)
                     (moved t (qid r) append_unused)))
      with (stats (moved t (qid r) append_unused)).
    apply stats_moved. }
  cbn [unexpected short_response sent when].
  split; [done|]. split; [done|].
  split; [unfold slot_time; by rewrite Hqi|]. split; [done|].
  split.
  { unfold is_sent. rewrite Hqi. cbn. apply bool_decide_eq_true_2.
    intros [= Heq]. apply Hts. done. }
  assert (∀ x, x ≠ qid r →
               get_query (upd_query (qid r) (with_desc None)
                            (moved t (qid r) append_unused)) x
               = get_query t x) as Hother.
  { intros x Hne. rewrite get_query_upd_ne by lia. rewrite get_query_moved by lia.
    by rewrite decide_False. }
  split; [|exact Hother].
  intros x. destruct (decide (x = qid r)) as [->|Hne].
  - assert (get_query (moved t (qid r) append_unused) (qid r)
            = Some (with_qlist (Some unused_list) qi)) as Hmv.
    { rewrite get_query_moved by lia. rewrite decide_True by done.
      by rewrite Hqi. }
    rewrite (get_query_upd_eq _ _ _ _ Hmv), Hqi. done.
  - by rewrite Hother.
Qed.

(** An answer whose id names a slot that is in flight on the socket the
    answer arrives on is taken as the answer to that query. *)
Lemma correlate_one_matched t r qi s :
  slot_table_ok t → short_response r = false → unexpected r = false →
  get_query t (qid r) = Some qi → qlist qi = Some outstanding_list →
  timestamp qi ≠ ISC_UINT64_MAX → sock qi = Some s → r_sock r = Some s →
  ∃ t' r', correlate_one t r = Some (t', r')
    ∧ unexpected r' = false ∧ sent r' = timestamp qi ∧ counted r' = true
    ∧ unused_queries t' = unused_queries t ++ [qid r]
    ∧ outstanding_queries t' = ISC_LIST_UNLINK (qid r) (outstanding_queries t).
Proof.
  intros Hok Hshort Hexp Hqi Htag Hts Hsock Hrsock.
  assert (0 ≤ qid r < NQIDS) as Hq.
  { apply get_query_Some in Hqi as [Hq Hl]. apply lookup_lt_Some in Hl.
    rewrite (ok_size t Hok) in Hl. lia. }
  assert (∃ t' r', correlate_one t r = Some (t', r') ∧ unexpected r' = false)
    as (t' & r' & Hrun & Hexp').
  { unfold correlate_one. rewrite Hshort, Hqi. cbn [mbind option_bind].
    rewrite (bool_decide_eq_false_2 (qlist qi ≠ Some outstanding_list))
      by (intros Hne; by apply Hne).
    rewrite (bool_decide_eq_false_2 (timestamp qi = ISC_UINT64_MAX)) by done.
    rewrite Hsock, Hrsock. cbn [mbind option_bind].
    rewrite (bool_decide_eq_false_2 (s ≠ s)) by (intros Hne; by apply Hne).
    rewrite (query_move_moved t _ append_unused Hok Hq).
    cbn [mbind option_bind]. eexists _, _. split; [reflexivity|]. exact Hexp. }
  exists t', r'. split; [exact Hrun|].
  destruct (correlate_one_cases t r t' r' Hok Hshort Hrun)
    as [[_ ->]|(_ & Hun & Hout & _ & _ & _ & Hshort' & Hsent & _)];
    [discriminate|].
  split; [done|].
  split; [rewrite Hsent; unfold slot_time; by rewrite Hqi|].
  split; [unfold counted; by rewrite Hshort', Hexp'|]. done.
Qed.

(** X10: an answer (not short) whose query was reclaimed by the timeout
    sweep is flagged as unexpected, leaves the thread as it is and is
    skipped by the counting loop, when it is processed in the state the
    sweep returns or in any later state in which the slot is still on the
    unused list.  Once the id is in flight again (the slot is outstanding,
    stamped, and its socket is the one the answer arrives on), the same
    late answer is taken as the answer to the new query: it is not
    flagged, gets the timestamp of the new query as [sent], the slot goes
    to the tail of the unused list, and the counting loop counts it. *)
Theorem late_response_is_unexpected config now t r :
  slot_table_ok t → qid r ∈ swept config now t → short_response r = false →
  ∃ t', process_timeouts config t now = Some t'
    ∧ correlate_one t' r = Some (t', flagged r)
    ∧ account_one t' (flagged r) = Some t'
    ∧ (∀ T, slot_table_ok T → qid r ∈ unused_queries T →
            correlate_one T r = Some (T, flagged r)
            ∧ account_one T (flagged r) = Some T)
    ∧ (∀ T qi s,
         slot_table_ok T → unexpected r = false →
         get_query T (qid r) = Some qi → qlist qi = Some outstanding_list →
         timestamp qi ≠ ISC_UINT64_MAX → sock qi = Some s → r_sock r = Some s →
         ∃ T' r', correlate_one T r = Some (T', r')
           ∧ unexpected r' = false ∧ sent r' = timestamp qi ∧ counted r' = true
           ∧ unused_queries T' = unused_queries T ++ [qid r]).
Proof.
  intros Hok Hin Hshort.
  destruct (process_timeouts_spec config now t Hok)
    as (t' & Hrun & Hok' & _ & Hun & _).
  exists t'. split; [done|].
  assert (qid r ∈ unused_queries t') as Hin'.
  { rewrite Hun. apply elem_of_app. by right. }
  destruct (correlate_one_unused t' r Hok' Hin' Hshort) as [Hflag Hskip].
  split; [done|]. split; [done|]. split.
  - intros T HokT HinT. by apply correlate_one_unused.
  - intros T qi s HokT Hexp Hqi Htag Hts Hsock Hrsock.
    destruct (correlate_one_matched T r qi s HokT Hshort Hexp Hqi Htag Hts
                Hsock Hrsock)
      as (T' & r' & Hmatch & Hexp' & Hsent & Hcount & HunT & _).
    by exists T', r'.
Qed.

(** X11: once an answer was taken as the answer to a query (it was
    correlated and not flagged as unexpected), the slot is on the unused
    list; a further answer with the same id that is processed in that
    state (the next entries of the batch), or in any later state in which
    the slot is still on the unused list, is flagged as unexpected, leaves
    the thread as it is and is skipped by the counting loop.  So until the
    sender takes the id again a duplicate is not counted. *)
Theorem duplicate_response_counted_once t r1 r2 t1 r1' :
  slot_table_ok t → short_response r1 = false → short_response r2 = false →
  qid r2 = qid r1 →
  correlate_one t r1 = Some (t1, r1') → unexpected r1' = false →
  qid r1 ∈ unused_queries t1
  ∧ correlate_one t1 r2 = Some (t1, flagged r2)
  ∧ account_one t1 (flagged r2) = Some t1
  ∧ counted (flagged r2) = false
  ∧ (∀ T, slot_table_ok T → qid r1 ∈ unused_queries T →
          correlate_one T r2 = Some (T, flagged r2)
          ∧ account_one T (flagged r2) = Some T).
Proof.
  intros Hok Hs1 Hs2 Hqid Hc1 Hu1.
  destruct (correlate_one_cases t r1 t1 r1' Hok Hs1 Hc1)
    as [[_ ->]|(Hin & Hun & _ & Hok1 & _)]; [discriminate|].
  assert (qid r1 ∈ unused_queries t1) as Hin1.
  { rewrite Hun. apply elem_of_app. right. by apply list_elem_of_singleton. }
  destruct (correlate_one_unused t1 r2 Hok1) as [Hflag Hacc]; [by rewrite Hqid|done|].
  split; [done|]. split; [done|]. split; [done|].
  split; [unfold counted; cbn; by rewrite andb_false_r|].
  intros T HokT HinT. apply correlate_one_unused; [done|by rewrite Hqid|done].
Qed.

Lemma thread_on_wire_ok : slot_table_ok thread_on_wire.
Proof.
  apply with_stats_ok. apply upd_query_ok; [done|done|].
  apply stamp_ok; [|done]. apply acquire_ok; [|done]. apply thread_started_ok.
Qed.

Lemma late_response_is_unexpected_witness :
  ∃ t', process_timeouts default_config thread_on_wire 7000000 = Some t'
    ∧ correlate_one t' answer_first = Some (t', flagged answer_first)
    ∧ account_one t' (flagged answer_first) = Some t'
    ∧ ∃ T' r', correlate_one thread_reused answer_first = Some (T', r')
        ∧ unexpected r' = false ∧ sent r' = 8000000 ∧ counted r' = true
        ∧ unused_queries T' = unused_queries thread_reused ++ [qid answer_first].
Proof.
  destruct (late_response_is_unexpected default_config 7000000 thread_on_wire
              answer_first)
    as (t' & Hsweep & Hflag & Hskip & _ & Hagain).
  - apply thread_on_wire_ok.
  - assert (swept default_config 7000000 thread_on_wire = [0]) as ->
      by (vm_compute; reflexivity).
    by left.
  - reflexivity.
  - exists t'. split; [exact Hsweep|]. split; [exact Hflag|].
    split; [exact Hskip|].
    apply (Hagain thread_reused
             (mk_query 8000000 (Some outstanding_list) None (Some 0)) 0).
    + apply stamp_ok; [apply thread_on_wire_ok|done].
    + reflexivity.
    + vm_compute. reflexivity.
    + reflexivity.
    + vm_compute. discriminate.
    + reflexivity.
    + reflexivity.
Defined.

Lemma duplicate_response_counted_once_witness :
  ∃ t1, (fst <$> correlate_one thread_on_wire answer_first) = Some t1
    ∧ qid answer_first ∈ unused_queries t1
    ∧ correlate_one t1 answer_second = Some (t1, flagged answer_second)
    ∧ account_one t1 (flagged answer_second) = Some t1
    ∧ counted (flagged answer_second) = false.
Proof.
  assert (unexpected ∘ snd <$> correlate_one thread_on_wire answer_first
          = Some false) as Hu by (vm_compute; reflexivity).
  destruct (correlate_one thread_on_wire answer_first) as [[t1 r1']|] eqn:Hc1;
    [|discriminate].
  exists t1. split; [reflexivity|].
  destruct (duplicate_response_counted_once thread_on_wire answer_first
              answer_second t1 r1')
    as (Hin & Hflag & Hskip & Hcount & _); try reflexivity.
  - apply thread_on_wire_ok.
  - exact Hc1.
  - cbn in Hu. by injection Hu.
  - done.
Defined.

(** ** Counting completed queries *)

Lemma sum_insert (l : list Z) (i : nat) (c x : Z) :
  l !! i = Some c → foldr Z.add 0 (<[i := x]> l) = foldr Z.add 0 l - c + x.
Proof.
  revert i. induction l as [|y l IH]; intros i; [done|].
  destruct i as [|i].
  - cbn. intros [= ->]. lia.
  - change (<[S i := x]> (y :: l)) with (y :: <[i := x]> l).
    change ((y :: l) !! S i) with (l !! i).
    intros Hl. cbn [foldr]. rewrite (IH i Hl). lia.
Qed.

Lemma sum_lookup_le (l : list Z) (i : nat) (c : Z) :
  Forall (λ c, 0 ≤ c) l → l !! i = Some c → 0 ≤ c ≤ foldr Z.add 0 l.
Proof.
  intros Hl. revert i. induction Hl as [|y l Hy Hl IH]; intros i; [done|].
  assert (0 ≤ foldr Z.add 0 l) as Hsum.
  { clear -Hl. induction Hl; cbn; lia. }
  destruct i as [|i]; cbn.
  - intros [= ->]. lia.
  - intros Hi. specialize (IH i Hi). lia.
Qed.

Lemma record_latency_stats latency t : stats (record_latency latency t) = stats t.
Proof. unfold record_latency. by case_bool_decide. Qed.

Lemma account_one_skipped t r : counted r = false → account_one t r = Some t.
Proof.
  unfold counted, account_one.
  destruct (short_response r); [done|]. by destruct (unexpected r).
Qed.

Lemma account_one_counted t r t' :
  counted r = true → rcodes_ok (stats t) → num_completed (stats t) < 2 ^ 64 - 1 →
  account_one t r = Some t' →
  rcodes_ok (stats t')
  ∧ num_completed (stats t') = num_completed (stats t) + 1
  ∧ num_sent (stats t') = num_sent (stats t)
  ∧ num_timedout (stats t') = num_timedout (stats t)
  ∧ num_interrupted (stats t') = num_interrupted (stats t).
Proof.
  unfold counted, account_one. intros Hc [Hpos Hsum] Hlt.
  destruct (short_response r); [discriminate|].
  destruct (unexpected r); [discriminate|].
  rewrite record_latency_stats. unfold complete_stats, inc_rcode.
  case_decide as Hcode; [|discriminate].
  destruct (rcodecounts (stats t) !! Z.to_nat (rcode r)) as [c|] eqn:Hlook;
    [|discriminate].
  cbn [mbind option_bind]. intros [= <-].
  cbn [stats with_stats rcodecounts num_completed num_sent num_timedout
       num_interrupted].
  pose proof (sum_lookup_le _ _ _ Hpos Hlook) as Hc'.
  rewrite (wrap64_small (c + 1)) by lia.
  rewrite (wrap64_small (num_completed (stats t) + 1)) by lia.
  split; [|done]. unfold rcodes_ok. cbn [rcodecounts num_completed]. split.
  - apply Forall_insert; [done|lia].
  - rewrite (sum_insert _ _ c) by done. lia.
Qed.

(** X12: the counting loop of [do_recv].  While [num_completed] does not
    wrap, it grows by exactly the number of receipts of the batch that are
    neither short nor flagged as unexpected, the response-code counters
    stay non-negative and keep adding up to [num_completed], and
    [num_sent], [num_timedout] and [num_interrupted] are left alone. *)
Theorem completed_counts_add_up t rs t' :
  rcodes_ok (stats t) →
  num_completed (stats t) + Z.of_nat (length rs) < 2 ^ 64 →
  account t rs = Some t' →
  rcodes_ok (stats t')
  ∧ num_completed (stats t')
    = num_completed (stats t) + Z.of_nat (length (filter (λ r, counted r) rs))
  ∧ num_sent (stats t') = num_sent (stats t)
  ∧ num_timedout (stats t') = num_timedout (stats t)
  ∧ num_interrupted (stats t') = num_interrupted (stats t).
Proof.
  revert t. induction rs as [|r rs IH]; intros t Hok Hlt.
  { intros [= <-]. cbn. split; [done|]. split; [lia|done]. }
  cbn [account]. destruct (account_one t r) as [t1|] eqn:Hone; [|discriminate].
  cbn [mbind option_bind]. intros Hrest.
  cbn [length] in Hlt.
  destruct (counted r) eqn:Hc.
  - destruct (account_one_counted t r t1 Hc Hok ltac:(lia) Hone)
      as (Hok1 & Hn1 & Hs1 & Ht1 & Hi1).
    destruct (IH t1 Hok1 ltac:(lia) Hrest) as (Hok' & Hn' & Hs' & Ht' & Hi').
    split; [done|]. rewrite filter_cons_True by (by rewrite Hc).
    cbn [length]. repeat split; lia.
  - rewrite (account_one_skipped t r Hc) in Hone. injection Hone as <-.
    destruct (IH t Hok ltac:(lia) Hrest) as (Hok' & Hn' & Hs' & Ht' & Hi').
    split; [done|]. rewrite filter_cons_False by (rewrite Hc; cbn; tauto).
    repeat split; lia.
Qed.

Lemma rcodes_ok_zero : rcodes_ok zero_stats.
Proof. split; [apply Forall_replicate; lia|reflexivity]. Qed.

Lemma completed_counts_add_up_witness :
  ∃ t', account thread_on_wire [answer_600us; flagged answer_second] = Some t'
    ∧ rcodes_ok (stats t')
    ∧ num_completed (stats t')
      = num_completed (stats thread_on_wire)
        + Z.of_nat (length (filter (λ r, counted r)
                              [answer_600us; flagged answer_second]))
    ∧ num_sent (stats t') = num_sent (stats thread_on_wire)
    ∧ num_timedout (stats t') = num_timedout (stats thread_on_wire)
    ∧ num_interrupted (stats t') = num_interrupted (stats thread_on_wire).
Proof.
  assert (is_Some (account thread_on_wire [answer_600us; flagged answer_second]))
    as [t' Hacc].
  { assert ((λ _, ()) <$> account thread_on_wire
                            [answer_600us; flagged answer_second] = Some ()) as Hrun
      by (vm_compute; reflexivity).
    destruct (account _ _) as [t'|]; [by exists t'|discriminate]. }
  exists t'. split; [exact Hacc|].
  apply (completed_counts_add_up thread_on_wire _ t'); [| |exact Hacc].
  - split; [vm_compute; repeat constructor; discriminate|reflexivity].
  - vm_compute. reflexivity.
Defined.

(** ** The stored latencies *)





(** ** Invariant I2: [num_outstanding] counts the queries in flight *)

Lemma wrap64_sub_l a b : wrap64 (wrap64 a - b) = wrap64 (a - b).
Proof. unfold wrap64. apply Zminus_mod_idemp_l. Qed.

Lemma wrap64_sub_r a b : wrap64 (a - wrap64 b) = wrap64 (a - b).
Proof. unfold wrap64. apply Zminus_mod_idemp_r. Qed.

Lemma num_outstanding_alt s :
  num_outstanding s = wrap64 (num_sent s - num_completed s - num_timedout s).
Proof. unfold num_outstanding. apply wrap64_sub_l. Qed.

Lemma num_outstanding_inc_timedout s :
  num_outstanding (inc_timedout s) = wrap64 (num_outstanding s - 1).
Proof.
  rewrite !num_outstanding_alt. cbn [inc_timedout num_sent num_completed num_timedout].
  rewrite wrap64_sub_r, wrap64_sub_l. f_equal. lia.
Qed.

Lemma num_outstanding_iter_timedout n s :
  num_outstanding (Nat.iter n inc_timedout s)
  = wrap64 (num_outstanding s - Z.of_nat n).
Proof.
  induction n as [|n IH].
  - cbn. rewrite Z.sub_0_r, num_outstanding_alt.
    unfold wrap64. by rewrite Zmod_mod.
  - cbn [Nat.iter nat_rect]. fold (Nat.iter n inc_timedout s).
    rewrite num_outstanding_inc_timedout, IH, wrap64_sub_l. f_equal. lia.
Qed.

Lemma num_outstanding_count_sent len s :
  num_outstanding (count_sent len s) = wrap64 (num_outstanding s + 1).
Proof.
  rewrite !num_outstanding_alt. cbn [count_sent num_sent num_completed num_timedout].
  rewrite wrap64_add_l. rewrite <- Z.sub_add_distr, wrap64_sub_l.
  f_equal. lia.
Qed.

Lemma filter_ext_elem (P Q : Z → bool) (l : list Z) :
  (∀ x, x ∈ l → P x = Q x) → filter (λ x, P x) l = filter (λ x, Q x) l.
Proof.
  induction l as [|x l IH]; intros Hext; [done|].
  rewrite !filter_cons, (Hext x) by (by left).
  rewrite IH by (intros y Hy; apply Hext; by right). done.
Qed.

Lemma in_flight_le t : 0 ≤ in_flight t ≤ Z.of_nat (length (outstanding_queries t)).
Proof. unfold in_flight. pose proof (length_filter (λ q, is_sent t q) (outstanding_queries t)). lia. Qed.

Lemma in_flight_bound t : slot_table_ok t → 0 ≤ in_flight t ≤ NQIDS.
Proof.
  intros Hok. pose proof (in_flight_le t). pose proof (slot_table_length t Hok). lia.
Qed.

(** The outstanding list is the same and its slots kept their timestamps. *)
Lemma in_flight_same t t' :
  outstanding_queries t' = outstanding_queries t →
  (∀ x, x ∈ outstanding_queries t →
        timestamp <$> get_query t' x = timestamp <$> get_query t x) →
  in_flight t' = in_flight t.
Proof.
  intros Hout Hts. unfold in_flight. rewrite Hout.
  rewrite (filter_ext_elem (is_sent t') (is_sent t)); [done|].
  intros x Hx. apply is_sent_ext. by apply Hts.
Qed.

(** A slot was put in front of the outstanding list. *)
Lemma in_flight_cons t t' q :
  outstanding_queries t' = q :: outstanding_queries t →
  (∀ x, x ∈ outstanding_queries t →
        timestamp <$> get_query t' x = timestamp <$> get_query t x) →
  in_flight t' = (if is_sent t' q then 1 else 0) + in_flight t.
Proof.
  intros Hout Hts. unfold in_flight. rewrite Hout, filter_cons.
  rewrite (filter_ext_elem (is_sent t') (is_sent t) (outstanding_queries t)).
  2: { intros x Hx. apply is_sent_ext. by apply Hts. }
  destruct (is_sent t' q); cbn [length]; [|done].
  destruct (decide _) as [_|Hn]; cbn [length]; [lia|]. by destruct Hn.
Qed.

(** A sent slot left the outstanding list. *)
Lemma in_flight_unlink t t' q :
  NoDup (outstanding_queries t) → q ∈ outstanding_queries t →
  is_sent t q = true →
  outstanding_queries t' = ISC_LIST_UNLINK q (outstanding_queries t) →
  (∀ x, timestamp <$> get_query t' x = timestamp <$> get_query t x) →
  in_flight t' = in_flight t - 1.
Proof.
  intros Hnd Hin Hsent Hout Hts. unfold in_flight. rewrite Hout.
  rewrite (filter_is_sent_ext t t') by done.
  pose proof (unlink_present q _ Hnd Hin) as Hperm.
  assert (filter (λ x, is_sent t x) (outstanding_queries t)
          ≡ₚ q :: filter (λ x, is_sent t x)
                    (ISC_LIST_UNLINK q (outstanding_queries t))) as Hf.
  { rewrite Hperm at 1. rewrite filter_cons_True; [done|]. by rewrite Hsent. }
  rewrite (Permutation_length Hf). cbn [length]. lia.
Qed.

Lemma elem_of_run_while (p : Z → bool) (l : list Z) (x : Z) :
  x ∈ run_while p l → p x = true ∧ x ∈ l.
Proof.
  induction l as [|y l IH]; cbn; [by intros ?%elem_of_nil|].
  destruct (p y) eqn:Hy; [|by intros ?%elem_of_nil].
  intros [->|Hx]%elem_of_cons; [split; [done|by left]|].
  destruct (IH Hx). split; [done|by right].
Qed.

(** What the two tests of the sweep say about a slot that passes one of
    them. *)
Lemma swept_expired config now t q :
  q ∈ swept config now t →
  q ∈ outstanding_queries t
  ∧ ∃ qi, get_query t q = Some qi
      ∧ timestamp qi ≤ now
      ∧ wrap64 (now - timestamp qi) >= timeout config.
Proof.
  unfold swept. destruct (reverse (outstanding_queries t)) as [|q0 l] eqn:Hrev;
    [by intros ?%elem_of_nil|].
  assert (∀ x, x ∈ q0 :: l → x ∈ outstanding_queries t) as Hmem.
  { intros x Hx. rewrite <- Hrev in Hx. by rewrite elem_of_reverse in Hx. }
  destruct (expired_first config now t q0) eqn:Hfirst; [|by intros ?%elem_of_nil].
  intros [->|Hq]%elem_of_cons.
  - split; [apply Hmem; by left|].
    unfold expired_first in Hfirst.
    destruct (get_query t q0) as [qi|]; [|discriminate]. exists qi.
    split; [done|]. unfold timeout_first in Hfirst.
    apply negb_true_iff, orb_false_iff in Hfirst as [H1 H2].
    apply bool_decide_eq_false in H1, H2. lia.
  - apply elem_of_run_while in Hq as [Hnext Hq].
    split; [apply Hmem; by right|].
    unfold expired_next in Hnext.
    destruct (get_query t q) as [qi|]; [|discriminate]. exists qi.
    split; [done|]. unfold timeout_next in Hnext.
    apply andb_true_iff in Hnext as [H1 H2].
    apply bool_decide_eq_true in H1, H2. lia.
Qed.

(** The sweep reclaims sent slots only, and keeps I2. *)
Lemma sweep_in_flight config now t :
  slot_table_ok t → in_flight_ok t → now < ISC_UINT64_MAX →
  ∃ t', process_timeouts config t now = Some t'
    ∧ slot_table_ok t' ∧ in_flight_ok t' ∧ same_payload t t'
    ∧ unused_queries t' = unused_queries t ++ swept config now t
    ∧ in_flight t' = in_flight t - Z.of_nat (length (swept config now t))
    ∧ ∀ q, q ∈ swept config now t → is_sent t q = true.
Proof.
  intros Hok Hfl Hnow.
  destruct (process_timeouts_spec config now t Hok)
    as (t' & Hrun & Hok' & Hout & Hun & Hst & Hsame).
  assert (∀ q, q ∈ swept config now t → is_sent t q = true) as Hsent.
  { intros q Hq.
    destruct (swept_expired config now t q Hq) as (Hin & qi & Hqi & Hle & Hto).
    unfold is_sent. rewrite Hqi. cbn.
    apply bool_decide_eq_true_2. intros [= Heq]. lia. }
  assert (in_flight t
          = in_flight t' + Z.of_nat (length (swept config now t))) as Hcount.
  { unfold in_flight. rewrite Hout, filter_app, length_app.
    rewrite (filter_is_sent_ext t t') by (intros x; by apply same_payload_timestamp).
    rewrite filter_reverse, length_reverse.
    assert (filter (λ q, is_sent t q) (swept config now t) = swept config now t) as ->.
    { clear -Hsent. induction (swept config now t) as [|x l IH]; [done|].
      rewrite filter_cons_True by (rewrite (Hsent x) by (by left); done).
      rewrite IH; [done|]. intros q Hq. apply Hsent. by right. }
    lia. }
  exists t'. split; [done|]. split; [done|].
  split.
  { unfold in_flight_ok. rewrite Hst, num_outstanding_iter_timedout, Hfl, Hcount.
    pose proof (in_flight_bound t' Hok'). unfold NQIDS in *.
    rewrite wrap64_small; lia. }
  split; [done|]. split; [done|]. split; [lia|done].
Qed.

(** X14: the timeout sweep never reclaims a query that has not timed out,
    whatever the order of the outstanding list.  At a time [now] below the
    sentinel, every slot a sweep appends to the unused list was on the
    outstanding list, was sent (its timestamp is not the sentinel) at or
    before [now], and [now - timestamp >= timeout]; the sweep keeps I1 and
    I2, and lowers the number of queries in flight by the number of slots
    it reclaims. *)
Theorem timeout_sweep_sound config now t :
  slot_table_ok t → in_flight_ok t → 0 ≤ now < ISC_UINT64_MAX →
  (∀ q, q ∈ outstanding_queries t → 0 ≤ slot_time t q) →
  ∃ t', process_timeouts config t now = Some t'
    ∧ slot_table_ok t' ∧ in_flight_ok t'
    ∧ unused_queries t' = unused_queries t ++ swept config now t
    ∧ in_flight t' = in_flight t - Z.of_nat (length (swept config now t))
    ∧ ∀ q, q ∈ swept config now t →
           q ∈ outstanding_queries t ∧ is_sent t q = true
           ∧ slot_time t q ≤ now ∧ now - slot_time t q >= timeout config.
Proof.
  intros Hok Hfl Hnow Hpos.
  destruct (sweep_in_flight config now t Hok Hfl ltac:(lia))
    as (t' & Hrun & Hok' & Hfl' & _ & Hun & Hcount & Hsent).
  exists t'. do 5 (split; [done|]).
  intros q Hq.
  destruct (swept_expired config now t q Hq) as (Hin & qi & Hqi & Hle & Hto).
  specialize (Hpos q Hin). unfold slot_time in *. rewrite Hqi in *. cbn in *.
  split; [done|]. split; [by apply Hsent|].
  unfold ISC_UINT64_MAX in Hnow. rewrite wrap64_small in Hto by lia. lia.
Qed.

Lemma thread_on_wire_out : outstanding_queries thread_on_wire = [0].
Proof. vm_compute. reflexivity. Qed.

Lemma thread_on_wire_in_flight : in_flight_ok thread_on_wire.
Proof. unfold in_flight_ok. vm_compute. reflexivity. Qed.

Lemma timeout_sweep_sound_witness :
  ∃ t', process_timeouts default_config thread_on_wire 7000000 = Some t'
    ∧ slot_table_ok t' ∧ in_flight_ok t'
    ∧ unused_queries t'
      = unused_queries thread_on_wire ++ swept default_config 7000000 thread_on_wire
    ∧ in_flight t'
      = in_flight thread_on_wire
        - Z.of_nat (length (swept default_config 7000000 thread_on_wire))
    ∧ ∀ q, q ∈ swept default_config 7000000 thread_on_wire →
           q ∈ outstanding_queries thread_on_wire ∧ is_sent thread_on_wire q = true
           ∧ slot_time thread_on_wire q ≤ 7000000
           ∧ 7000000 - slot_time thread_on_wire q >= timeout default_config.
Proof.
  apply (timeout_sweep_sound default_config 7000000 thread_on_wire).
  - apply thread_on_wire_ok.
  - apply thread_on_wire_in_flight.
  - unfold ISC_UINT64_MAX. lia.
  - intros q. rewrite thread_on_wire_out. intros ->%list_elem_of_singleton.
    vm_compute. discriminate.
Defined.

(** ** Cancellation and the queries in flight *)

Lemma iter_inc_interrupted_others n s :
  num_sent (Nat.iter n inc_interrupted s) = num_sent s
  ∧ num_completed (Nat.iter n inc_interrupted s) = num_completed s
  ∧ num_timedout (Nat.iter n inc_interrupted s) = num_timedout s.
Proof.
  induction n as [|n IH]; [done|].
  cbn [Nat.iter nat_rect]. fold (Nat.iter n inc_interrupted s).
  cbn [inc_interrupted num_sent num_completed num_timedout]. exact IH.
Qed.

(** X15: cancellation accounts for every query in flight.  On a thread
    that satisfies I1 and I2, [cancel_queries] returns with an empty
    outstanding list, raises [num_interrupted] by [num_outstanding] (the
    number of queries in flight) and leaves [num_sent], [num_completed]
    and [num_timedout] alone: afterwards every query sent is counted as
    completed, timed out or interrupted. *)
Theorem cancel_accounts_for_in_flight t :
  slot_table_ok t → in_flight_ok t → 0 ≤ num_interrupted (stats t) < 2 ^ 64 →
  ∃ t', cancel_queries t = Some t'
    ∧ slot_table_ok t'
    ∧ outstanding_queries t' = []
    ∧ num_interrupted (stats t')
      = wrap64 (num_interrupted (stats t) + num_outstanding (stats t))
    ∧ num_sent (stats t') = num_sent (stats t)
    ∧ num_completed (stats t') = num_completed (stats t)
    ∧ num_timedout (stats t') = num_timedout (stats t)
    ∧ (num_interrupted (stats t) = 0 →
       wrap64 (num_sent (stats t') - num_completed (stats t')
               - num_timedout (stats t')) = num_interrupted (stats t')).
Proof.
  intros Hok Hfl Hint. unfold cancel_queries.
  destruct (cancel_queries_loop_spec (S (length (outstanding_queries t))) t Hok)
    as (t' & Hrun & Hok' & Hout & _ & Hst & _); [lia|].
  exists t'. split; [done|]. split; [done|]. split; [done|].
  destruct (iter_inc_interrupted_others
              (length (filter (λ q, is_sent t q) (outstanding_queries t))) (stats t))
    as (Hs & Hc & Hto).
  rewrite Hst, Hs, Hc, Hto, iter_inc_interrupted by done.
  fold (in_flight t). rewrite Hfl.
  split; [done|]. split; [done|]. split; [done|]. split; [done|].
  intros Hzero. rewrite Hzero, Z.add_0_l.
  rewrite <- num_outstanding_alt, Hfl.
  pose proof (in_flight_bound t Hok). unfold NQIDS in *.
  rewrite wrap64_small; lia.
Qed.

Lemma cancel_accounts_for_in_flight_witness :
  ∃ t', cancel_queries thread_on_wire = Some t'
    ∧ slot_table_ok t'
    ∧ outstanding_queries t' = []
    ∧ num_interrupted (stats t')
      = wrap64 (num_interrupted (stats thread_on_wire)
                + num_outstanding (stats thread_on_wire))
    ∧ num_sent (stats t') = num_sent (stats thread_on_wire)
    ∧ num_completed (stats t') = num_completed (stats thread_on_wire)
    ∧ num_timedout (stats t') = num_timedout (stats thread_on_wire)
    ∧ (num_interrupted (stats thread_on_wire) = 0 →
       wrap64 (num_sent (stats t') - num_completed (stats t')
               - num_timedout (stats t')) = num_interrupted (stats t')).
Proof.
  apply (cancel_accounts_for_in_flight thread_on_wire).
  - apply thread_on_wire_ok.
  - apply thread_on_wire_in_flight.
  - vm_compute. split; congruence.
Defined.

(** ** The receiver and the queries in flight *)

Lemma filled_fresh net r : filled net r → unexpected r = false.
Proof.
  intros (w & k & Hrecv). revert Hrecv. unfold recv_one.
  case_bool_decide; [discriminate|]. by intros [= <-].
Qed.

Lemma correlate_in_flight t rs t' rs' :
  slot_table_ok t → Forall (λ r, unexpected r = false) rs →
  correlate t rs = Some (t', rs') →
  slot_table_ok t' ∧ stats t' = stats t ∧ same_settings t t'
  ∧ (∀ x, timestamp <$> get_query t' x = timestamp <$> get_query t x)
  ∧ in_flight t' = in_flight t - Z.of_nat (length (filter (λ r, counted r) rs')).
Proof.
  revert t t' rs'. induction rs as [|r rs IH]; intros t t' rs' Hok Hfresh.
  { intros [= <- <-]. cbn. split; [done|]. split; [done|]. split; [done|].
    split; [done|lia]. }
  apply Forall_cons in Hfresh as [Hr Hrs]. cbn [correlate].
  destruct (correlate_one t r) as [[t1 r1]|] eqn:Hone; [|discriminate].
  cbn [mbind option_bind].
  destruct (correlate t1 rs) as [[t2 rs2]|] eqn:Hrest; [|discriminate].
  cbn [mbind option_bind]. intros [= <- <-].
  assert (slot_table_ok t1 ∧ stats t1 = stats t ∧ same_settings t t1
          ∧ (∀ x, timestamp <$> get_query t1 x = timestamp <$> get_query t x)
          ∧ in_flight t1 = in_flight t - (if counted r1 then 1 else 0))
    as (Hok1 & Hst1 & Hset1 & Hts1 & Hfl1).
  { destruct (short_response r) eqn:Hshort.
    - unfold correlate_one in Hone. rewrite Hshort in Hone.
      injection Hone as <- <-. unfold counted. rewrite Hshort. cbn.
      split; [done|]. split; [done|]. split; [done|]. split; [done|lia].
    - destruct (correlate_one_cases t r t1 r1 Hok Hshort Hone)
        as [[-> ->]|(Hin & Hun & Hout & Hok1 & Hst & Hu & Hs & _ & _ & Hsent & Hts & _)].
      + unfold counted. cbn. rewrite andb_false_r.
        split; [done|]. split; [done|]. split; [done|]. split; [done|lia].
      + split; [done|]. split; [done|].
        split.
        { revert Hone. unfold correlate_one. rewrite Hshort.
          destruct (get_query t (qid r)) as [qi|]; [|discriminate].
          cbn [mbind option_bind].
          destruct (if bool_decide (qlist qi ≠ Some outstanding_list) then _ else _)
            as [[]|]; cbn [mbind option_bind]; [by intros [= <- _]| |discriminate].
          destruct (query_move t (qid r) append_unused) as [tm|] eqn:Hmove;
            [|discriminate].
          cbn [mbind option_bind]. intros [= <- _].
          by apply query_move_settings in Hmove. }
        split; [done|].
        unfold counted. rewrite Hs, Hu, Hr. cbn.
        apply (in_flight_unlink t t1 (qid r)); try done.
        pose proof (slot_table_NoDup t Hok) as Hnd.
        by apply NoDup_app in Hnd as (? & _). }
  destruct (IH t1 t2 rs2 Hok1 Hrs Hrest) as (Hok2 & Hst2 & Hset2 & Hts2 & Hfl2).
  split; [done|]. split; [by rewrite Hst2|].
  split; [by apply (same_settings_trans t t1 t2)|].
  split; [intros x; by rewrite Hts2|].
  rewrite Hfl2, Hfl1, filter_cons. destruct (counted r1); cbn [length].
  - destruct (decide _) as [_|Hn]; [cbn [length]; lia|by destruct Hn].
  - destruct (decide _) as [Hn|_]; [by destruct Hn|lia].
Qed.

Lemma num_outstanding_complete r latency s s' :
  complete_stats r latency s = Some s' →
  num_outstanding s' = wrap64 (num_outstanding s - 1)
  ∧ num_sent s' = num_sent s.
Proof.
  unfold complete_stats. destruct (inc_rcode _ _) as [rc|]; [|discriminate].
  cbn [mbind option_bind]. intros [= <-]. split; [|done].
  rewrite !num_outstanding_alt. cbn [num_sent num_completed num_timedout].
  rewrite wrap64_sub_l.
  replace (num_sent s - wrap64 (num_completed s + 1) - num_timedout s)
    with (num_sent s - num_timedout s - wrap64 (num_completed s + 1)) by lia.
  rewrite wrap64_sub_r. f_equal. lia.
Qed.

Lemma account_num_outstanding t rs t' :
  account t rs = Some t' →
  num_outstanding (stats t')
  = wrap64 (num_outstanding (stats t)
            - Z.of_nat (length (filter (λ r, counted r) rs)))
  ∧ same_settings t t'.
Proof.
  revert t. induction rs as [|r rs IH]; intros t.
  { intros [= <-]. cbn. rewrite Z.sub_0_r, num_outstanding_alt.
    unfold wrap64. by rewrite Zmod_mod. }
  cbn [account]. destruct (account_one t r) as [t1|] eqn:Hone; [|discriminate].
  cbn [mbind option_bind]. intros Hrest.
  destruct (IH t1 Hrest) as [IHn IHs]. rewrite IHn.
  destruct (counted r) eqn:Hc.
  - rewrite filter_cons_True by (by rewrite Hc). cbn [length].
    revert Hone. unfold counted in Hc. unfold account_one.
    destruct (short_response r); [discriminate|].
    destruct (unexpected r); [discriminate|].
    rewrite record_latency_stats.
    destruct (complete_stats _ _ _) as [s|] eqn:Hs; [|discriminate].
    cbn [mbind option_bind]. intros [= <-].
    apply num_outstanding_complete in Hs as [Hs _].
    split.
    + cbn [stats with_stats]. rewrite Hs, wrap64_sub_l. f_equal. lia.
    + apply (same_settings_trans _ (record_latency (wrap64 (when r - sent r)) t));
        [|exact IHs].
      unfold record_latency. by case_bool_decide.
  - rewrite (account_one_skipped t r Hc) in Hone. injection Hone as <-.
    rewrite filter_cons_False by (rewrite Hc; cbn; tauto). done.
Qed.

(** X16: a turn of the receiver keeps I2.  On a thread that satisfies I1
    and I2, at a time below the sentinel and when every failed receive of
    the batch has [EAGAIN], a turn of [do_recv] that returns leaves a
    thread that satisfies I1 and I2; it does not raise the number of
    queries in flight and does not touch [num_sent]. *)
Theorem do_recv_keeps_in_flight config net clock st st' out :
  slot_table_ok (rs_tinfo st) → in_flight_ok (rs_tinfo st) →
  rs_now st < ISC_UINT64_MAX → 0 ≤ nsocks (rs_tinfo st) →
  (∀ k, nr_n (net k) < 0 → nr_errno (net k) = EAGAIN) →
  do_recv_body config net clock st = Some (st', out) →
  slot_table_ok (rs_tinfo st') ∧ in_flight_ok (rs_tinfo st')
  ∧ in_flight (rs_tinfo st') ≤ in_flight (rs_tinfo st)
  ∧ num_sent (stats (rs_tinfo st')) = num_sent (stats (rs_tinfo st))
  ∧ num_interrupted (stats (rs_tinfo st')) = num_interrupted (stats (rs_tinfo st))
  ∧ same_settings (rs_tinfo st) (rs_tinfo st').
Proof.
  intros Hok Hfl Hnow Hns Hagain. unfold do_recv_body.
  destruct (sweep_in_flight config (rs_now st) (rs_tinfo st) Hok Hfl Hnow)
    as (t1 & Hsweep & Hok1 & Hfl1 & _ & _ & Hcount & _).
  rewrite Hsweep. cbn [mbind option_bind].
  pose proof (process_timeouts_settings _ _ _ _ Hsweep) as Hset1.
  assert (num_sent (stats t1) = num_sent (stats (rs_tinfo st))
          ∧ num_interrupted (stats t1) = num_interrupted (stats (rs_tinfo st)))
    as Hsent1.
  { destruct (process_timeouts_spec config (rs_now st) (rs_tinfo st) Hok)
      as (t1' & Hrun & _ & _ & _ & Hst & _).
    rewrite Hsweep in Hrun. injection Hrun as <-. rewrite Hst.
    clear. induction (length _) as [|n IH]; [done|].
    cbn [Nat.iter nat_rect]. exact IH. }
  destruct (done_sending t1 && _).
  { intros [= <- _]. cbn [rs_tinfo]. split; [done|]. split; [done|].
    split; [lia|]. destruct Hsent1. done. }
  pose proof (do_recv_gather_filled net t1 st) as Hfilled.
  destruct (do_recv_gather net t1 st) as [nrecvd g]. cbn [fst snd] in Hfilled.
  destruct (correlate t1 _) as [[t2 batch]|] eqn:Hcorr; [|discriminate].
  cbn [mbind option_bind].
  destruct (account t2 batch) as [t3|] eqn:Hacc; [|discriminate].
  cbn [mbind option_bind].
  assert (Forall (λ r, unexpected r = false) (take nrecvd (g_recvd g))) as Hfresh.
  { eapply Forall_impl; [apply Hfilled; [by destruct Hset1 as [-> _]|done]|].
    intros r. apply filled_fresh. }
  destruct (correlate_in_flight t1 _ t2 batch Hok1 Hfresh Hcorr)
    as (Hok2 & Hst2 & Hset2 & _ & Hfl2).
  destruct (account_num_outstanding t2 batch t3 Hacc) as [Hn3 Hset3].
  destruct (account_slots t2 batch t3 Hacc) as (Hq3 & Ho3 & Hu3).
  assert (in_flight t3 = in_flight t2) as Hfl3.
  { apply in_flight_same; [done|]. intros x _. unfold get_query. by rewrite Hq3. }
  assert (slot_table_ok t3) as Hok3 by by apply (slot_table_ok_ext t2).
  assert (in_flight_ok t3) as Hflok3.
  { unfold in_flight_ok. rewrite Hn3, Hst2, Hfl1, Hfl3, Hfl2.
    pose proof (in_flight_bound t2 Hok2). unfold NQIDS in *.
    rewrite wrap64_small; lia. }
  assert (num_sent (stats t3) = num_sent (stats (rs_tinfo st))
          ∧ num_interrupted (stats t3) = num_interrupted (stats (rs_tinfo st)))
    as Hsent3.
  { destruct Hsent1 as [<- <-]. rewrite <- Hst2. clear -Hacc. revert t2 Hacc.
    induction batch as [|r rs IH]; intros t2; [by intros [= <-]|].
    cbn [account]. destruct (account_one t2 r) as [ta|] eqn:Hone; [|discriminate].
    cbn [mbind option_bind]. intros Hrest.
    destruct (IH ta Hrest) as [-> ->].
    revert Hone. unfold account_one.
    destruct (short_response r); [by intros [= <-]|].
    destruct (unexpected r); [by intros [= <-]|].
    rewrite record_latency_stats. unfold complete_stats.
    destruct (inc_rcode _ _); [|discriminate]. cbn [mbind option_bind].
    by intros [= <-]. }
  assert (same_settings (rs_tinfo st) t3) as Hsetall.
  { apply (same_settings_trans _ t1); [done|].
    apply (same_settings_trans _ t2); done. }
  set (t4 := match last batch with
             | Some r => with_last_recv (when r) t3
             | None => t3
             end).
  assert (slot_table_ok t4 ∧ in_flight_ok t4
          ∧ in_flight t4 ≤ in_flight (rs_tinfo st)
          ∧ num_sent (stats t4) = num_sent (stats (rs_tinfo st))
          ∧ num_interrupted (stats t4) = num_interrupted (stats (rs_tinfo st))
          ∧ same_settings (rs_tinfo st) t4) as Hfinal.
  { assert (in_flight t3 ≤ in_flight (rs_tinfo st)) by lia.
    destruct Hsent3. subst t4. destruct (last batch); [|done].
    split; [by apply (slot_table_ok_ext t3)|]. done. }
  case_bool_decide; [destruct (g_errno g) as [[]|]|]; by intros [= <- _].
Qed.

Lemma do_recv_keeps_in_flight_witness :
  ∃ st' out,
    do_recv_body default_config net_one_answer 1000800 recv_on_wire = Some (st', out)
    ∧ slot_table_ok (rs_tinfo st') ∧ in_flight_ok (rs_tinfo st')
    ∧ in_flight (rs_tinfo st') ≤ in_flight (rs_tinfo recv_on_wire)
    ∧ num_sent (stats (rs_tinfo st')) = num_sent (stats (rs_tinfo recv_on_wire))
    ∧ num_interrupted (stats (rs_tinfo st'))
      = num_interrupted (stats (rs_tinfo recv_on_wire))
    ∧ same_settings (rs_tinfo recv_on_wire) (rs_tinfo st').
Proof.
  assert (snd <$> do_recv_body default_config net_one_answer 1000800 recv_on_wire
          = Some recv_again) as Hrun by (vm_compute; reflexivity).
  destruct (do_recv_body default_config net_one_answer 1000800 recv_on_wire)
    as [[st' out]|] eqn:Hbody; [|discriminate].
  exists st', out. split; [reflexivity|].
  apply (do_recv_keeps_in_flight default_config net_one_answer 1000800 recv_on_wire
           st' out).
  - apply thread_on_wire_ok.
  - apply thread_on_wire_in_flight.
  - vm_compute. reflexivity.
  - vm_compute. discriminate.
  - intros [|k]; vm_compute; [discriminate|reflexivity].
  - exact Hbody.
Defined.

(** ** The sender and the queries in flight *)

Lemma get_query_moved_ne t q op x :
  0 ≤ q → x ≠ q → get_query (moved t q op) x = get_query t x.
Proof. intros Hq Hne. rewrite get_query_moved by done. by rewrite decide_False. Qed.

Lemma timestamp_moved t q op x :
  0 ≤ q →
  timestamp <$> get_query (moved t q op) x = timestamp <$> get_query t x.
Proof.
  intros Hq. apply same_payload_timestamp. by apply same_payload_moved.
Qed.

Lemma holds_upd t T q f :
  (∀ qi, qlist (f qi) = qlist qi) → 0 ≤ q →
  holds t T q → holds t (upd_query q f T) q.
Proof.
  intros Hf Hq [Hok Hout Hst Hset Hoth]. split.
  - by apply upd_query_ok.
  - exact Hout.
  - exact Hst.
  - exact Hset.
  - intros x Hx. rewrite get_query_upd_ne by done. by apply Hoth.
Qed.

Lemma holds_current_sock t T q c : holds t T q → holds t (with_current_sock c T) q.
Proof.
  intros [Hok Hout Hst Hset Hoth]. split; try done.
  by apply with_current_sock_ok.
Qed.

Lemma holds_not_before t T q : holds t T q → q ∉ outstanding_queries t.
Proof.
  intros [Hok Hout _ _ _]. pose proof (slot_table_NoDup T Hok) as Hnd.
  apply NoDup_app in Hnd as (Hnd & _). rewrite Hout in Hnd.
  by apply NoDup_cons in Hnd as [? _].
Qed.

(** The held slot is put back on the unused list. *)
Lemma holds_release t T q :
  holds t T q →
  query_move T q prepend_unused = Some (moved T q prepend_unused)
  ∧ slot_table_ok (moved T q prepend_unused)
  ∧ outstanding_queries (moved T q prepend_unused) = outstanding_queries t
  ∧ stats (moved T q prepend_unused) = stats t
  ∧ same_settings t (moved T q prepend_unused)
  ∧ ∀ x, x ∈ outstanding_queries t →
         get_query (moved T q prepend_unused) x = get_query t x.
Proof.
  intros Hheld. pose proof (holds_not_before t T q Hheld) as Hnotin.
  destruct Hheld as [Hok Hout Hst Hset Hoth].
  destruct (release_head T q _ Hok Hout) as (Hmove & Hok' & _ & Hout').
  assert (0 ≤ q < NQIDS) as Hq.
  { apply (slot_table_elem T q Hok). left. rewrite Hout. by left. }
  split; [done|]. split; [done|]. split; [done|].
  split; [by rewrite stats_moved|].
  split.
  { apply (same_settings_trans t T); [done|].
    apply (query_move_settings T q prepend_unused). exact Hmove. }
  assert (∀ x, x ∈ outstanding_queries t → x ≠ q) as Hne by (by intros x Hx ->).
  intros x Hx. rewrite get_query_moved_ne by (lia || auto). by apply Hoth, Hne.
Qed.

(** The held slot stays on the outstanding list with timestamp [ts]. *)
Lemma holds_in_flight t T q ts :
  holds t T q → timestamp <$> get_query T q = Some ts →
  in_flight T = (if decide (ts = ISC_UINT64_MAX) then 0 else 1) + in_flight t.
Proof.
  intros Hheld Hts. pose proof (holds_not_before t T q Hheld) as Hnotin.
  destruct Hheld as [Hok Hout Hst Hset Hoth].
  rewrite (in_flight_cons t T q Hout).
  2: { intros x Hx. rewrite Hoth; [done|]. intros ->. done. }
  unfold is_sent. rewrite Hts.
  destruct (decide (ts = ISC_UINT64_MAX)) as [->|Hne].
  - by rewrite bool_decide_eq_false_2 by (intros Hn; by apply Hn).
  - rewrite bool_decide_eq_true_2; [done|]. by intros [= ?].
Qed.

(** What [do_send_packet] does with the held and stamped slot. *)
Lemma do_send_packet_turn env t T q s len any st' out evs qi :
  holds t T q → num_outstanding (stats t) < max_outstanding t →
  get_query T q = Some qi → timestamp qi = clock_next env → sock qi = Some s →
  do_send_packet env T q s len (clock_next env) any = Some (st', out, evs) →
  send_turn t env (ss_tinfo st') out evs.
Proof.
  intros Hheld Hcap Hqi Hts Hsock.
  destruct (holds_release t T q Hheld) as (Hmove & _).
  unfold do_send_packet. rewrite Hmove. cbn [mbind option_bind].
  case_bool_decide; [destruct (decide (sendto_errno env = EINPROGRESS))|
                     case_bool_decide];
    intros [= <- <- <-]; cbn [ss_tinfo];
    (by apply (turn_sends t env T q s len qi))
    || (by apply (turn_releases t env T q)).
Qed.

(** What the part of a turn under the lock and after it does. *)
Lemma do_send_query_turn config env t now any st' out evs :
  slot_table_ok t →
  do_send_query config env t now any = Some (st', out, evs) →
  send_turn t env (ss_tinfo st') out evs.
Proof.
  intros Hok. unfold do_send_query.
  case_bool_decide as Hcap.
  { intros [= <- <- <-]. cbn [ss_tinfo]. constructor. }
  destruct (unused_queries t) as [|q rest] eqn:Hun; [discriminate|].
  cbn [ISC_LIST_HEAD head mbind option_bind].
  destruct (acquire_head t q rest Hok Hun) as (Hq & -> & Hok1 & Hout1 & Hun1).
  cbn [mbind option_bind].
  set (t2 := upd_query q (with_timestamp ISC_UINT64_MAX)
               (moved t q prepend_outstanding)).
  assert (holds t (moved t q prepend_outstanding) q) as Hheld1.
  { split; [done|done|apply stats_moved| |].
    - apply (query_move_settings t q prepend_outstanding).
      by apply query_move_moved.
    - intros x Hx. apply get_query_moved_ne; [lia|done]. }
  assert (holds t t2 q) as Hheld2 by (apply holds_upd; [done|lia|done]).
  destruct (get_query_in_range (moved t q prepend_outstanding) q
              (ok_size _ Hok1) Hq) as [qi1 Hqi1].
  assert (get_query t2 q = Some (with_timestamp ISC_UINT64_MAX qi1)) as Hqi2
    by by apply get_query_upd_eq.
  rewrite Hqi2. cbn [mbind option_bind].
  destruct (select_socket _ _ _ _ _ _ _) as [[s cur] any'].
  set (t3 := with_current_sock cur (upd_query q (with_sock s) t2)).
  assert (holds t t3 q) as Hheld3.
  { apply holds_current_sock, holds_upd; [done|lia|done]. }
  assert (get_query t3 q
          = Some (with_sock s (with_timestamp ISC_UINT64_MAX qi1))) as Hqi3.
  { change (get_query t3 q) with (get_query (upd_query q (with_sock s) t2) q).
    by apply get_query_upd_eq. }
  destruct (holds_release t t3 q Hheld3) as (Hmove & _).
  assert (∀ now' any'' evs',
            (t4 ← query_move t3 q prepend_unused;
             Some (mk_send_state t4 now' any'', send_again, evs'))
            = Some (st', out, evs) →
            send_turn t env (ss_tinfo st') out evs) as Hreleased.
  { intros now' any'' evs'. rewrite Hmove. cbn [mbind option_bind].
    intros [= <- <- <-]. cbn [ss_tinfo]. apply (turn_releases t env t3 q); [done|lia]. }
  destruct s as [sk|]; [|apply Hreleased].
  destruct (datafile_next env) as [line| |].
  - destruct (buildrequest env) as [len|]; [|apply Hreleased].
    set (t4 := if verbose config then upd_query q (with_desc (Some line)) t3 else t3).
    set (t5 := upd_query q (with_timestamp (clock_next env)) t4).
    assert (holds t t4 q ∧ ∃ qi4, get_query t4 q = Some qi4 ∧ sock qi4 = Some sk)
      as [Hheld4 (qi4 & Hqi4 & Hsock4)].
    { subst t4. destruct (verbose config).
      - split; [apply holds_upd; [done|lia|done]|].
        rewrite (get_query_upd_eq _ _ _ _ Hqi3). eauto.
      - split; [done|]. rewrite Hqi3. eauto. }
    assert (holds t t5 q) as Hheld5 by (apply holds_upd; [done|lia|done]).
    assert (get_query t5 q = Some (with_timestamp (clock_next env) qi4)) as Hqi5.
    { subst t5. by apply get_query_upd_eq. }
    apply (do_send_packet_turn env t t5 q sk len any' st' out evs
             (with_timestamp (clock_next env) qi4) Hheld5);
      [lia|exact Hqi5|done|done].
  - intros [= <- <- <-]. cbn [ss_tinfo].
    apply (turn_stops t env t3 q); [done|lia|by rewrite Hqi3|done].
  - intros [= <- <- <-]. cbn [ss_tinfo].
    apply (turn_stops t env t3 q); [done|lia|by rewrite Hqi3|done].
Qed.

(** A turn of the sender, as one of the four courses of [send_turn]. *)
Lemma do_send_body_turn config times env st st' out evs :
  slot_table_ok (ss_tinfo st) →
  do_send_body config times env st = Some (st', out, evs) →
  ∃ evs', evs = pacing_pause (ss_tinfo st) ++ evs'
          ∧ send_turn (ss_tinfo st) env (ss_tinfo st') out evs'.
Proof.
  intros Hok. unfold do_send_body.
  destruct (do_send_rate_limit _ _ _ _ _ _) as [[[st1 out1] evs1]|] eqn:Hrate;
    [|discriminate].
  cbn [mbind option_bind]. intros [= <- <- <-].
  exists evs1. split; [done|].
  revert Hrate. unfold do_send_rate_limit.
  case_bool_decide; [case_bool_decide|];
    [|by apply do_send_query_turn..].
  intros [= <- <- <-]. cbn [ss_tinfo]. constructor.
Qed.

(** X17: a turn of the sender keeps I2 and the in-flight cap.  On a thread
    that satisfies I1 and I2, and with a clock that does not read the
    sentinel, a turn of [do_send] that returns leaves a thread that
    satisfies I1 and I2.  It either leaves the counters and the number of
    queries in flight as they were, or it has called [perf_net_sendto]
    once, counted that query as sent and has one more query in flight; the
    latter only when [num_outstanding] was below [max_outstanding].  So a
    thread with at most [max_outstanding] queries in flight still has at
    most that many after the turn. *)
Theorem do_send_keeps_in_flight config times env st st' out evs :
  slot_table_ok (ss_tinfo st) → in_flight_ok (ss_tinfo st) →
  clock_next env ≠ ISC_UINT64_MAX →
  do_send_body config times env st = Some (st', out, evs) →
  slot_table_ok (ss_tinfo st') ∧ in_flight_ok (ss_tinfo st')
  ∧ same_settings (ss_tinfo st) (ss_tinfo st')
  ∧ ((in_flight (ss_tinfo st') = in_flight (ss_tinfo st)
      ∧ stats (ss_tinfo st') = stats (ss_tinfo st))
     ∨ (in_flight (ss_tinfo st') = in_flight (ss_tinfo st) + 1
        ∧ in_flight (ss_tinfo st) < max_outstanding (ss_tinfo st)
        ∧ ∃ s len, stats (ss_tinfo st') = count_sent len (stats (ss_tinfo st))
                   ∧ ev_sendto s len ∈ evs))
  ∧ (in_flight (ss_tinfo st) ≤ max_outstanding (ss_tinfo st) →
     in_flight (ss_tinfo st') ≤ max_outstanding (ss_tinfo st')).
Proof.
  intros Hok Hfl Hclock Hbody.
  destruct (do_send_body_turn _ _ _ _ _ _ _ Hok Hbody) as (evs' & -> & Hturn).
  clear Hbody. set (t := ss_tinfo st) in *. set (t' := ss_tinfo st') in *.
  clearbody t t'.
  destruct Hturn as [evs'|T q evs' Hheld Hcap|T q out Hheld Hcap Hts Hout
                     |T q s len qi Hheld Hcap Hqi Hqts Hsock].
  - split; [done|]. split; [done|]. split; [done|]. split; [by left|done].
  - destruct (holds_release t T q Hheld) as (_ & Hok' & Hout' & Hst' & Hset' & Hts').
    assert (in_flight (moved T q prepend_unused) = in_flight t) as Hsame.
    { apply in_flight_same; [done|]. intros x Hx. by rewrite Hts'. }
    split; [done|]. split; [unfold in_flight_ok; by rewrite Hst', Hsame|].
    split; [done|]. split; [by left|].
    destruct Hset' as (_ & -> & _). by rewrite Hsame.
  - pose proof (holds_in_flight t T q _ Hheld Hts) as Hsame.
    rewrite decide_True in Hsame by done.
    destruct Hheld as [Hok' _ Hst' Hset' _].
    split; [done|]. split; [unfold in_flight_ok; rewrite Hst', Hfl; lia|].
    split; [done|]. split; [left; split; [lia|done]|].
    destruct Hset' as (_ & -> & _). lia.
  - assert (timestamp <$> get_query T q = Some (clock_next env)) as Hts
      by (by rewrite Hqi, <- Hqts).
    pose proof (holds_in_flight t T q _ Hheld Hts) as Hsent.
    rewrite decide_False in Hsent by done.
    destruct Hheld as [Hok' Hout' Hst' Hset' Hoth'].
    assert (in_flight (with_stats (count_sent len) T) = in_flight T) as Hsame
      by (by apply in_flight_same).
    assert (stats (with_stats (count_sent len) T) = count_sent len (stats t)) as Hstc.
    { cbn [stats with_stats]. by rewrite Hst'. }
    split; [by apply with_stats_ok|].
    split.
    { unfold in_flight_ok. rewrite Hstc, num_outstanding_count_sent, Hfl, Hsame, Hsent.
      pose proof (in_flight_bound T Hok'). unfold NQIDS in *.
      rewrite wrap64_small; lia. }
    split; [exact Hset'|].
    split.
    { right. split; [lia|]. split; [by rewrite <- Hfl|].
      exists s, len. split; [done|]. apply elem_of_app. right. by left. }
    intros Hle. destruct Hset' as (_ & Hmax & _).
    change (max_outstanding (with_stats (count_sent len) T)) with (max_outstanding T).
    rewrite Hmax, Hsame, Hsent. rewrite Hfl in Hcap. lia.
Qed.

Lemma do_send_keeps_in_flight_witness :
  ∃ st' out evs,
    do_send_body default_config (mk_times 0 0 ISC_UINT64_MAX) env_sent
      (mk_send_state thread_started 1000 false) = Some (st', out, evs)
    ∧ slot_table_ok (ss_tinfo st') ∧ in_flight_ok (ss_tinfo st')
    ∧ same_settings thread_started (ss_tinfo st')
    ∧ ((in_flight (ss_tinfo st') = in_flight thread_started
        ∧ stats (ss_tinfo st') = stats thread_started)
       ∨ (in_flight (ss_tinfo st') = in_flight thread_started + 1
          ∧ in_flight thread_started < max_outstanding thread_started
          ∧ ∃ s len, stats (ss_tinfo st') = count_sent len (stats thread_started)
                     ∧ ev_sendto s len ∈ evs))
    ∧ (in_flight thread_started ≤ max_outstanding thread_started →
       in_flight (ss_tinfo st') ≤ max_outstanding (ss_tinfo st')).
Proof.
  assert ((λ _, ()) <$> do_send_body default_config (mk_times 0 0 ISC_UINT64_MAX)
                          env_sent (mk_send_state thread_started 1000 false)
          = Some ()) as Hrun by (vm_compute; reflexivity).
  destruct (do_send_body _ _ _ _) as [[[st' out] evs]|] eqn:Hbody; [|discriminate].
  exists st', out, evs. split; [reflexivity|].
  apply (do_send_keeps_in_flight default_config (mk_times 0 0 ISC_UINT64_MAX)
           env_sent (mk_send_state thread_started 1000 false) st' out evs).
  - apply thread_started_ok.
  - unfold in_flight_ok. vm_compute. reflexivity.
  - vm_compute. discriminate.
  - exact Hbody.
Defined.

(** ** The report of [main] and the cleanup of the threads *)

Lemma threadinfo_cleanup_spec interrupted t times :
  slot_table_ok t → in_flight_ok t → num_interrupted (stats t) = 0 →
  ∃ t' times',
    threadinfo_cleanup interrupted t times = Some (t', times')
    ∧ num_interrupted (stats t') = (if interrupted then in_flight t else 0)
    ∧ (interrupted = true → outstanding_queries t' = [])
    ∧ end_time times ≤ end_time times'
    ∧ start_time times' = start_time times ∧ stop_time times' = stop_time times.
Proof.
  intros Hok Hfl Hzero. unfold threadinfo_cleanup.
  assert (∃ t1, (if interrupted then cancel_queries t else Some t) = Some t1
            ∧ num_interrupted (stats t1) = (if interrupted then in_flight t else 0)
            ∧ (interrupted = true → outstanding_queries t1 = []))
    as (t1 & -> & Hint & Hout).
  { destruct interrupted; [|by exists t].
    unfold cancel_queries.
    destruct (cancel_queries_loop_spec (S (length (outstanding_queries t))) t Hok)
      as (t1 & Hrun & _ & Hout & _ & Hst & _); [lia|].
    exists t1. split; [done|]. split; [|done].
    rewrite Hst, iter_inc_interrupted by (rewrite Hzero; done).
    rewrite Hzero, Z.add_0_l. fold (in_flight t).
    pose proof (in_flight_bound t Hok). unfold NQIDS in *.
    rewrite wrap64_small; lia. }
  cbn [mbind option_bind]. eexists _, _. split; [reflexivity|].
  split; [done|]. split; [done|].
  case_bool_decide; cbn; lia.
Qed.

(** X18: [main] sums and prints the statistics before it cleans up the
    threads, and [num_interrupted] is only raised by the cancellation in
    [threadinfo_cleanup].  So for threads that satisfy I1 and I2 and have
    [num_interrupted = 0], as they do until the cleanup, the totals handed
    to [print_statistics] have [num_interrupted = 0] even after an
    interrupt, and [times] is handed over as [main] set it; the cleanup
    then returns, on an interrupt empties every outstanding list and sets
    [num_interrupted] of each thread to its number of queries in flight,
    and can only raise [end_time]. *)
Theorem report_precedes_cleanup interrupted thr times :
  Forall (λ t, slot_table_ok t ∧ in_flight_ok t ∧ num_interrupted (stats t) = 0)
    thr →
  ∃ thr' times',
    main_report interrupted thr times = Some (sum_stats thr, times, thr', times')
    ∧ num_interrupted (sum_stats thr) = 0
    ∧ Forall2 (λ t t', num_interrupted (stats t')
                       = (if interrupted then in_flight t else 0)
                       ∧ (interrupted = true → outstanding_queries t' = []))
        thr thr'
    ∧ end_time times ≤ end_time times'
    ∧ start_time times' = start_time times ∧ stop_time times' = stop_time times.
Proof.
  intros Hthr. unfold main_report.
  assert (num_interrupted (sum_stats thr) = 0) as Hzero.
  { rewrite (sum_stats_counter num_interrupted) by done.
    assert (total_of (num_interrupted ∘ stats) thr = 0) as ->; [|done].
    induction Hthr as [|t thr (_ & _ & Ht) _ IH]; [done|].
    change (total_of (num_interrupted ∘ stats) (t :: thr))
      with (num_interrupted (stats t) + total_of (num_interrupted ∘ stats) thr).
    by rewrite IH, Ht. }
  assert (∃ thr' times',
            cleanup_threads interrupted thr times = Some (thr', times')
            ∧ Forall2 (λ t t', num_interrupted (stats t')
                               = (if interrupted then in_flight t else 0)
                               ∧ (interrupted = true → outstanding_queries t' = []))
                thr thr'
            ∧ end_time times ≤ end_time times'
            ∧ start_time times' = start_time times
            ∧ stop_time times' = stop_time times)
    as (thr' & times' & -> & Hall & Hend & Hstart & Hstop).
  { clear Hzero. revert times.
    induction Hthr as [|t thr (Hok & Hfl & Ht) _ IH]; intros times.
    { exists [], times. split; [done|]. split; [constructor|]. done. }
    cbn [cleanup_threads].
    destruct (threadinfo_cleanup_spec interrupted t times Hok Hfl Ht)
      as (t' & times1 & -> & Hint & Hout & Hend1 & Hstart1 & Hstop1).
    cbn [mbind option_bind].
    destruct (IH times1) as (thr' & times2 & -> & Hall & Hend2 & Hstart2 & Hstop2).
    cbn [mbind option_bind].
    exists (t' :: thr'), times2. split; [done|].
    split; [by constructor|]. split; [lia|]. split; congruence. }
  cbn [mbind option_bind]. exists thr', times'. done.
Qed.

Lemma report_precedes_cleanup_witness :
  ∃ thr' times',
    main_report true [thread_on_wire] (mk_times 0 2000000 ISC_UINT64_MAX)
    = Some (sum_stats [thread_on_wire], mk_times 0 2000000 ISC_UINT64_MAX,
            thr', times')
    ∧ num_interrupted (sum_stats [thread_on_wire]) = 0
    ∧ Forall2 (λ t t', num_interrupted (stats t')
                       = (if true then in_flight t else 0)
                       ∧ (true = true → outstanding_queries t' = []))
        [thread_on_wire] thr'
    ∧ end_time (mk_times 0 2000000 ISC_UINT64_MAX) ≤ end_time times'
    ∧ start_time times' = start_time (mk_times 0 2000000 ISC_UINT64_MAX)
    ∧ stop_time times' = stop_time (mk_times 0 2000000 ISC_UINT64_MAX).
Proof.
  apply (report_precedes_cleanup true [thread_on_wire]
           (mk_times 0 2000000 ISC_UINT64_MAX)).
  constructor; [|constructor].
  split; [apply thread_on_wire_ok|]. split; [apply thread_on_wire_in_flight|].
  reflexivity.
Defined.

(** ** Choosing a socket *)

(** X19: the socket selection of [do_send], [while (i--)] with [i > 0]
    tries and [nsocks > 0], for a [current_sock] that [i] increments do
    not carry past [INT_MAX].  It makes [p] readiness checks, at least one
    and at most [i], and advances [current_sock] by [p].  Every check but
    the last found its socket not ready or in progress.  If a socket is
    chosen, the last check did not, the socket is the one [current_sock]
    named before that check, and its index is within [socks]; if none is
    chosen, all [i] checks found their socket not ready or in progress.
    [any_inprogress] is set exactly if it was set before or one of the
    checks found its socket in progress. *)
Theorem select_socket_round_robin ready nsocks i k cur any s :
  0 < nsocks → (0 < i)%nat →
  INT_MIN ≤ cur → cur + Z.of_nat i ≤ INT_MAX →
  let '(s', cur', any') := select_socket ready nsocks i k cur any s in
  ∃ p : nat,
    (0 < p ≤ i)%nat ∧ cur' = cur + Z.of_nat p
    ∧ (∀ j, (j < p - 1)%nat →
            ready (k + j)%nat = sock_not_ready
            ∨ ready (k + j)%nat = sock_in_progress)
    ∧ match s' with
      | Some c =>
          c = wrap32 (cur' - 1) mod nsocks ∧ 0 ≤ c < nsocks
          ∧ (ready (k + p - 1)%nat = sock_ready
             ∨ ready (k + p - 1)%nat = sock_failed)
      | None =>
          p = i
          ∧ (ready (k + p - 1)%nat = sock_not_ready
             ∨ ready (k + p - 1)%nat = sock_in_progress)
      end
    ∧ (any' = true ↔
       any = true ∨ ∃ j, (j < p)%nat ∧ ready (k + j)%nat = sock_in_progress).
Proof.
  intros Hns. revert k cur any s.
  induction i as [|i IH]; intros k cur any s Hi Hlo Hhi; [lia|].
  cbn [select_socket]. cbv zeta. rewrite (wrap_int_small (cur + 1)) by lia.
  assert (∀ c, c = wrap32 cur mod nsocks → 0 ≤ c < nsocks) as Hrange.
  { intros c ->. apply Z.mod_pos_bound. lia. }
  assert (∀ any0,
            ready k = sock_not_ready ∨ ready k = sock_in_progress →
            (any0 = true ↔ any = true ∨ ready k = sock_in_progress) →
            let '(s', cur', any') :=
              select_socket ready nsocks i (S k) (cur + 1) any0 None in
            ∃ p : nat,
              (0 < p ≤ S i)%nat ∧ cur' = cur + Z.of_nat p
              ∧ (∀ j, (j < p - 1)%nat →
                      ready (k + j)%nat = sock_not_ready
                      ∨ ready (k + j)%nat = sock_in_progress)
              ∧ match s' with
                | Some c =>
                    c = wrap32 (cur' - 1) mod nsocks ∧ 0 ≤ c < nsocks
                    ∧ (ready (k + p - 1)%nat = sock_ready
                       ∨ ready (k + p - 1)%nat = sock_failed)
                | None =>
                    p = S i
                    ∧ (ready (k + p - 1)%nat = sock_not_ready
                       ∨ ready (k + p - 1)%nat = sock_in_progress)
                end
              ∧ (any' = true ↔
                 any = true
                 ∨ ∃ j, (j < p)%nat ∧ ready (k + j)%nat = sock_in_progress))
    as Hnext.
  { intros any0 Hk Hany0. destruct i as [|i].
    - cbn [select_socket]. exists 1%nat. split; [lia|]. split; [lia|].
      split; [intros j Hj; lia|]. split.
      + split; [done|]. by replace (k + 1 - 1)%nat with k by lia.
      + rewrite Hany0. split.
        * intros [?|Hp]; [by left|right]. exists 0%nat. split; [lia|].
          by rewrite Nat.add_0_r.
        * intros [?|(j & Hj & Hp)]; [by left|right].
          by replace j with 0%nat in Hp by lia; rewrite Nat.add_0_r in Hp.
    - specialize (IH (S k) (cur + 1) any0 None ltac:(lia) ltac:(lia) ltac:(lia)).
      destruct (select_socket ready nsocks (S i) (S k) (cur + 1) any0 None)
        as [[s' cur'] any'].
      destruct IH as (p & Hp & Hcur & Hbefore & Hlast & Hany).
      exists (S p). split; [lia|]. split; [lia|].
      split.
      { intros j Hj. destruct j as [|j]; [by rewrite Nat.add_0_r|].
        replace (k + S j)%nat with (S k + j)%nat by lia. apply Hbefore. lia. }
      split.
      { replace (k + S p - 1)%nat with (S k + p - 1)%nat by lia.
        destruct s' as [c|]; [done|]. destruct Hlast as [-> Hlast]. done. }
      rewrite Hany, Hany0. split.
      + intros [[?|Hk0]|(j & Hj & Hprog)]; [by left|right..].
        * exists 0%nat. split; [lia|]. by rewrite Nat.add_0_r.
        * exists (S j). split; [lia|].
          by replace (k + S j)%nat with (S k + j)%nat by lia.
      + intros [?|(j & Hj & Hprog)]; [left; by left|].
        destruct j as [|j].
        * left. right. by rewrite Nat.add_0_r in Hprog.
        * right. exists j. split; [lia|].
          by replace (S k + j)%nat with (k + S j)%nat by lia. }
  assert (∀ c, ready k = sock_ready ∨ ready k = sock_failed →
            c = wrap32 cur mod nsocks →
            ∃ p : nat,
              (0 < p ≤ S i)%nat ∧ cur + 1 = cur + Z.of_nat p
              ∧ (∀ j, (j < p - 1)%nat →
                      ready (k + j)%nat = sock_not_ready
                      ∨ ready (k + j)%nat = sock_in_progress)
              ∧ (c = wrap32 (cur + 1 - 1) mod nsocks ∧ 0 ≤ c < nsocks
                 ∧ (ready (k + p - 1)%nat = sock_ready
                    ∨ ready (k + p - 1)%nat = sock_failed))
              ∧ (any = true ↔
                 any = true
                 ∨ ∃ j, (j < p)%nat ∧ ready (k + j)%nat = sock_in_progress))
    as Hchosen.
  { intros c Hk ->. exists 1%nat. split; [lia|]. split; [lia|].
    split; [intros j Hj; lia|]. split.
    - replace (cur + 1 - 1) with cur by lia. split; [done|].
      split; [by apply Hrange|]. by replace (k + 1 - 1)%nat with k by lia.
    - split; [by left|]. intros [?|(j & Hj & Hprog)]; [done|].
      replace j with 0%nat in Hprog by lia. rewrite Nat.add_0_r in Hprog.
      destruct Hk as [Hk|Hk]; rewrite Hk in Hprog; discriminate. }
  destruct (ready k) eqn:Hk.
  - apply Hchosen; [by left|done].
  - apply (Hnext any); [by left|]. split; [by left|]. by intros [?|?].
  - apply (Hnext true); [by right|]. split; [by right|done].
  - apply Hchosen; [by right|done].
Qed.

Lemma select_socket_round_robin_witness :
  ∃ s' cur' any',
    select_socket ready_second 2 4 0 7 false None = (s', cur', any')
    ∧ ∃ p : nat,
        (0 < p ≤ 4)%nat ∧ cur' = 7 + Z.of_nat p
        ∧ (∀ j, (j < p - 1)%nat →
                ready_second (0 + j)%nat = sock_not_ready
                ∨ ready_second (0 + j)%nat = sock_in_progress)
        ∧ match s' with
          | Some c =>
              c = wrap32 (cur' - 1) mod 2 ∧ 0 ≤ c < 2
              ∧ (ready_second (0 + p - 1)%nat = sock_ready
                 ∨ ready_second (0 + p - 1)%nat = sock_failed)
          | None =>
              p = 4%nat
              ∧ (ready_second (0 + p - 1)%nat = sock_not_ready
                 ∨ ready_second (0 + p - 1)%nat = sock_in_progress)
          end
        ∧ (any' = true ↔
           false = true
           ∨ ∃ j, (j < p)%nat ∧ ready_second (0 + j)%nat = sock_in_progress).
Proof.
  pose proof (select_socket_round_robin ready_second 2 4 0 7 false None) as Hsel.
  destruct (select_socket ready_second 2 4 0 7 false None) as [[s' cur'] any'].
  exists s', cur', any'. split; [reflexivity|].
  apply Hsel; unfold INT_MIN, INT_MAX; lia.
Defined.

(** ** Send order along the turns *)

Lemma slot_time_timestamp t t' x :
  timestamp <$> get_query t' x = timestamp <$> get_query t x →
  slot_time t' x = slot_time t x.
Proof. unfold slot_time. by intros ->. Qed.

Lemma in_send_order_ext t t' :
  outstanding_queries t' = outstanding_queries t →
  (∀ x, x ∈ outstanding_queries t → slot_time t' x = slot_time t x) →
  in_send_order t → in_send_order t'.
Proof.
  intros Hout Hts Hsorted. unfold in_send_order in *. rewrite Hout.
  apply (StronglySorted_ext_in (λ a b, slot_time t a ≤ slot_time t b)); [|done].
  intros x y Hx Hy. rewrite elem_of_reverse in Hx, Hy. by rewrite !Hts.
Qed.

Lemma holds_send_order t T q ts :
  holds t T q → timestamp <$> get_query T q = Some ts →
  in_send_order t → (∀ x, x ∈ outstanding_queries t → slot_time t x ≤ ts) →
  in_send_order T
  ∧ ∀ x, x ∈ outstanding_queries T → slot_time T x ≤ ts.
Proof.
  intros Hheld Hts Hsorted Hclock.
  pose proof (holds_not_before t T q Hheld) as Hnotin.
  destruct Hheld as [Hok Hout Hst Hset Hoth].
  assert (∀ x, x ∈ outstanding_queries t → slot_time T x = slot_time t x) as Hsame.
  { intros x Hx. unfold slot_time. rewrite Hoth; [done|]. intros ->. done. }
  assert (slot_time T q = ts) as Hq by (unfold slot_time; by rewrite Hts).
  split.
  - unfold in_send_order in *. rewrite Hout, reverse_cons.
    apply StronglySorted_app. split; [|split].
    + intros x y Hx Hy. apply list_elem_of_singleton in Hy. subst y.
      rewrite elem_of_reverse in Hx. rewrite Hq, Hsame by done. by apply Hclock.
    + apply (StronglySorted_ext_in (λ a b, slot_time t a ≤ slot_time t b)); [|done].
      intros x y Hx Hy. rewrite elem_of_reverse in Hx, Hy. by rewrite !Hsame.
    + repeat constructor.
  - intros x. rewrite Hout. intros [->|Hx]%elem_of_cons; [lia|].
    rewrite Hsame by done. by apply Hclock.
Qed.

(** X20: the sender keeps the outstanding list in send order.  If the
    list is in send order, the clock of the turn is at most the sentinel
    and not behind the timestamp of any outstanding slot, then after a
    turn of [do_send] that returns the list is in send order again, the
    slots that were outstanding before kept their timestamps, and unless
    the sender leaves its loop no outstanding slot is stamped later than
    the clock of the turn. *)
Theorem do_send_keeps_send_order config times env st st' out evs :
  slot_table_ok (ss_tinfo st) → in_send_order (ss_tinfo st) →
  clock_next env ≤ ISC_UINT64_MAX →
  (∀ x, x ∈ outstanding_queries (ss_tinfo st) →
        slot_time (ss_tinfo st) x ≤ clock_next env) →
  do_send_body config times env st = Some (st', out, evs) →
  in_send_order (ss_tinfo st')
  ∧ (∀ x, x ∈ outstanding_queries (ss_tinfo st) →
          slot_time (ss_tinfo st') x = slot_time (ss_tinfo st) x)
  ∧ (out = send_again →
     ∀ x, x ∈ outstanding_queries (ss_tinfo st') →
          slot_time (ss_tinfo st') x ≤ clock_next env).
Proof.
  intros Hok Hsorted Hmax Hclock Hbody.
  destruct (do_send_body_turn _ _ _ _ _ _ _ Hok Hbody) as (evs' & -> & Hturn).
  clear Hbody. set (t := ss_tinfo st) in *. set (t' := ss_tinfo st') in *.
  clearbody t t'.
  destruct Hturn as [evs'|T q evs' Hheld Hcap|T q out Hheld Hcap Hts Hout
                     |T q s len qi Hheld Hcap Hqi Hqts Hsock].
  - done.
  - destruct (holds_release t T q Hheld) as (_ & _ & Hout' & _ & _ & Hts').
    assert (∀ x, x ∈ outstanding_queries t →
                 slot_time (moved T q prepend_unused) x = slot_time t x) as Hsame.
    { intros x Hx. unfold slot_time. by rewrite Hts'. }
    split; [by apply (in_send_order_ext t)|]. split; [done|].
    intros _ x. rewrite Hout'. intros Hx. rewrite Hsame by done. by apply Hclock.
  - destruct (holds_send_order t T q _ Hheld Hts Hsorted) as [Hsorted' _].
    { intros x Hx. specialize (Hclock x Hx). lia. }
    split; [done|]. split; [|done].
    pose proof (holds_not_before t T q Hheld) as Hnotin.
    intros x Hx. unfold slot_time. destruct Hheld as [_ _ _ _ Hoth].
    rewrite Hoth; [done|]. intros ->. done.
  - assert (timestamp <$> get_query T q = Some (clock_next env)) as Hts
      by (by rewrite Hqi, <- Hqts).
    destruct (holds_send_order t T q _ Hheld Hts Hsorted Hclock)
      as [Hsorted' Hclock'].
    split; [by apply (in_send_order_ext T)|]. split; [|intros _; exact Hclock'].
    intros x Hx.
    change (slot_time (with_stats (count_sent len) T) x) with (slot_time T x).
    unfold slot_time. destruct Hheld as [Hok' Hout' Hst' Hset' Hoth].
    rewrite Hoth; [done|]. intros ->.
    pose proof (slot_table_NoDup T Hok') as Hnd.
    apply NoDup_app in Hnd as (Hnd & _). rewrite Hout' in Hnd.
    by apply NoDup_cons in Hnd as [? _].
Qed.

Lemma do_send_keeps_send_order_witness :
  ∃ st' out evs,
    do_send_body default_config (mk_times 0 0 ISC_UINT64_MAX) env_sent
      (mk_send_state thread_on_wire 1000 false) = Some (st', out, evs)
    ∧ in_send_order (ss_tinfo st')
    ∧ (∀ x, x ∈ outstanding_queries thread_on_wire →
            slot_time (ss_tinfo st') x = slot_time thread_on_wire x)
    ∧ (out = send_again →
       ∀ x, x ∈ outstanding_queries (ss_tinfo st') →
            slot_time (ss_tinfo st') x ≤ clock_next env_sent).
Proof.
  assert ((λ _, ()) <$> do_send_body default_config (mk_times 0 0 ISC_UINT64_MAX)
                          env_sent (mk_send_state thread_on_wire 1000 false)
          = Some ()) as Hrun by (vm_compute; reflexivity).
  destruct (do_send_body _ _ _ _) as [[[st' out] evs]|] eqn:Hbody; [|discriminate].
  exists st', out, evs. split; [reflexivity|].
  apply (do_send_keeps_send_order default_config (mk_times 0 0 ISC_UINT64_MAX)
           env_sent (mk_send_state thread_on_wire 1000 false) st' out evs).
  - apply thread_on_wire_ok.
  - unfold in_send_order. cbn [ss_tinfo]. rewrite thread_on_wire_out.
    repeat constructor.
  - vm_compute. discriminate.
  - intros x. cbn [ss_tinfo]. rewrite thread_on_wire_out.
    intros ->%list_elem_of_singleton. vm_compute. discriminate.
  - exact Hbody.
Defined.

Lemma correlate_send_order t rs t' rs' :
  slot_table_ok t → in_send_order t →
  correlate t rs = Some (t', rs') →
  slot_table_ok t' ∧ in_send_order t'
  ∧ (∀ x, x ∈ outstanding_queries t' → x ∈ outstanding_queries t)
  ∧ (∀ x, timestamp <$> get_query t' x = timestamp <$> get_query t x).
Proof.
  revert t t' rs'. induction rs as [|r rs IH]; intros t t' rs' Hok Hsorted.
  { by intros [= <- <-]. }
  cbn [correlate].
  destruct (correlate_one t r) as [[t1 r1]|] eqn:Hone; [|discriminate].
  cbn [mbind option_bind].
  destruct (correlate t1 rs) as [[t2 rs2]|] eqn:Hrest; [|discriminate].
  cbn [mbind option_bind]. intros [= <- <-].
  assert (slot_table_ok t1 ∧ in_send_order t1
          ∧ (∀ x, x ∈ outstanding_queries t1 → x ∈ outstanding_queries t)
          ∧ (∀ x, timestamp <$> get_query t1 x = timestamp <$> get_query t x))
    as (Hok1 & Hsorted1 & Hsub1 & Hts1).
  { destruct (short_response r) eqn:Hshort.
    - unfold correlate_one in Hone. rewrite Hshort in Hone.
      by injection Hone as <- <-.
    - destruct (correlate_one_cases t r t1 r1 Hok Hshort Hone)
        as [[-> ->]|(Hin & Hun & Hout & Hok1 & _ & _ & _ & _ & _ & _ & Hts & _)];
        [done|].
      split; [done|]. split.
      + unfold in_send_order in *. rewrite Hout.
        unfold ISC_LIST_UNLINK. rewrite <- filter_reverse.
        apply StronglySorted_unlink.
        apply (StronglySorted_ext_in (λ a b, slot_time t a ≤ slot_time t b));
          [|done].
        intros x y _ _. by rewrite !(slot_time_timestamp t t1) by done.
      + split; [|done]. intros x. rewrite Hout. by intros [? _]%elem_of_unlink. }
  destruct (IH t1 t2 rs2 Hok1 Hsorted1 Hrest) as (Hok2 & Hsorted2 & Hsub2 & Hts2).
  split; [done|]. split; [done|]. split; [auto|].
  intros x. by rewrite Hts2.
Qed.

(** X21: the receiver keeps the outstanding list in send order.  After a
    turn of [do_recv] that returns, every outstanding slot was
    outstanding before and has the timestamp it had; so a list that was
    in send order still is. *)
Theorem do_recv_keeps_send_order config net clock st st' out :
  slot_table_ok (rs_tinfo st) → in_send_order (rs_tinfo st) →
  do_recv_body config net clock st = Some (st', out) →
  in_send_order (rs_tinfo st')
  ∧ ∀ x, x ∈ outstanding_queries (rs_tinfo st') →
         x ∈ outstanding_queries (rs_tinfo st)
         ∧ slot_time (rs_tinfo st') x = slot_time (rs_tinfo st) x.
Proof.
  intros Hok Hsorted. unfold do_recv_body.
  destruct (process_timeouts_spec config (rs_now st) (rs_tinfo st) Hok)
    as (t1 & -> & Hok1 & Hout1 & _ & _ & Hsame1).
  cbn [mbind option_bind].
  assert (in_send_order t1
          ∧ ∀ x, x ∈ outstanding_queries t1 →
                 x ∈ outstanding_queries (rs_tinfo st)
                 ∧ slot_time t1 x = slot_time (rs_tinfo st) x) as [Hsorted1 Hsub1].
  { assert (∀ x, slot_time t1 x = slot_time (rs_tinfo st) x) as Hts.
    { intros x. apply slot_time_timestamp. by apply same_payload_timestamp. }
    split.
    - unfold in_send_order in *. rewrite Hout1, reverse_app, reverse_involutive in Hsorted.
      apply StronglySorted_app in Hsorted as (_ & _ & Hsorted).
      apply (StronglySorted_ext_in
               (λ a b, slot_time (rs_tinfo st) a ≤ slot_time (rs_tinfo st) b));
        [|done].
      intros x y _ _. by rewrite !Hts.
    - intros x Hx. split; [|done]. rewrite Hout1. apply elem_of_app. by left. }
  destruct (done_sending t1 && _); [by intros [= <- _]|].
  destruct (do_recv_gather net t1 st) as [nrecvd g].
  destruct (correlate t1 _) as [[t2 batch]|] eqn:Hcorr; [|discriminate].
  cbn [mbind option_bind].
  destruct (account t2 batch) as [t3|] eqn:Hacc; [|discriminate].
  cbn [mbind option_bind].
  destruct (correlate_send_order t1 _ t2 batch Hok1 Hsorted1 Hcorr)
    as (Hok2 & Hsorted2 & Hsub2 & Hts2).
  destruct (account_slots t2 batch t3 Hacc) as (Hq3 & Ho3 & Hu3).
  assert (∀ x, slot_time t3 x = slot_time t2 x) as Hts3.
  { intros x. unfold slot_time, get_query. by rewrite Hq3. }
  set (t4 := match last batch with
             | Some r => with_last_recv (when r) t3
             | None => t3
             end).
  assert (outstanding_queries t4 = outstanding_queries t2
          ∧ ∀ x, slot_time t4 x = slot_time t2 x) as [Ho4 Hts4].
  { subst t4. by destruct (last batch). }
  assert (in_send_order t4
          ∧ ∀ x, x ∈ outstanding_queries t4 →
                 x ∈ outstanding_queries (rs_tinfo st)
                 ∧ slot_time t4 x = slot_time (rs_tinfo st) x) as Hfinal.
  { split.
    - apply (in_send_order_ext t2); [done| |done]. intros x _. apply Hts4.
    - intros x. rewrite Ho4. intros Hx.
      destruct (Hsub1 x (Hsub2 x Hx)) as [Hin Htime]. split; [done|].
      rewrite Hts4, <- Htime. by apply slot_time_timestamp. }
  case_bool_decide; [destruct (g_errno g) as [[]|]|]; by intros [= <- _].
Qed.

Lemma thread_three_on_wire_ok : slot_table_ok thread_three_on_wire.
Proof.
  apply with_stats_ok. apply upd_query_ok; [done|done|].
  apply stamp_ok; [|done]. apply acquire_ok; [|done].
  apply with_stats_ok. apply upd_query_ok; [done|done|].
  apply stamp_ok; [|done]. apply acquire_ok; [|done]. apply thread_on_wire_ok.
Qed.

Lemma thread_three_on_wire_out :
  outstanding_queries thread_three_on_wire = [2; 1; 0].
Proof. vm_compute. reflexivity. Qed.

Lemma do_recv_keeps_send_order_witness :
  ∃ st' out,
    do_recv_body default_config net_answer_to_second 1000900 recv_three_on_wire
    = Some (st', out)
    ∧ in_send_order (rs_tinfo st')
    ∧ (∀ x, x ∈ outstanding_queries (rs_tinfo st') →
            x ∈ outstanding_queries (rs_tinfo recv_three_on_wire)
            ∧ slot_time (rs_tinfo st') x
              = slot_time (rs_tinfo recv_three_on_wire) x)
    ∧ outstanding_queries (rs_tinfo recv_three_on_wire) = [2; 1; 0]
    ∧ outstanding_queries (rs_tinfo st') = [2; 0].
Proof.
  assert ((λ r : recv_state * recv_outcome, outstanding_queries (rs_tinfo r.1))
            <$> do_recv_body default_config net_answer_to_second 1000900
                  recv_three_on_wire
          = Some [2; 0]) as Hrun by (vm_compute; reflexivity).
  destruct (do_recv_body default_config net_answer_to_second 1000900
              recv_three_on_wire) as [[st' out]|] eqn:Hbody; [|discriminate].
  cbn [fmap option_fmap option_map fst] in Hrun. apply (inj Some) in Hrun.
  exists st', out. split; [reflexivity|].
  destruct (do_recv_keeps_send_order default_config net_answer_to_second 1000900
              recv_three_on_wire st' out) as [Horder Hkept].
  - apply thread_three_on_wire_ok.
  - unfold in_send_order. change (rs_tinfo recv_three_on_wire)
      with thread_three_on_wire.
    rewrite thread_three_on_wire_out. change (reverse [2; 1; 0]) with [0; 1; 2].
    repeat constructor; vm_compute; discriminate.
  - exact Hbody.
  - split; [exact Horder|]. split; [exact Hkept|].
    split; [apply thread_three_on_wire_out|exact Hrun].
Defined.

(** ** The turns return *)

Lemma filter_all (p : Z → bool) (l : list Z) :
  (∀ x, x ∈ l → p x = true) → filter (λ x, p x) l = l.
Proof.
  induction l as [|x l IH]; intros Hall; [done|].
  rewrite filter_cons_True by (rewrite Hall by (by left); done).
  f_equal. apply IH. intros y Hy. apply Hall. by right.
Qed.

Lemma all_sent_in_flight t :
  all_sent t → in_flight t = Z.of_nat (length (outstanding_queries t)).
Proof. intros Hall. unfold in_flight. by rewrite filter_all. Qed.

(** X22: the sender always finds a free slot.  On a thread that satisfies
    I1 and I2, whose outstanding slots are all stamped and whose
    [max_outstanding] is at most 65,536 (the cap [threadinfo_init] puts on
    it), a turn of [do_send] returns: when the in-flight check lets it
    pass, the unused list is not empty.  A turn that does not leave the
    loop leaves all outstanding slots stamped again, and every turn keeps
    I3: a stamped outstanding slot has a socket. *)
Theorem do_send_finds_free_slot config times env st :
  slot_table_ok (ss_tinfo st) → in_flight_ok (ss_tinfo st) →
  all_sent (ss_tinfo st) → sockets_ok (ss_tinfo st) →
  max_outstanding (ss_tinfo st) ≤ NQIDS → clock_next env ≠ ISC_UINT64_MAX →
  ∃ st' out evs,
    do_send_body config times env st = Some (st', out, evs)
    ∧ (out = send_again → all_sent (ss_tinfo st'))
    ∧ sockets_ok (ss_tinfo st').
Proof.
  intros Hok Hfl Hall Hsocks Hmax Hclock.
  assert (∃ st' out evs, do_send_body config times env st = Some (st', out, evs))
    as (st' & out & evs & Hbody).
  { unfold do_send_body.
    assert (∀ now, ∃ r, do_send_query config env (ss_tinfo st) now
                          (ss_any_inprogress st) = Some r) as Hquery.
    { intros now.
      destruct (decide (num_outstanding (stats (ss_tinfo st))
                        < max_outstanding (ss_tinfo st))) as [Hcap|Hcap].
      - destruct (unused_queries (ss_tinfo st)) as [|q rest] eqn:Hun.
        + exfalso. pose proof (slot_table_length _ Hok) as Hlen.
          rewrite Hun in Hlen. cbn [length] in Hlen.
          rewrite Hfl, (all_sent_in_flight _ Hall) in Hcap. lia.
        + destruct (do_send_query_spec config env (ss_tinfo st) now
                      (ss_any_inprogress st) q rest Hok Hun Hcap)
            as (st1 & out1 & evs1 & Hrun & _).
          by exists (st1, out1, evs1).
      - unfold do_send_query. rewrite bool_decide_eq_true_2 by lia. eauto. }
    assert (∃ r, do_send_rate_limit config times env (ss_tinfo st)
                   (if pacing_due (ss_tinfo st) then clock_pace env else ss_now st)
                   (ss_any_inprogress st) = Some r) as [[[st1 out1] evs1] ->].
    { unfold do_send_rate_limit.
      case_bool_decide; [case_bool_decide|]; [eauto|apply Hquery..]. }
    cbn [mbind option_bind]. eauto. }
  exists st', out, evs. split; [done|].
  destruct (do_send_body_turn _ _ _ _ _ _ _ Hok Hbody) as (evs' & -> & Hturn).
  clear Hbody. set (t := ss_tinfo st) in *. set (t' := ss_tinfo st') in *.
  clearbody t t'.
  destruct Hturn as [evs'|T q evs' Hheld Hcap|T q out Hheld Hcap Hts Hout
                     |T q s len qi Hheld Hcap Hqi Hqts Hsock].
  - done.
  - destruct (holds_release t T q Hheld) as (_ & _ & Hout' & _ & _ & Hsame).
    split.
    + intros _ x. rewrite Hout'. intros Hx. unfold is_sent.
      rewrite Hsame by done. by apply Hall.
    + intros x xi. rewrite Hout'. intros Hx. rewrite Hsame by done.
      by apply Hsocks.
  - split; [done|].
    pose proof (holds_not_before t T q Hheld) as Hnotin.
    destruct Hheld as [_ Hout' _ _ Hoth].
    intros x xi. rewrite Hout'. intros [->|Hx]%elem_of_cons.
    + intros Hxi Hne. rewrite Hxi in Hts. cbn in Hts. by injection Hts.
    + rewrite Hoth by (by intros ->). by apply Hsocks.
  - pose proof (holds_not_before t T q Hheld) as Hnotin.
    destruct Hheld as [_ Hout' _ _ Hoth].
    split.
    + intros _ x.
      change (outstanding_queries (with_stats (count_sent len) T))
        with (outstanding_queries T).
      rewrite Hout'. unfold is_sent.
      change (get_query (with_stats (count_sent len) T) x) with (get_query T x).
      intros [->|Hx]%elem_of_cons.
      * rewrite Hqi. cbn. apply bool_decide_eq_true_2. intros [= Heq]. congruence.
      * rewrite Hoth by (by intros ->). by apply Hall.
    + intros x xi.
      change (outstanding_queries (with_stats (count_sent len) T))
        with (outstanding_queries T).
      change (get_query (with_stats (count_sent len) T) x) with (get_query T x).
      rewrite Hout'. intros [->|Hx]%elem_of_cons.
      * rewrite Hqi. intros [= <-] _. rewrite Hsock. eauto.
      * rewrite Hoth by (by intros ->). by apply Hsocks.
Qed.

Lemma thread_started_in_flight : in_flight_ok thread_started.
Proof. unfold in_flight_ok. vm_compute. reflexivity. Qed.

Lemma do_send_finds_free_slot_witness :
  ∃ st' out evs,
    do_send_body default_config (mk_times 0 0 ISC_UINT64_MAX) env_sent
      (mk_send_state thread_started 1000 false) = Some (st', out, evs)
    ∧ (out = send_again → all_sent (ss_tinfo st'))
    ∧ sockets_ok (ss_tinfo st').
Proof.
  apply (do_send_finds_free_slot default_config (mk_times 0 0 ISC_UINT64_MAX)
           env_sent (mk_send_state thread_started 1000 false)).
  - apply thread_started_ok.
  - apply thread_started_in_flight.
  - intros q Hq. by apply elem_of_nil in Hq.
  - intros q qi Hq. by apply elem_of_nil in Hq.
  - vm_compute. discriminate.
  - vm_compute. discriminate.
Defined.

Lemma filled_entry net r :
  filled net r →
  0 ≤ qid r < NQIDS ∧ rcode_ok r ∧ is_Some (r_sock r) ∧ unexpected r = false.
Proof.
  intros (w & k & Hrecv). set (res := net k) in *.
  pose proof (recv_one_rcode w res r Hrecv) as [_ Hrc].
  revert Hrecv. unfold recv_one. case_bool_decide; [discriminate|].
  intros [= <-]. cbn [qid r_sock unexpected].
  pose proof (packet_byte_range (nr_packet res) 0).
  pose proof (packet_byte_range (nr_packet res) 1).
  split; [unfold ntohs_header, NQIDS; cbn [Nat.mul Nat.add]; lia|].
  split; [done|]. split; [eauto|done].
Qed.

Lemma correlate_returns net t rs :
  slot_table_ok t → sockets_ok t → Forall (filled net) rs →
  ∃ t' rs', correlate t rs = Some (t', rs')
    ∧ slot_table_ok t' ∧ sockets_ok t' ∧ Forall rcode_ok rs'
    ∧ stats t' = stats t
    ∧ (∀ x, x ∈ outstanding_queries t' → x ∈ outstanding_queries t)
    ∧ (∀ x, timestamp <$> get_query t' x = timestamp <$> get_query t x).
Proof.
  revert t. induction rs as [|r rs IH]; intros t Hok Hsocks Hfilled.
  { exists t, []. split; [done|]. split; [done|]. split; [done|].
    split; [constructor|done]. }
  apply Forall_cons in Hfilled as [Hr Hrs].
  destruct (filled_entry net r Hr) as (Hqid & Hrc & [b Hb] & Hu).
  assert (∃ t1 r1, correlate_one t r = Some (t1, r1)) as (t1 & r1 & Hone).
  { unfold correlate_one. destruct (short_response r); [eauto|].
    destruct (get_query_in_range t (qid r) (ok_size t Hok) Hqid) as [qi Hqi].
    rewrite Hqi. cbn [mbind option_bind].
    case_bool_decide as Htag; [cbn; eauto|].
    case_bool_decide as Hts; [cbn; eauto|].
    assert (qid r ∈ outstanding_queries t) as Hin.
    { apply (slot_table_elem t _ Hok) in Hqid as [Hin|Hin]; [done|].
      pose proof (ok_unused t Hok _ Hin) as Hunused. rewrite Hqi in Hunused.
      cbn in Hunused. injection Hunused as Hunused. congruence. }
    destruct (Hsocks _ _ Hin Hqi Hts) as [a Ha]. rewrite Ha, Hb.
    cbn [mbind option_bind]. case_bool_decide; [eauto|].
    rewrite (query_move_moved t _ append_unused Hok Hqid).
    cbn [mbind option_bind]. eauto. }
  assert (slot_table_ok t1 ∧ sockets_ok t1 ∧ rcode_ok r1 ∧ stats t1 = stats t
          ∧ (∀ x, x ∈ outstanding_queries t1 → x ∈ outstanding_queries t)
          ∧ (∀ x, timestamp <$> get_query t1 x = timestamp <$> get_query t x))
    as (Hok1 & Hsocks1 & Hrc1 & Hst1 & Hsub1 & Hts1).
  { pose proof (correlate_one_rcode t r t1 r1 Hone) as [Hrceq Hsteq].
    assert (rcode_ok r1) as Hrc1 by (unfold rcode_ok; by rewrite Hrceq).
    destruct (short_response r) eqn:Hshort.
    - unfold correlate_one in Hone. rewrite Hshort in Hone.
      by injection Hone as <- <-.
    - destruct (correlate_one_cases t r t1 r1 Hok Hshort Hone)
        as [[-> ->]|(Hin & Hun & Hout & Hok1 & _ & _ & _ & _ & _ & _ & Hts & Hoth)];
        [done|].
      split; [done|]. split.
      { intros x xi. rewrite Hout. intros [Hx Hne]%elem_of_unlink.
        rewrite Hoth by done. by apply Hsocks. }
      split; [done|]. split; [done|]. split; [|done].
      intros x. rewrite Hout. by intros [? _]%elem_of_unlink. }
  destruct (IH t1 Hok1 Hsocks1 Hrs)
    as (t2 & rs2 & Hrest & Hok2 & Hsocks2 & Hrcs2 & Hst2 & Hsub2 & Hts2).
  exists t2, (r1 :: rs2). cbn [correlate]. rewrite Hone. cbn [mbind option_bind].
  rewrite Hrest. cbn [mbind option_bind].
  split; [done|]. split; [done|]. split; [done|]. split; [by constructor|].
  split; [by rewrite Hst2|]. split; [auto|]. intros x. by rewrite Hts2.
Qed.

(** X23: a turn of the receiver returns.  On a thread that satisfies I1
    and I3 and has its 16 response-code counters, with a socket count that
    is not negative and when every failed receive of the batch has
    [EAGAIN], a turn of [do_recv] returns: no lookup of a slot or of a
    counter leaves its array and no socket pointer that is compared is
    [NULL].  The turn keeps I1, I3 and the 16 counters, and leaves all
    outstanding slots stamped if they were. *)
Theorem do_recv_turn_returns config net clock st :
  slot_table_ok (rs_tinfo st) → sockets_ok (rs_tinfo st) →
  length (rcodecounts (stats (rs_tinfo st))) = 16%nat →
  0 ≤ nsocks (rs_tinfo st) →
  (∀ k, nr_n (net k) < 0 → nr_errno (net k) = EAGAIN) →
  ∃ st' out,
    do_recv_body config net clock st = Some (st', out)
    ∧ slot_table_ok (rs_tinfo st') ∧ sockets_ok (rs_tinfo st')
    ∧ length (rcodecounts (stats (rs_tinfo st'))) = 16%nat
    ∧ (all_sent (rs_tinfo st) → all_sent (rs_tinfo st')).
Proof.
  intros Hok Hsocks Hlen Hns Hagain. unfold do_recv_body.
  destruct (process_timeouts_spec config (rs_now st) (rs_tinfo st) Hok)
    as (t1 & Hsweep & Hok1 & Hout1 & _ & _ & Hsame1).
  rewrite Hsweep. cbn [mbind option_bind].
  pose proof (process_timeouts_settings _ _ _ _ Hsweep) as (Hns1 & _).
  pose proof (process_timeouts_rcodecounts _ _ _ _ Hsweep) as Hrc1.
  assert (∀ x, x ∈ outstanding_queries t1 → x ∈ outstanding_queries (rs_tinfo st))
    as Hsub1.
  { intros x Hx. rewrite Hout1. apply elem_of_app. by left. }
  assert (sockets_ok t1) as Hsocks1.
  { intros x xi Hx Hxi Hts.
    pose proof (Hsame1 x) as Hpay. rewrite Hxi in Hpay.
    destruct (get_query (rs_tinfo st) x) as [xi0|] eqn:Hxi0; [|discriminate].
    cbn in Hpay. injection Hpay as Ht _ Hs.
    rewrite Hs. apply (Hsocks x xi0); [by apply Hsub1|done|by rewrite <- Ht]. }
  assert (all_sent (rs_tinfo st) → all_sent t1) as Hall1.
  { intros Hall x Hx. rewrite (is_sent_ext (rs_tinfo st) t1)
      by (by apply same_payload_timestamp). by apply Hall, Hsub1. }
  destruct (done_sending t1 && _).
  { eexists _, _. split; [reflexivity|]. cbn [rs_tinfo].
    split; [done|]. split; [done|]. split; [by rewrite Hrc1|done]. }
  pose proof (do_recv_gather_filled net t1 st ltac:(by rewrite Hns1) Hagain) as Hfilled.
  destruct (do_recv_gather net t1 st) as [nrecvd g]. cbn [fst snd] in Hfilled.
  destruct (correlate_returns net t1 _ Hok1 Hsocks1 Hfilled)
    as (t2 & batch & -> & Hok2 & Hsocks2 & Hrcs & Hst2 & Hsub2 & Hts2).
  cbn [mbind option_bind].
  destruct (account_total t2 batch Hrcs) as (t3 & Hacc & Hlen3);
    [by rewrite Hst2, Hrc1|].
  rewrite Hacc. cbn [mbind option_bind].
  set (t4 := match last batch with
             | Some r => with_last_recv (when r) t3
             | None => t3
             end).
  assert (slot_table_ok t4 ∧ sockets_ok t4
          ∧ length (rcodecounts (stats t4)) = 16%nat
          ∧ (all_sent (rs_tinfo st) → all_sent t4)) as Hfinal.
  { assert (queries t4 = queries t2
            ∧ outstanding_queries t4 = outstanding_queries t2
            ∧ unused_queries t4 = unused_queries t2
            ∧ rcodecounts (stats t4) = rcodecounts (stats t3))
      as (Hq4 & Ho4 & Hu4 & Hrc4).
    { destruct (account_slots t2 batch t3 Hacc) as (Hq3 & Ho3 & Hu3).
      subst t4. by destruct (last batch). }
    assert (∀ x, get_query t4 x = get_query t2 x) as Hget.
    { intros x. unfold get_query. by rewrite Hq4. }
    split; [by apply (slot_table_ok_ext t2)|].
    split.
    { intros x xi. rewrite Ho4, Hget. by apply Hsocks2. }
    split; [by rewrite Hrc4|].
    intros Hall x. rewrite Ho4. intros Hx. unfold is_sent. rewrite Hget.
    fold (is_sent t2 x). rewrite (is_sent_ext t1 t2) by done.
    by apply (Hall1 Hall), Hsub2. }
  case_bool_decide; [destruct (g_errno g) as [[]|]|];
    (eexists _, _; split; [reflexivity|]; exact Hfinal).
Qed.

Lemma thread_on_wire_sockets : sockets_ok thread_on_wire.
Proof.
  intros q qi. rewrite thread_on_wire_out. intros ->%list_elem_of_singleton.
  assert (get_query thread_on_wire 0
          = Some (mk_query 1000000 (Some outstanding_list) None (Some 0))) as ->
    by (vm_compute; reflexivity).
  intros [= <-] _. cbn. eauto.
Qed.

Lemma do_recv_turn_returns_witness :
  ∃ st' out,
    do_recv_body default_config net_one_answer 1000800 recv_on_wire = Some (st', out)
    ∧ slot_table_ok (rs_tinfo st') ∧ sockets_ok (rs_tinfo st')
    ∧ length (rcodecounts (stats (rs_tinfo st'))) = 16%nat
    ∧ (all_sent (rs_tinfo recv_on_wire) → all_sent (rs_tinfo st')).
Proof.
  apply (do_recv_turn_returns default_config net_one_answer 1000800 recv_on_wire).
  - apply thread_on_wire_ok.
  - apply thread_on_wire_sockets.
  - reflexivity.
  - vm_compute. discriminate.
  - intros [|k]; vm_compute; [discriminate|reflexivity].
Defined.

(** ** When the receiver stops *)

Lemma filter_length_0 (p : Z → bool) (l : list Z) :
  length (filter (λ x, p x) l) = 0%nat → ∀ x, x ∈ l → p x = false.
Proof.
  induction l as [|y l IH]; intros Hlen x Hx; [by apply elem_of_nil in Hx|].
  rewrite filter_cons in Hlen. destruct (p y) eqn:Hy.
  - destruct (decide _) as [_|Hn]; [discriminate|by destruct Hn].
  - destruct (decide _) as [Hn|_]; [by destruct Hn|].
    apply elem_of_cons in Hx as [->|Hx]; [done|]. by apply IH.
Qed.

(** X24: when the receiver stops on its own.  On a thread that satisfies
    I1 and I2, at a time below the sentinel, a turn of [do_recv] ends the
    loop ([break]) only if the sender is done and, after the sweep of the
    turn, no query is in flight: every slot still on the outstanding list
    holds the sentinel, and nothing was received in the turn.  And it
    does end the loop when the sender is done and all queries in flight
    are reclaimed by the sweep of the turn. *)
Theorem receiver_stops_when_drained config net clock st st' out :
  slot_table_ok (rs_tinfo st) → in_flight_ok (rs_tinfo st) →
  rs_now st < ISC_UINT64_MAX →
  do_recv_body config net clock st = Some (st', out) →
  (out = recv_done →
   done_sending (rs_tinfo st) = true
   ∧ in_flight (rs_tinfo st') = 0
   ∧ (∀ q, q ∈ outstanding_queries (rs_tinfo st') →
           is_sent (rs_tinfo st') q = false)
   ∧ rs_recvd st' = rs_recvd st)
  ∧ (done_sending (rs_tinfo st) = true →
     in_flight (rs_tinfo st)
     = Z.of_nat (length (swept config (rs_now st) (rs_tinfo st))) →
     out = recv_done).
Proof.
  intros Hok Hfl Hnow. unfold do_recv_body.
  destruct (sweep_in_flight config (rs_now st) (rs_tinfo st) Hok Hfl Hnow)
    as (t1 & Hsweep & Hok1 & Hfl1 & _ & _ & Hcount & _).
  rewrite Hsweep. cbn [mbind option_bind].
  pose proof (process_timeouts_settings _ _ _ _ Hsweep) as (_ & _ & _ & Hdone & _).
  rewrite Hdone, Hfl1.
  destruct (done_sending (rs_tinfo st)); cbn [andb].
  - case_bool_decide as Hzero.
    + intros [= <- <-]. cbn [rs_tinfo rs_recvd]. split; [|done].
      intros _. split; [done|]. split; [done|]. split; [|done].
      apply filter_length_0. unfold in_flight in Hzero. lia.
    + destruct (do_recv_gather net t1 st) as [nrecvd g].
      destruct (correlate t1 _) as [[t2 batch]|]; [|discriminate].
      cbn [mbind option_bind].
      destruct (account t2 batch) as [t3|]; [|discriminate].
      cbn [mbind option_bind].
      case_bool_decide; [destruct (g_errno g) as [[]|]|]; intros [= <- <-];
        (split; [discriminate|]); intros _ Hall; lia.
  - destruct (do_recv_gather net t1 st) as [nrecvd g].
    destruct (correlate t1 _) as [[t2 batch]|]; [|discriminate].
    cbn [mbind option_bind].
    destruct (account t2 batch) as [t3|]; [|discriminate].
    cbn [mbind option_bind].
    case_bool_decide; [destruct (g_errno g) as [[]|]|]; intros [= <- <-];
      (split; [discriminate|]); discriminate.
Qed.

Lemma do_send_done_ok clock t : slot_table_ok t → slot_table_ok (do_send_done clock t).
Proof. by apply (slot_table_ok_ext t). Qed.

Lemma receiver_stops_when_drained_witness :
  ∃ st' out,
    do_recv_body default_config net_idle 4000 recv_after_sender = Some (st', out)
    ∧ (out = recv_done →
       done_sending (rs_tinfo recv_after_sender) = true
       ∧ in_flight (rs_tinfo st') = 0
       ∧ (∀ q, q ∈ outstanding_queries (rs_tinfo st') →
               is_sent (rs_tinfo st') q = false)
       ∧ rs_recvd st' = rs_recvd recv_after_sender)
    ∧ (done_sending (rs_tinfo recv_after_sender) = true →
       in_flight (rs_tinfo recv_after_sender)
       = Z.of_nat (length (swept default_config (rs_now recv_after_sender)
                             (rs_tinfo recv_after_sender))) →
       out = recv_done).
Proof.
  assert (snd <$> do_recv_body default_config net_idle 4000 recv_after_sender
          = Some recv_done) as Hrun by (vm_compute; reflexivity).
  destruct (do_recv_body default_config net_idle 4000 recv_after_sender)
    as [[st' out]|] eqn:Hbody; [|discriminate].
  exists st', out. split; [reflexivity|].
  apply (receiver_stops_when_drained default_config net_idle 4000 recv_after_sender
           st' out).
  - change (rs_tinfo recv_after_sender)
      with (do_send_done 2000 (acquire thread_started 0)).
    apply do_send_done_ok, acquire_ok; [apply thread_started_ok|done].
  - unfold in_flight_ok. vm_compute. reflexivity.
  - vm_compute. reflexivity.
  - exact Hbody.
Defined.
